(** * Inheritance resolution of the schema: linearization, base deltas,
    rebase, reference merging and reference deletion.

    The development embeds [edb/schema/inheriting.py], the creation and
    deletion hooks of [edb/schema/referencing.py], with the finalization
    of the referrer's command that follows a deletion, and the subclass
    test of [edb/schema/objtypes.py].  Schema objects are identified by their
    names; a schema is a finite map from names to object states, threaded
    explicitly through every operation, as the source threads [schema]. *)

From stdpp Require Import gmap strings list fin_maps.

(** ** Names, errors and outcomes *)

(** A schema object is addressed by its (unique) name; [id(x)] / [x is y]
    on schema objects is equality of names. *)
Abbreviation name := string.

(** The exceptions the embedded code can raise. *)
Inductive error : Type :=
  | SchemaError (obj : name)
      (* "Could not find consistent ancestor order for <obj>" *)
  | SchemaDefinitionError (obj : name) (ref : name) (ancestry : list (option name))
      (* "<obj>: <ref> must be declared using the `inherited` keyword because
         it is defined in the following ancestor(s): ..." *)
  | NothingToInheritError (obj : name) (ref : name)
      (* "<obj>: <ref> cannot be declared `inherited` as there are no
         ancestors defining it." *)
  | InvalidReferenceError (obj : name)   (* a name that the schema does not hold *)
  | KeyError (key : name)
  | IndexError
  | AttributeError                       (* attribute access on None *)
  | UnboundLocalError (var : name)
  | RecursionError.                      (* recursion or iteration budget exhausted *)

Inductive outcome (A : Type) : Type :=
  | Ok (a : A)
  | Raise (e : error).
Arguments Ok {A} a.
Arguments Raise {A} e.

Global Instance outcome_ret : MRet outcome := λ A a, Ok a.
Global Instance outcome_bind : MBind outcome := λ A B f r,
  match r with
  | Ok a => f a
  | Raise e => Raise e
  end.
Global Instance outcome_fmap : FMap outcome := λ A B f r,
  match r with
  | Ok a => Ok (f a)
  | Raise e => Raise e
  end.

Definition is_Ok {A} (r : outcome A) : Prop := ∃ a, r = Ok a.

(** [mapM] of the outcome monad, left to right, stopping at the first error. *)
Fixpoint mapR {A B} (f : A → outcome B) (l : list A) : outcome (list B) :=
  match l with
  | [] => Ok []
  | x :: l' => y ← f x; ys ← mapR f l'; Ok (y :: ys)
  end.

(** A [for] loop that threads a state and stops at the first error. *)
Fixpoint foldR {A S} (f : S → A → outcome S) (l : list A) (s : S) : outcome S :=
  match l with
  | [] => Ok s
  | x :: l' => s' ← f s x; foldR f l' s'
  end.

(** ** The linearization engine: [_merge_mro] and [compute_mro] *)

(** [id(candidate) in {id(c) for c in m[1:]}] *)
Definition in_tail (candidate : name) (m : list name) : bool :=
  bool_decide (candidate ∈ tail m).

(** [tails = [m for m in nonempty if id(candidate) in {id(c) for c in m[1:]}]] *)
Definition tails (nonempty : list (list name)) (candidate : name)
  : list (list name) :=
  filter (λ m, in_tail candidate m = true) nonempty.

(** The [for mro in nonempty: ... break / else: raise] search: the head of
    the first list whose head is in no tail; [None] is the [else] branch.
    [todo] is the part of [nonempty] still to visit. *)
Fixpoint find_candidate (nonempty todo : list (list name)) : option name :=
  match todo with
  | [] => None
  | mro :: todo' =>
      match mro with
      | candidate :: _ =>
          match tails nonempty candidate with
          | [] => Some candidate
          | _ :: _ => find_candidate nonempty todo'
          end
      | [] => find_candidate nonempty todo'   (* not reached: [mro] is non-empty *)
      end
  end.

(** [if mro[0] is candidate: del mro[0]], on one list. *)
Definition del_head (candidate : name) (mro : list name) : list name :=
  match mro with
  | c :: rest => if decide (c = candidate) then rest else mro
  | [] => []
  end.

(** The [while True] loop.  The lists of [mros] are mutated in place by the
    source; here the updated lists are passed to the next iteration.  The
    iteration budget is only consumed by an iteration that removes an
    element, so the total number of elements is enough
    (see [_merge_mro_returns]). *)
Fixpoint merge_loop (fuel : nat) (obj : name) (mros : list (list name))
    (result : list name) : outcome (list name) :=
  let nonempty := filter (λ mro, mro ≠ []) mros in
  match nonempty with
  | [] => Ok result
  | _ :: _ =>
      match fuel with
      | 0 => Raise RecursionError
      | S fuel' =>
          match find_candidate nonempty nonempty with
          | None => Raise (SchemaError obj)
          | Some candidate =>
              merge_loop fuel' obj (del_head candidate <$> mros)
                         (result ++ [candidate])
          end
      end
  end.

Definition _merge_mro (obj : name) (mros : list (list name))
  : outcome (list name) :=
  merge_loop (length (concat mros)) obj mros [].

(** *** Schema objects *)

(** The state of one schema object.  [refs] holds the explicitly set
    reference collections by attribute name (each a map from reference key
    to the name of the referenced object); [backrefs] holds the
    back-reference fields of a referenced object, by attribute name. *)
Record object : Type := Object {
  bases : list name;
  ancestors : option (list name);
  refs : gmap name (gmap name name);
  backrefs : gmap name name;
  declared_inherited : bool;
}.

Abbreviation schema := (gmap name object).

(** [schema.get(name)] / resolving an object reference. *)
Definition get_object (s : schema) (n : name) : outcome object :=
  match s !! n with
  | Some o => Ok o
  | None => Raise (InvalidReferenceError n)
  end.

(** [tuple(obj.get_bases(schema).objects(schema))]: the bases of [obj], each
    resolved in the schema. *)
Definition get_bases (s : schema) (obj : name) : outcome (list name) :=
  o ← get_object s obj;
  _ ← mapR (get_object s) (bases o);
  Ok (bases o).

(** [compute_mro]: Python recursion through [base.compute_mro(schema)];
    [fuel] bounds the recursion depth. *)
Fixpoint compute_mro (fuel : nat) (s : schema) (obj : name)
  : outcome (list name) :=
  match fuel with
  | 0 => Raise RecursionError
  | S fuel' =>
      bs ← get_bases s obj;
      mros ← mapR (compute_mro fuel' s) bs;
      _merge_mro obj ([obj] :: mros)
  end.

(** ** The base-delta calculator: [delta_bases] *)

(** The anchor of a group of added bases: the strings ['FIRST'] and
    ['LAST'], the tuple [('BEFORE', ref)], or [None].  The reference [ref]
    is identified with the name it carries, which is how [index[ref]] finds
    the named base. *)
Inductive position : Type :=
  | NoPosition
  | FIRST
  | LAST
  | BEFORE (ref : name).

Global Instance position_eq_dec : EqDecision position.
Proof. solve_decision. Defined.

(** One entry of [added_bases]: the bases to insert and where. *)
Abbreviation group := (list name * position)%type.

(** The variables the [for i, base in enumerate(new_bases)] loop updates. *)
Record walk_state : Type := WalkState {
  j : nat;
  added_set : gset name;
  added_base_refs : list name;
  walk_added_bases : list group;
}.

(** The loop over [new_bases]; [Ok] both on [break] and at the end of the
    list.  [common_bases[j]] out of range would be an [IndexError]
    (it is never raised, see [walk_new_bases_returns]). *)
Fixpoint walk_new_bases (common_bases new_bases : list name) (st : walk_state)
  : outcome walk_state :=
  match new_bases with
  | [] => Ok st
  | base :: rest =>
      match common_bases !! j st with
      | None => Raise IndexError
      | Some c =>
          if decide (c = base) then
            (* Found common base, insert the accumulated list of new bases *)
            let st1 :=
              match added_base_refs st with
              | [] => st
              | _ :: _ =>
                  WalkState (j st) (added_set st) []
                    (walk_added_bases st ++ [(added_base_refs st, BEFORE c)])
              end in
            let st2 := WalkState (j st1 + 1) (added_set st1)
                         (added_base_refs st1) (walk_added_bases st1) in
            if decide (length common_bases ≤ j st2) then Ok st2   (* break *)
            else walk_new_bases common_bases rest st2
          else
            (* Base has been inserted at position j *)
            walk_new_bases common_bases rest
              (WalkState (j st) ({[base]} ∪ added_set st)
                 (added_base_refs st ++ [base]) (walk_added_bases st))
      end
  end.

(** [delta_bases(old_bases, new_bases)]: [(removed_bases, added_bases)].
    [removed_bases] lists the frozenset [dropped] in its iteration order. *)
Definition delta_bases (old_bases new_bases : list name)
  : outcome (list name * list group) :=
  let dropped : gset name := list_to_set old_bases ∖ list_to_set new_bases in
  let removed_bases := elements dropped in
  let common_bases := filter (λ b, b ∉ dropped) old_bases in
  let st0 := WalkState 0 ∅ [] [] in
  st ← (match common_bases with
        | [] => Ok st0
        | _ :: _ => walk_new_bases common_bases new_bases st0
        end);
  (* Finally, add all remaining bases to the end of the list *)
  let tail_bases :=
    added_base_refs st ++
    filter (λ b, (b ∉ added_set st) ∧ (b ∉ common_bases)) new_bases in
  let added_bases :=
    match tail_bases with
    | [] => walk_added_bases st
    | _ :: _ => walk_added_bases st ++ [(tail_bases, LAST)]
    end in
  Ok (removed_bases, added_bases).

(** ** The rebase coordinator: reconstruction of the base list *)

(** [list.remove(b)]: drop the first element equal to [b]. *)
Fixpoint list_remove_first (b : name) (l : list name) : list name :=
  match l with
  | [] => []
  | x :: l' => if decide (x = b) then l' else x :: list_remove_first b l'
  end.

(** [for b in bases: if name(b) in removed_bases: bases.remove(b)
     else: existing_bases.add(name(b))].
    The list is mutated while it is iterated: the iterator of a Python list
    is a position [i] into the current list, advanced by one after every
    element.  At most [length bases] elements are visited, which bounds
    [fuel] (see [remove_loop_fuel]). *)
Fixpoint remove_loop (fuel i : nat) (removed_bases : gset name)
    (bases : list name) (existing_bases : gset name)
  : list name * gset name :=
  match fuel with
  | 0 => (bases, existing_bases)
  | S fuel' =>
      match bases !! i with
      | None => (bases, existing_bases)
      | Some b =>
          if decide (b ∈ removed_bases) then
            remove_loop fuel' (S i) removed_bases
              (list_remove_first b bases) existing_bases
          else
            remove_loop fuel' (S i) removed_bases bases
              ({[b]} ∪ existing_bases)
      end
  end.

(** [index = {b.get_name(schema): i for i, b in enumerate(bases)}]: for a
    repeated name the last position wins. *)
Definition index_of_bases (bases : list name) : gmap name nat :=
  list_to_map (reverse (imap (λ i b, (b, i)) bases)).

(** The loop over [self.added_bases], lines 248-262.  [existing_bases] is
    not extended by the splices; [index] is rebuilt after each one. *)
Fixpoint splice_groups (s : schema) (existing_bases : gset name)
    (bases : list name) (added_bases : list group) : outcome (list name) :=
  match added_bases with
  | [] => Ok bases
  | (new_bases, pos) :: more =>
      let index := index_of_bases bases in
      idx ← (match pos with
             | NoPosition | LAST => Ok (length bases)
             | FIRST => Ok 0
             | BEFORE ref =>
                 match index !! ref with
                 | Some i => Ok i
                 | None => Raise (KeyError ref)
                 end
             end);
      objs ← mapR (λ b, _ ← get_object s b; Ok b)
                  (filter (λ b, b ∉ existing_bases) new_bases);
      splice_groups s existing_bases
        (take idx bases ++ objs ++ drop idx bases) more
  end.

(** Lines 231-235: a base list that is exactly the default base is taken
    as empty.  [default_base_name] is what the class's
    [get_default_base_name()] returns. *)
Definition drop_default (s : schema) (default_base_name : option name)
    (bases : list name) : outcome (list name) :=
  match default_base_name with
  | Some d =>
      _ ← get_object s d;
      Ok (if decide (bases = [d]) then [] else bases)
  | None => Ok bases
  end.

(** Lines 237-262: the removals, then the splices. *)
Definition edit_bases (s : schema) (bases : list name)
    (removed : list name) (added : list group) : outcome (list name) :=
  let removed_bases : gset name := list_to_set removed in
  let '(bases, existing_bases) :=
    remove_loop (length bases) 0 removed_bases bases ∅ in
  splice_groups s existing_bases bases added.

(** Lines 264-269: an empty result falls back to the default base. *)
Definition restore_default (s : schema) (default_base_name : option name)
    (bases : list name) : outcome (list name) :=
  match bases with
  | [] =>
      match default_base_name with
      | Some default => _ ← get_object s default; Ok [default]
      | None => Ok []
      end
  | _ :: _ => Ok bases
  end.

(** Lines 230-269 of [RebaseInheritingObject.apply]: the new base list,
    from the current one [bases], [self.removed_bases] and
    [self.added_bases]. *)
Definition reconstruct_bases (s : schema) (default_base_name : option name)
    (bases : list name) (removed : list name) (added : list group)
  : outcome (list name) :=
  bases ← drop_default s default_base_name bases;
  bases ← edit_bases s bases removed added;
  restore_default s default_base_name bases.

(** ** The script of [delta_bases], applied *)

(** [delta_bases] hands the anchor of a group over as the [so.ObjectRef]
    it builds (line 53), and [apply] asks the index for that object as it
    is ([index[ref]], line 257), while the index is keyed by the names of
    the bases (line 246) and every other reference of the script is turned
    into its name first.  What the lookup finds is decided by how an
    [ObjectRef] hashes and compares with a name, which [objects.py], not
    part of the sources, defines: [objref_key ref] is the key of the index
    that the [ObjectRef] carrying the name [ref] is equal to, if there is
    one. *)
Section script.
Variable objref_key : name → option name.

(** Lines 248-262 on the groups of a script of [delta_bases]. *)
Fixpoint splice_ref_groups (s : schema) (existing_bases : gset name)
    (bases : list name) (added_bases : list group) : outcome (list name) :=
  match added_bases with
  | [] => Ok bases
  | (new_bases, pos) :: more =>
      let index := index_of_bases bases in
      idx ← (match pos with
             | NoPosition | LAST => Ok (length bases)
             | FIRST => Ok 0
             | BEFORE ref =>
                 match objref_key ref ≫= (λ key, index !! key) with
                 | Some i => Ok i
                 | None => Raise (KeyError ref)
                 end
             end);
      objs ← mapR (λ b, _ ← get_object s b; Ok b)
                  (filter (λ b, b ∉ existing_bases) new_bases);
      splice_ref_groups s existing_bases
        (take idx bases ++ objs ++ drop idx bases) more
  end.

(** Lines 230-269 on a script of [delta_bases]. *)
Definition apply_script (s : schema) (default_base_name : option name)
    (bases : list name) (removed : list name) (added : list group)
  : outcome (list name) :=
  bases ← drop_default s default_base_name bases;
  let '(bases, existing_bases) :=
    remove_loop (length bases) 0 (list_to_set removed) bases ∅ in
  bases ← splice_ref_groups s existing_bases bases added;
  restore_default s default_base_name bases.

(** The round trip of the edit script: [delta_bases] returns a script and
    [RebaseInheritingObject.apply]'s reconstruction turns [old_bases] into
    [new_bases] with it. *)
Definition roundtrip (s : schema) (default_base_name : option name)
    (old_bases new_bases : list name) : Prop :=
  ∃ removed added,
    delta_bases old_bases new_bases = Ok (removed, added) ∧
    apply_script s default_base_name old_bases removed added = Ok new_bases.
End script.

(** An object is equal to itself only, which is what Python does for a
    class that defines no comparison: no key of the index is equal to an
    [ObjectRef]. *)
Definition by_identity : name → option name := λ _, None.

(** An [ObjectRef] that hashes and compares as the name it carries. *)
Definition by_name : name → option name := Some.

(** ** Field accessors and reference collections *)

(** A reference collection: reference key to referenced object. *)
Abbreviation refcoll := (gmap name name).

(** Modelled from the spec: the field accessors of schema objects
    ([objects.py] is not part of the sources).  A reference collection is an
    immutable value keyed by member name; its [update], [add] and [delete]
    return the schema they were given and a new collection, and a
    collection reaches the schema through [set_field_value] / [update]. *)
Definition get_explicit_field_value (s : schema) (obj attr : name)
  : outcome (option refcoll) :=
  o ← get_object s obj; Ok (refs o !! attr).

Definition get_field_value (s : schema) (obj attr : name) : outcome refcoll :=
  o ← get_object s obj; Ok (default ∅ (refs o !! attr)).

Definition set_field_value (s : schema) (obj attr : name) (coll : refcoll)
  : outcome schema :=
  o ← get_object s obj;
  Ok (<[obj := Object (bases o) (ancestors o) (<[attr := coll]> (refs o))
                      (backrefs o) (declared_inherited o)]> s).

Definition set_bases (s : schema) (obj : name) (bs : list name)
  : outcome schema :=
  o ← get_object s obj;
  Ok (<[obj := Object bs (ancestors o) (refs o) (backrefs o)
                      (declared_inherited o)]> s).

Definition set_ancestors (s : schema) (obj : name) (ancs : list name)
  : outcome schema :=
  o ← get_object s obj;
  Ok (<[obj := Object (bases o) (Some ancs) (refs o) (backrefs o)
                      (declared_inherited o)]> s).

Definition get_ancestors (s : schema) (obj : name)
  : outcome (option (list name)) :=
  o ← get_object s obj; Ok (ancestors o).

(** [pref.get_field_value(schema, backref_attr)]: the owner a referenced
    object points back to, [None] when the field is unset. *)
Definition get_backref (s : schema) (pref backref_attr : name)
  : outcome (option name) :=
  o ← get_object s pref; Ok (backrefs o !! backref_attr).

Definition get_declared_inherited (s : schema) (obj : name) : outcome bool :=
  o ← get_object s obj; Ok (declared_inherited o).

(** The keys of a collection, in its iteration order. *)
Definition coll_keys (coll : refcoll) : list name := (map_to_list coll).*1.

(** ** Collaborators *)

(** The [RefDict] descriptor of one reference collection of a class. *)
Record refdict : Type := RefDict {
  attr : name;
  local_attr : name;
  backref_attr : name;
  requires_explicit_inherit : bool;
}.

(** The [sd.ObjectCommand] sub-operations a command can carry: instances of
    the class's alter command ([alter_cmd]), with the values of their
    [AlterObjectProperty] children, and every other object command. *)
Inductive subcommand : Type :=
  | AlterCommand (classname : name) (properties : list (name * list name))
  | OtherCommand (tag : name) (classname : name).

(** What this code calls and does not define: the schema's descendant
    index, the key function of a collection, the class-level descriptors,
    the command framework, and the referenced class's derivation hooks.
    [inherit_pure] returns [None] for the schema when it returns the very
    schema it was given (the source tests [schema is local_schema]). *)
Class Collaborators : Type := {
  get_descendants : schema → name → list name;
  get_key_for : schema → name → name;
  get_default_base_name : option name;
  get_refdicts : list refdict;
  get_classref_origin : schema → name → name → refdict → outcome name;
  update_fields : schema → name → gmap name (list name) → outcome schema;
  apply_subcommand : schema → subcommand → outcome schema;
  inherit_pure : schema → name → name → outcome (option schema * name);
  derive_from_root :
    schema → name → name → name → list name → outcome (schema * name);
  acquire_ancestor_inheritance : schema → name → list name → outcome schema;
  finalize : schema → name → list name → outcome schema;
  super_delete_innards : schema → name → outcome schema;
}.

(** ** The rebase coordinator: [RebaseInheritingObject.apply] *)

(** The rebase command: its class name, the edit script, the attribute
    values it carries (by property name) and its object sub-commands. *)
Record RebaseInheritingObject : Type := Rebase {
  rebase_classname : name;
  removed_bases : list name;
  added_bases : list group;
  attribute_values : gmap name (list name);
  subcommands : list subcommand;
}.

Definition is_alter_cmd (op : subcommand) : bool :=
  match op with
  | AlterCommand _ _ => true
  | OtherCommand _ _ => false
  end.

(** [if not self.has_attribute_value(p): self.set_attribute_value(p, v)] *)
Definition set_attribute_default (p : name) (v : list name)
    (self : RebaseInheritingObject) : RebaseInheritingObject :=
  match attribute_values self !! p with
  | Some _ => self
  | None =>
      Rebase (rebase_classname self) (removed_bases self) (added_bases self)
             (<[p := v]> (attribute_values self)) (subcommands self)
  end.

(** [self.add(op)] *)
Definition add_subcommand (op : subcommand) (self : RebaseInheritingObject)
  : RebaseInheritingObject :=
  Rebase (rebase_classname self) (removed_bases self) (added_bases self)
         (attribute_values self) (subcommands self ++ [op]).

Section rebase.
Context `{Collaborators}.

(** Lines 206-222: probe every inherited key of the object and of its
    descendants for an origin; a [KeyError] drops the key from the local
    variable [coll], any other error propagates. *)
Definition prune_keys (s : schema) (obj : name) (rd : refdict)
    (coll local_coll : refcoll) : outcome refcoll :=
  foldR (λ coll ref_name,
           match local_coll !! ref_name with
           | Some _ => Ok coll
           | None =>
               match get_classref_origin s obj ref_name rd with
               | Ok _ => Ok coll
               | Raise (KeyError _) => Ok (delete ref_name coll)
               | Raise e => Raise e
               end
           end)
        (coll_keys coll) coll.

Definition prune_stale_refs (s : schema) (scls : name) : outcome schema :=
  let objects := scls :: get_descendants s scls in
  foldR (λ s obj,
           foldR (λ s rd,
                    coll ← get_field_value s obj (attr rd);
                    local_coll ← get_field_value s obj (local_attr rd);
                    _ ← prune_keys s obj rd coll local_coll;
                    Ok s)
                 get_refdicts s)
        objects s.

(** Lines 284-295: one descendant of the cascade. *)
Definition cascade_step (fuel : nat)
    (st : schema * RebaseInheritingObject) (descendant : name)
  : outcome (schema * RebaseInheritingObject) :=
  let '(s, self) := st in
  mro ← compute_mro fuel s descendant;
  let new_ancestors := drop 1 mro in
  s ← set_ancestors s descendant new_ancestors;
  let alter := AlterCommand descendant [("ancestors", new_ancestors)] in
  Ok (s, add_subcommand alter self).

(** Lines 230-297, from the schema the sub-commands left. *)
Definition rebase_bases (fuel : nat) (self : RebaseInheritingObject)
    (s : schema) : outcome (schema * RebaseInheritingObject) :=
  let scls := rebase_classname self in
  bases ← get_bases s scls;
  bases ← reconstruct_bases s get_default_base_name bases
            (removed_bases self) (added_bases self);
  s ← set_bases s scls bases;
  mro ← compute_mro fuel s scls;
  let new_ancestors := drop 1 mro in
  s ← set_ancestors s scls new_ancestors;
  let self1 := set_attribute_default "bases" bases self in
  let self2 := set_attribute_default "ancestors" new_ancestors self1 in
  let descendants := get_descendants s scls in
  match descendants, filter (λ op, is_alter_cmd op = true) (subcommands self) with
  | _ :: _, [] => foldR (cascade_step fuel) descendants (s, self2)
  | _, _ => Ok (s, self2)
  end.

(** [RebaseInheritingObject.apply(schema, context)]; [fuel] is the
    recursion budget of [compute_mro]. *)
Definition apply (fuel : nat) (self : RebaseInheritingObject) (s : schema)
  : outcome (schema * RebaseInheritingObject) :=
  let scls := rebase_classname self in
  _ ← get_object s scls;
  s ← prune_stale_refs s scls;
  s ← update_fields s scls (attribute_values self);
  s ← foldR apply_subcommand (subcommands self) s;
  rebase_bases fuel self s.
End rebase.

(** ** The reference merge engine: [merge_classref_dict] *)

(** The delta context [dctx], when one is given. *)
Record delta_context : Type := DeltaContext { declarative : bool }.

(** The calls the merge makes to its collaborators, in order.  The list is
    threaded next to the schema so that the branch taken for each key can
    be observed. *)
Inductive call : Type :=
  | CallAcquire (local : name) (inherited : list name)
  | CallFinalize (local : name) (inherited : list name)
  | CallDeriveFromRoot (cls source key : name) (merge_bases : list name)
  | CallInheritPure (item source : name).

(** The local variables the loop over [classref_keys] carries. *)
Record merge_state : Type := MergeState {
  st_schema : schema;
  st_classrefs : refcoll;
  st_local_classrefs : refcoll;
  st_calls : list call;
}.

(** Assignment [d[k] = v] in a Python dict: a present key keeps its place
    and takes the new value, a new key goes last. *)
Fixpoint dict_set {K V} `{EqDecision K} (k : K) (v : V) (d : list (K * V))
  : list (K * V) :=
  match d with
  | [] => [(k, v)]
  | (k', v') :: d' =>
      if decide (k' = k) then (k, v) :: d' else (k', v') :: dict_set k v d'
  end.

(** [{k: v for k, v in items}] *)
Definition dict_of {K V} `{EqDecision K} (items : list (K * V))
  : list (K * V) :=
  foldl (λ d kv, dict_set kv.1 kv.2 d) [] items.

Section merge.
Context `{Collaborators}.

(** [inherited = []; for b in bases: ...] for one key. *)
Definition collect_inherited (s : schema) (bases : list name)
    (attr classref_key : name) : outcome (list name) :=
  foldR (λ inherited b,
           attrval ← get_explicit_field_value s b attr;
           match attrval with
           | None => Ok inherited
           | Some attrval =>
               if decide (attrval = ∅) then Ok inherited
               else match attrval !! classref_key with
                    | Some bref => Ok (inherited ++ [bref])
                    | None => Ok inherited
                    end
           end)
        bases [].

(** [ancestry = {pref.get_field_value(schema, backref_attr): pref
                 for pref in inherited}] *)
Definition ancestry_of (s : schema) (backref_attr : name)
    (inherited : list name) : outcome (list (option name * name)) :=
  items ← mapR (λ pref, o ← get_backref s pref backref_attr; Ok (o, pref))
               inherited;
  Ok (dict_of items).

(** The body of [for classref_key in classref_keys].  The delta that the
    source records in [dctx] for a non-pure result is an effect on the
    delta context only and is not represented. *)
Definition merge_key (self : name) (bases : list name)
    (attr backref_attr : name) (requires_explicit_inherit : bool)
    (dctx : option delta_context)
    (st : merge_state) (classref_key : name) : outcome merge_state :=
  let schema := st_schema st in
  let local := st_local_classrefs st !! classref_key in
  let local_schema := schema in
  inherited ← collect_inherited schema bases attr classref_key;
  ancestry ← ancestry_of schema backref_attr inherited;
  let inherited := ancestry.*2 in
  match inherited, local with
  | [], None => Ok st
  | _, _ =>
      match
        (match local, inherited with
         | Some l, _ :: _ =>
             schema ← acquire_ancestor_inheritance schema l inherited;
             schema ← finalize schema l inherited;
             Ok (schema, Some l, false,
                 [CallAcquire l inherited; CallFinalize l inherited])
         | _, i0 :: _ :: _ =>
             '(schema, merged) ←
               derive_from_root schema i0 self classref_key inherited;
             Ok (schema, Some merged, false,
                 [CallDeriveFromRoot i0 self classref_key inherited])
         | _, [item] =>
             (* Pure inheritance *)
             '(changed, merged) ← inherit_pure schema item self;
             Ok (default schema changed, Some merged,
                 bool_decide (changed = None),
                 [CallInheritPure item self])
         | _, [] =>
             (* Not inherited *)
             Ok (schema, local, false, [])
         end)
      with
      | Raise e => Raise e
      | Ok (schema, merged, pure_inheritance, log) =>
          _ ← (match local, inherited with
               | Some l, _ :: _ =>
                   if negb pure_inheritance && requires_explicit_inherit then
                     declared ← get_declared_inherited local_schema l;
                     match dctx with
                     | Some ctx =>
                         if negb declared && declarative ctx then
                           Raise (SchemaDefinitionError self l ancestry.*1)
                         else Ok ()
                     | None => Ok ()
                     end
                   else Ok ()
               | _, _ => Ok ()
               end);
          _ ← (match inherited with
               | [] =>
                   match local with
                   | Some l =>
                       declared ← get_declared_inherited local_schema l;
                       if (declared : bool) then Raise (NothingToInheritError self l)
                       else Ok ()
                   | None => Raise AttributeError
                   end
               | _ :: _ => Ok ()
               end);
          match inherited, merged with
          | _ :: _, Some merged =>
              let local_classrefs :=
                if pure_inheritance then st_local_classrefs st
                else <[get_key_for schema merged := merged]>
                       (st_local_classrefs st) in
              Ok (MergeState schema
                    (<[get_key_for schema merged := merged]> (st_classrefs st))
                    local_classrefs (st_calls st ++ log))
          | _ :: _, None => Raise AttributeError
          | [], _ =>
              Ok (MergeState schema (st_classrefs st) (st_local_classrefs st)
                    (st_calls st ++ log))
          end
      end
  end.

(** [merge_classref_dict]: the new schema, and the collaborator calls
    that were made on the way. *)
Definition merge_classref_dict (s : schema) (self : name)
    (bases : list name) (attr local_attr backref_attr : name)
    (classref_keys : option (list name))
    (requires_explicit_inherit : bool) (dctx : option delta_context)
  : outcome (schema * list call) :=
  classrefs ← get_explicit_field_value s self attr;
  let classrefs := default ∅ classrefs in
  local_classrefs ← get_explicit_field_value s self local_attr;
  let local_classrefs := default ∅ local_classrefs in
  let classref_keys := default (coll_keys classrefs) classref_keys in
  st ← foldR (merge_key self bases attr backref_attr
                requires_explicit_inherit dctx)
             classref_keys (MergeState s classrefs local_classrefs []);
  s ← set_field_value (st_schema st) self attr (st_classrefs st);
  s ← set_field_value s self local_attr (st_local_classrefs st);
  Ok (s, st_calls st).
End merge.

(** ** The referenced-object propagator: deletion *)

(** Modelled from the spec: [Object.del_classref], the method
    [InheritingObject.del_classref] reaches through [super()] and that is
    not part of the sources; it removes the key outright from the owner's
    local and full collections. *)
Definition Object_del_classref (s : schema) (self : name) (rd : refdict)
    (key : name) : outcome schema :=
  local_coll ← get_field_value s self (local_attr rd);
  all_coll ← get_field_value s self (attr rd);
  s ← (match local_coll !! key with
       | Some _ => set_field_value s self (local_attr rd) (delete key local_coll)
       | None => Ok s
       end);
  match all_coll !! key with
  | Some _ => set_field_value s self (attr rd) (delete key all_coll)
  | None => Ok s
  end.

Section delete.
Context `{Collaborators}.

(** [for base in bases: ...; if inherited is not None: break]: the value
    [inherited] is left with, [None] inside [Ok] when no base has the key;
    it stays unbound when there is no base at all. *)
Fixpoint find_inherited (s : schema) (bases : list name) (attr key : name)
    (inherited : outcome (option name)) : outcome (option name) :=
  match bases with
  | [] => inherited
  | base :: rest =>
      base_coll ← get_field_value s base attr;
      match base_coll !! key with
      | Some i => Ok (Some i)
      | None => find_inherited s rest attr key (Ok None)
      end
  end.

(** The loop both [del_classref] and [_delete_innards] run over the
    descendants: delete the key from the full collection of every
    descendant that does not define it locally. *)
Definition drop_from_descendants (s : schema) (descendants : list name)
    (rd : refdict) (key : name) : outcome schema :=
  foldR (λ s descendant,
           descendant_local_coll ← get_field_value s descendant (local_attr rd);
           match descendant_local_coll !! key with
           | Some _ => Ok s
           | None =>
               descendant_coll ← get_field_value s descendant (attr rd);
               set_field_value s descendant (attr rd)
                 (delete key descendant_coll)
           end)
        descendants s.

(** [InheritingObject.del_classref(schema, collection, key)], with the
    descriptor [rd] of [collection]. *)
Definition del_classref (s : schema) (self : name) (rd : refdict)
    (key : name) : outcome schema :=
  bs ← get_bases s self;
  inherited ← find_inherited s bs (attr rd) key
                (Raise (UnboundLocalError "inherited"));
  s ← (match inherited with
       | Some _ => drop_from_descendants s (get_descendants s self) rd key
       | None => Ok s
       end);
  s ← Object_del_classref s self rd key;
  match inherited with
  | Some inherited =>
      all_coll ← get_field_value s self (attr rd);
      set_field_value s self (attr rd)
        (<[get_key_for s inherited := inherited]> all_coll)
  | None => Ok s
  end.

(** [ReferencedObjectCommand._delete_innards(schema, context, scls)];
    [referrer] is the object of the referrer context, when there is one,
    and [rd] the descriptor of the collection that holds [scls]. *)
Definition _delete_innards (s : schema) (scls : name)
    (referrer : option name) (rd : refdict) : outcome schema :=
  s ← super_delete_innards s scls;
  match referrer with
  | None => Ok s
  | Some referrer =>
      let refname := get_key_for s scls in
      s ← del_classref s referrer rd refname;
      drop_from_descendants s (get_descendants s referrer) rd refname
  end.
End delete.

(** ** A concrete set of collaborators *)

(** Modelled from the spec: [Schema.get_descendants], which is not part of
    the sources: every object that reaches [obj] through [bases],
    transitively. *)
Definition get_children (s : schema) (obj : name) : list name :=
  filter (λ n, obj ∈ default [] (bases <$> s !! n)) (elements (dom s)).

Fixpoint descendants_upto (fuel : nat) (s : schema) (obj : name) : list name :=
  match fuel with
  | 0 => []
  | S fuel' =>
      let cs := get_children s obj in
      cs ++ concat (descendants_upto fuel' s <$> cs)
  end.

Definition schema_descendants (s : schema) (obj : name) : list name :=
  remove_dups (descendants_upto (size s) s obj).

(** An alter sub-command sets the attribute values it carries; of the
    attributes only ['bases'] and ['ancestors'] are fields of the model. *)
Definition set_property (obj : name) (s : schema) (p : name * list name)
  : outcome schema :=
  if decide (p.1 = "bases") then set_bases s obj p.2
  else if decide (p.1 = "ancestors") then set_ancestors s obj p.2
  else Ok s.

(** Collaborators for the examples: the key of a referenced object is given
    by [key_for]; the referenced class shares on pure inheritance; a
    synthesized member is named after its source and key; the hooks whose
    effect lies outside the modelled fields leave the schema as it is. *)
Definition simple_collaborators (key_for : name → name)
    (default_base : option name) (rds : list refdict) : Collaborators := {|
  get_descendants := schema_descendants;
  get_key_for := λ _ n, key_for n;
  get_default_base_name := default_base;
  get_refdicts := rds;
  get_classref_origin := λ s obj ref_name rd,
    coll ← get_field_value s obj (attr rd);
    match coll !! ref_name with
    | Some m =>
        o ← get_backref s m (backref_attr rd);
        match o with Some owner => Ok owner | None => Raise (KeyError ref_name) end
    | None => Raise (KeyError ref_name)
    end;
  update_fields := λ s obj values, foldR (set_property obj) (map_to_list values) s;
  apply_subcommand := λ s op,
    match op with
    | AlterCommand classname properties => foldR (set_property classname) properties s
    | OtherCommand _ _ => Ok s
    end;
  inherit_pure := λ s item source, Ok (None, item);
  derive_from_root := λ s cls source key merge_bases,
    let merged := source +:+ "." +:+ key in
    Ok (<[merged := Object merge_bases None ∅ ∅ true]> s, merged);
  acquire_ancestor_inheritance := λ s l inherited, Ok s;
  finalize := λ s l inherited, set_bases s l inherited;
  super_delete_innards := λ s scls, Ok s;
|}.

(** ** Specification vocabulary *)

(** [x] occurs before [y] in [l]. *)
Definition before (x y : name) (l : list name) : Prop :=
  ∃ a b c, l = a ++ x :: b ++ y :: c.

(** No head of a non-empty list is free of every tail. *)
Definition stuck (mros : list (list name)) : Prop :=
  let nonempty := filter (λ mro, mro ≠ []) mros in
  nonempty ≠ [] ∧
  ∀ mro, mro ∈ nonempty →
    ∃ c m, head mro = Some c ∧ m ∈ nonempty ∧ c ∈ tail m.

(** What the loop keeps true of the groups it has emitted and of the run it
    is buffering: every name comes from the new list, and every anchor is
    [BEFORE] a common base that the new list holds too. *)
Definition walk_inv (common N : list name) (st : walk_state) : Prop :=
  (∀ g, g ∈ walk_added_bases st →
        (∀ b, b ∈ g.1 → b ∈ N) ∧ ∃ c, g.2 = BEFORE c ∧ c ∈ common ∧ c ∈ N) ∧
  (∀ b, b ∈ added_base_refs st → b ∈ N).

(** No two neighbours of [l] are both in [R]. *)
Fixpoint no_adjacent (R : gset name) (l : list name) : Prop :=
  match l with
  | a :: l' =>
      match l' with
      | b :: _ => (a ∉ R ∨ b ∉ R) ∧ no_adjacent R l'
      | [] => True
      end
  | [] => True
  end.

(** The state of the walk after the prefix [placed ++ added_base_refs st]
    of [new_bases]: the groups emitted so far turn [common] into [placed]
    followed by the common bases still to come. *)
Definition walk_ok (s : schema) (E : gset name) (common new_bases : list name)
    (st : walk_state) (placed rest : list name) : Prop :=
  placed ++ added_base_refs st ++ rest = new_bases ∧
  splice_groups s E common (walk_added_bases st)
    = Ok (placed ++ drop (j st) common) ∧
  filter (λ b, b ∈ common) rest = drop (j st) common ∧
  (∀ b, b ∈ added_base_refs st → b ∉ common) ∧
  (∀ b, b ∈ placed ++ added_base_refs st → b ∈ common ∨ b ∈ added_set st) ∧
  (∀ b, b ∈ added_set st → b ∈ placed ++ added_base_refs st).

(** Two schemas with the same objects and the same base lists. *)
Definition same_hierarchy (s1 s2 : schema) : Prop :=
  ∀ n, bases <$> s1 !! n = bases <$> s2 !! n.

(** The cached [ancestors] of [obj] is its linearization without [obj]. *)
Definition fresh_ancestors (fuel : nat) (s : schema) (obj : name) : Prop :=
  ∃ mro, compute_mro fuel s obj = Ok mro ∧
         get_ancestors s obj = Ok (Some (drop 1 mro)).

(** The members have pairwise distinct owners (back-references). *)
Definition distinct_owners (s : schema) (backref_attr : name)
    (members : list name) : Prop :=
  ∃ owners, mapR (λ m, get_backref s m backref_attr) members = Ok owners ∧
            NoDup owners.

(** The full collection of [obj] for [attr] has no entry for [key]. *)
Definition lacks (s : schema) (obj attr key : name) : Prop :=
  ∃ c, get_field_value s obj attr = Ok c ∧ c !! key = None.

(** ** Example schemas *)

(** An object with the given bases and nothing else set. *)
Definition plain (bs : list name) : object := Object bs None ∅ ∅ false.

(** An object with bases and cached ancestors. *)
Definition cached (bs ancs : list name) : object :=
  Object bs (Some ancs) ∅ ∅ false.

(** [D(B1, B2)], [B1(X, Y)], [B2(Y, X)]: the two bases order [X] and [Y]
    oppositely. *)
Definition conflict_schema : schema :=
  list_to_map
    [("X", plain []); ("Y", plain []);
     ("B1", plain ["X"; "Y"]); ("B2", plain ["Y"; "X"]);
     ("D", plain ["B1"; "B2"])].

(** A schema of unrelated objects. *)
Definition flat_schema : schema :=
  list_to_map
    ((λ n, (n, plain [])) <$> ["A"; "B"; "C"; "D"; "E"; "Object"]).

(** [P(G)] with the children [D1(P)] and [D2(P)], and an unrelated [H]. *)
Definition family_schema : schema :=
  list_to_map
    [("G", cached [] []); ("H", cached [] []);
     ("P", cached ["G"] ["G"]);
     ("D1", cached ["P"] ["P"; "G"]); ("D2", cached ["P"] ["P"; "G"])].

(** Rebase [P] from [G] to [H]; [ops] are the sub-commands it carries. *)
Definition rebase_P (ops : list subcommand) : RebaseInheritingObject :=
  Rebase "P" ["G"] [(["H"], LAST)] ∅ ops.

(** The sub-command the caller supplies for [D1] in the examples. *)
Definition alter_D1 : subcommand :=
  AlterCommand "D1" [("ancestors", ["P"; "H"])].

(** Collaborators of the examples on hierarchies: no reference
    collections, no default base. *)
Definition plain_collaborators : Collaborators :=
  simple_collaborators (λ n, n) None [].

(** The part of a member name after its first dot: [short_name "A.m"] is
    ["m"]; a name without a dot is its own short name. *)
Fixpoint after_dot (n : string) : string :=
  match n with
  | EmptyString => EmptyString
  | String c rest =>
      if decide (String c EmptyString = ".") then rest else after_dot rest
  end.

Definition short_name (n : name) : name :=
  match after_dot n with
  | EmptyString => n
  | r => r
  end.

(** The reference collection of the examples: pointers, keyed by short
    name, whose members point back to their owner through [source], and for
    which an explicit [inherited] declaration is required. *)
Definition pointers : refdict := RefDict "pointers" "own_pointers" "source" true.

Definition ref_collaborators : Collaborators :=
  simple_collaborators short_name None [pointers].

(** A member owned by [owner]; [inh] is its "declared inherited" flag. *)
Definition member (owner : name) (inh : bool) : object :=
  Object [] None ∅ {["source" := owner]} inh.

(** An entity with bases, a full and a local pointer collection. *)
Definition entity (bs : list name) (full own : gmap name name) : object :=
  Object bs None {["pointers" := full; "own_pointers" := own]} ∅ false.

(** [D(B1, B2)], [B1(A)], [B2(A)]; [A] defines [m], the others inherit it. *)
Definition diamond_schema : schema :=
  list_to_map
    [("A.m", member "A" false);
     ("A", entity [] {["m" := "A.m"]} {["m" := "A.m"]});
     ("B1", entity ["A"] {["m" := "A.m"]} ∅);
     ("B2", entity ["A"] {["m" := "A.m"]} ∅);
     ("D", entity ["B1"; "B2"] {["m" := "A.m"]} ∅)].

(** [D(B1, B2)] where [B1] and [B2] each define their own [m]. *)
Definition fork_schema : schema :=
  list_to_map
    [("B1.m", member "B1" false); ("B2.m", member "B2" false);
     ("B1", entity [] {["m" := "B1.m"]} {["m" := "B1.m"]});
     ("B2", entity [] {["m" := "B2.m"]} {["m" := "B2.m"]});
     ("D", entity ["B1"; "B2"] ∅ ∅)].

(** [D(A)] where [D] defines its own [m] next to the [m] of [A]; [inh] is
    whether [D.m] was declared [inherited]. *)
Definition override_schema (inh : bool) : schema :=
  list_to_map
    [("A.m", member "A" false); ("D.m", member "D" inh);
     ("A", entity [] {["m" := "A.m"]} {["m" := "A.m"]});
     ("D", entity ["A"] {["m" := "D.m"]} {["m" := "D.m"]})].

(** [G] defines [m]; [M(G)] inherits it; [P(M)] defines its own [m], which
    [C(P)] inherits. *)
Definition chain_schema : schema :=
  list_to_map
    [("G.m", member "G" false); ("P.m", member "P" true);
     ("G", entity [] {["m" := "G.m"]} {["m" := "G.m"]});
     ("M", entity ["G"] {["m" := "G.m"]} ∅);
     ("P", entity ["M"] {["m" := "P.m"]} {["m" := "P.m"]});
     ("C", entity ["P"] {["m" := "P.m"]} ∅)].

(** ** Queries on the linearization *)

(** [InheritingObject._issubclass(schema, parent)]: whether [parent] is in
    the linearization of [self]. *)
Definition _issubclass (fuel : nat) (s : schema) (self parent : name)
  : outcome bool :=
  mro ← compute_mro fuel s self;
  Ok (bool_decide (parent ∈ mro)).

(** What [get_topmost_concrete_base] ends with: the ancestor it returns, the
    [SchemaError] "<obj> has no non-abstract ancestors", or the error of
    [compute_mro]. *)
Inductive topmost : Type :=
  | Topmost (ancestor : name)
  | NoConcreteAncestor (obj : name)
  | MroFailed (e : error).

(** [for ancestor in reversed(mro): if not ancestor.get_is_abstract(schema):
     return ancestor] *)
Fixpoint first_concrete (is_abstract : name → bool) (reversed_mro : list name)
  : option name :=
  match reversed_mro with
  | [] => None
  | ancestor :: more =>
      if is_abstract ancestor then first_concrete is_abstract more
      else Some ancestor
  end.

(** [InheritingObject.get_topmost_concrete_base(schema)]; [is_abstract] is
    the value of the field [is_abstract] of each object of the schema. *)
Definition get_topmost_concrete_base (fuel : nat) (is_abstract : name → bool)
    (s : schema) (self : name) : topmost :=
  match compute_mro fuel s self with
  | Raise e => MroFailed e
  | Ok mro =>
      match first_concrete is_abstract (reverse mro) with
      | Some ancestor => Topmost ancestor
      | None => NoConcreteAncestor self
      end
  end.

(** ** Frame conditions *)

(** Two states of an object that differ at most in the cached
    [ancestors]. *)
Definition same_but_ancestors (o o' : object) : Prop :=
  bases o' = bases o ∧ refs o' = refs o ∧ backrefs o' = backrefs o ∧
  declared_inherited o' = declared_inherited o.

(** Two states of an object that differ at most in [bases] and in the
    cached [ancestors]. *)
Definition same_references (o o' : object) : Prop :=
  refs o' = refs o ∧ backrefs o' = backrefs o ∧
  declared_inherited o' = declared_inherited o.

(** ** Further example schemas *)

(** [P(G)] where [P] defines a member [m] that [G] does not have, and
    [C(P)] inherits it. *)
Definition own_member_schema : schema :=
  list_to_map
    [("P.m", member "P" false);
     ("G", entity [] ∅ ∅);
     ("P", entity ["G"] {["m" := "P.m"]} {["m" := "P.m"]});
     ("C", entity ["P"] {["m" := "P.m"]} ∅)].

(** ** The referenced-object propagator: creation *)

(** [self.scls.set_field_value(schema, refdict.backref_attr, referrer)]:
    the back-reference field of a referenced object. *)
Definition set_backref (s : schema) (obj backref_attr referrer : name)
  : outcome schema :=
  o ← get_object s obj;
  Ok (<[obj := Object (bases o) (ancestors o) (refs o)
                      (<[backref_attr := referrer]> (backrefs o))
                      (declared_inherited o)]> s).

(** Modelled from the spec: [Object.add_classref], which
    [InheritingObject] inherits and which is not part of the sources; it
    files the member, under its key, in the owner's full and local
    collections. *)
Definition Object_add_classref `{Collaborators} (s : schema) (self : name)
    (rd : refdict) (obj : name) : outcome schema :=
  local_coll ← get_field_value s self (local_attr rd);
  all_coll ← get_field_value s self (attr rd);
  s ← set_field_value s self (local_attr rd)
        (<[get_key_for s obj := obj]> local_coll);
  set_field_value s self (attr rd) (<[get_key_for s obj := obj]> all_coll).

Section create.
Context `{Collaborators}.

(** [super()._create_innards(schema, context)], which the command
    framework defines. *)
Variable super_create_innards : schema → name → outcome schema.

(** The loop of [_create_innards] over the descendants of the referrer:
    the new object goes into the full collection of every descendant whose
    local collection has no entry under [refname]. *)
Definition add_to_descendants (s : schema) (descendants : list name)
    (rd : refdict) (refname scls : name) : outcome schema :=
  foldR (λ s child,
           child_local_coll ← get_field_value s child (local_attr rd);
           child_coll ← get_field_value s child (attr rd);
           match child_local_coll !! refname with
           | Some _ => Ok s
           | None =>
               set_field_value s child (attr rd)
                 (<[get_key_for s scls := scls]> child_coll)
           end)
        descendants s.

(** [ReferencedObjectCommand._create_innards(schema, context)]; [scls] is
    the object being created, [referrer] the object of the referrer
    context, when there is one, and [rd] the descriptor of the collection
    that is to hold [scls].  A descriptor without a back-reference
    attribute has the empty name for it. *)
Definition _create_innards (s : schema) (scls : name)
    (referrer : option name) (rd : refdict) : outcome schema :=
  s ← super_create_innards s scls;
  match referrer with
  | None => Ok s
  | Some referrer =>
      if decide (backref_attr rd = "") then Ok s
      else
        (* Set the back-reference on referenced object to the referrer. *)
        s ← set_backref s scls (backref_attr rd) referrer;
        s ← Object_add_classref s referrer rd scls;
        let refname := get_key_for s scls in
        add_to_descendants s (get_descendants s referrer) rd refname scls
  end.
End create.

(** [P(G)] with the descendants [C(P)], which has no member of its own, and
    [O(P)], which defines its own [m]; [P.m] has just been created. *)
Definition create_schema : schema :=
  list_to_map
    [("P.m", Object [] None ∅ ∅ false); ("O.m", member "O" false);
     ("G", entity [] ∅ ∅);
     ("P", entity ["G"] ∅ ∅);
     ("C", entity ["P"] ∅ ∅);
     ("O", entity ["P"] {["m" := "O.m"]} {["m" := "O.m"]})].

(** ** Creation of an inheriting object *)

(** The class-level constants of a schema class: [get_root_classes()] and
    [get_default_base_name()]. *)
Record schema_class : Type := SchemaClass {
  root_classes : list name;
  default_base_name : option name;
}.

(** [InheritingObject.get_root_classes] and
    [InheritingObject.get_default_base_name]. *)
Definition InheritingObject_class : schema_class := SchemaClass [] None.

(** [ObjectType.get_root_classes] and [ObjectType.get_default_base_name];
    the qualified name [std::Object] is module [std], name [Object]. *)
Definition ObjectType_class : schema_class :=
  SchemaClass ["std::BaseObject"; "std::Object"] (Some "std::Object").

(** What [_validate_base_refs] ends with: the base list, the [SchemaError]
    "<base> cannot be a parent type", or the error of resolving a
    reference. *)
Inductive validated : Type :=
  | ValidBases (bases : list name)
  | CannotBeParentType (base : name)
  | Unresolved (e : error).

(** [CreateInheritingObject._validate_base_refs]; [classname] is what
    [_classname_from_ast] returns, and [contains_any b] is
    [b.is_type() and b.contains_any(schema)]. *)
Definition _validate_base_refs (cls : schema_class)
    (contains_any : name → bool) (s : schema) (classname : name)
    (base_refs : list name) : validated :=
  match mapR (get_object s) base_refs with
  | Raise e => Unresolved e
  | Ok _ =>
      match filter (λ base, contains_any base = true) base_refs with
      | base :: _ => CannotBeParentType base
      | [] =>
          match base_refs with
          | _ :: _ => ValidBases base_refs
          | [] =>
              if decide (classname ∈ root_classes cls) then ValidBases []
              else
                match default_base_name cls with
                | Some default_base =>
                    if decide (classname = default_base) then ValidBases []
                    else
                      match get_object s default_base with
                      | Ok _ => ValidBases [default_base]
                      | Raise e => Unresolved e
                      end
                | None => ValidBases []
                end
          end
      end
  end.

Section create_inheriting.
(** [super()._create_begin(schema, context)], which the command framework
    defines: it creates the object and binds [self.scls]. *)
Variable super_create_begin : schema → outcome (schema * name).

(** [CreateInheritingObject._create_begin(schema, context)]: the schema,
    the created object and the attribute values of the command, given the
    attribute values [attrs] it carries. *)
Definition _create_begin (fuel : nat) (attrs : gmap name (list name))
    (s : schema) : outcome (schema * name * gmap name (list name)) :=
  match super_create_begin s with
  | Raise e => Raise e
  | Ok (s, scls) =>
      ancestors ← get_ancestors s scls;
      match ancestors with
      | Some _ => Ok (s, scls, attrs)
      | None =>
          o ← get_object s scls;
          match bases o with
          | [] => Ok (s, scls, attrs)
          | _ :: _ =>
              mro ← compute_mro fuel s scls;
              let ancestors := drop 1 mro in
              s ← set_ancestors s scls ancestors;
              Ok (s, scls,
                  match attrs !! "ancestors" with
                  | Some _ => attrs
                  | None => <["ancestors" := ancestors]> attrs
                  end)
          end
      end
  end.
End create_inheriting.

(** The schema of the standard object types with one user type being
    created. *)
Definition std_schema : schema :=
  list_to_map
    [("std::BaseObject", plain []); ("std::Object", plain ["std::BaseObject"]);
     ("default::User", plain ["std::Object"])].

(** ** Inheritance of reference collections: [InheritingObject.merge] *)

(** [coll.update(schema, members)] and [type(coll).create(schema, members)]
    on the empty collection: every member is filed under its key. *)
Definition coll_update `{Collaborators} (s : schema) (coll : refcoll)
    (members : list name) : refcoll :=
  foldl (λ c v, <[get_key_for s v := v]> c) coll members.

(** [{v for k, v in coll.items(schema) if keep(k)}]; the members are
    listed in the iteration order of the collection, which is immaterial
    when they are filed under distinct keys. *)
Definition coll_values_where (keep : name → Prop) `{∀ k, Decision (keep k)}
    (coll : refcoll) : list name :=
  (filter (λ kv, keep kv.1) (map_to_list coll)).*2.

Section inheriting_merge.
Context `{Collaborators}.

(** [super().merge] on the same objects, which the sources do
    not hold. *)
Variable super_merge : schema → name → list name → outcome schema.

(** [refdict.non_inheritable_attr], when the descriptor has one. *)
Variable non_inheritable_attr : refdict → option name.

(** The body of the two loops of [merge], for one [obj] and one
    [refdict]. *)
Definition merge_refdict (self obj : name) (s : schema) (rd : refdict)
  : outcome schema :=
  this_coll ← get_explicit_field_value s self (attr rd);
  other_coll ← get_explicit_field_value s obj (attr rd);
  match other_coll with
  | None => Ok s
  | Some other_coll =>
      match
        (match non_inheritable_attr rd with
         | Some nia =>
             non_inh_coll ← get_explicit_field_value s obj nia;
             match non_inh_coll with
             | Some non_inh_coll =>
                 if decide (non_inh_coll = ∅) then Ok other_coll
                 else
                   Ok (coll_update s ∅
                         (coll_values_where (λ k, non_inh_coll !! k = None)
                            other_coll))
             | None => Ok other_coll
             end
         | None => Ok other_coll
         end)
      with
      | Raise e => Raise e
      | Ok other_coll =>
          if decide (other_coll = ∅) then Ok s
          else
            match this_coll with
            | None => set_field_value s self (attr rd) other_coll
            | Some this_coll =>
                let updates :=
                  coll_values_where (λ k, this_coll !! k = None) other_coll in
                set_field_value s self (attr rd)
                  (coll_update s this_coll updates)
            end
      end
  end.

(** [InheritingObject.merge]; [objs] are the positional arguments *)
Definition InheritingObject_merge (s : schema) (self : name)
    (objs : list name) : outcome schema :=
  s ← super_merge s self objs;
  foldR (λ s obj, foldR (merge_refdict self obj) get_refdicts s) objs s.

(** What [obj] passes on for the collection [rd]: its collection without
    the keys of its non-inheritable collection. *)
Definition inheritable (s : schema) (obj : name) (rd : refdict) : refcoll :=
  match s !! obj with
  | Some o =>
      let non_inh :=
        match non_inheritable_attr rd with
        | Some nia => default ∅ (refs o !! nia)
        | None => ∅
        end in
      filter (λ kv, non_inh !! kv.1 = None) (default ∅ (refs o !! attr rd))
  | None => ∅
  end.
End inheriting_merge.

(** Every member of the collection is filed under its own key. *)
Definition keyed `{Collaborators} (coll : refcoll) : Prop :=
  ∀ s k v, coll !! k = Some v → get_key_for s v = k.

(** [C(A, B)]: [A] and [B] both have [m], only [B] has [n], and [C] has a
    [p] of its own. *)
Definition merge_schema : schema :=
  list_to_map
    [("A.m", member "A" false); ("B.m", member "B" false);
     ("B.n", member "B" false); ("C.p", member "C" false);
     ("A", entity [] {["m" := "A.m"]} {["m" := "A.m"]});
     ("B", entity [] {["m" := "B.m"; "n" := "B.n"]}
                     {["m" := "B.m"; "n" := "B.n"]});
     ("C", entity ["A"; "B"] {["p" := "C.p"]} {["p" := "C.p"]})].

(** ** Object types: [ObjectType._issubclass] *)

(** The fields of an object type that [ObjectType._issubclass] reads next
    to its cached ancestors: the components of a union type, those of an
    intersection type, and whether a union is opaque. *)
Record type_shape : Type := TypeShape {
  union_of : list name;
  intersection_of : list name;
  is_opaque_union : bool;
}.

(** A type that is neither a union nor an intersection. *)
Definition plain_shape : type_shape := TypeShape [] [] false.

(** [all(f(t) for t in ts)]: left to right, stopping at the first [False]
    or at the first error. *)
Fixpoint allR {A} (f : A → outcome bool) (ts : list A) : outcome bool :=
  match ts with
  | [] => Ok true
  | t :: ts' => b ← f t; if (b : bool) then allR f ts' else Ok false
  end.

(** [any(f(t) for t in ts)]: left to right, stopping at the first [True]
    or at the first error. *)
Fixpoint anyR {A} (f : A → outcome bool) (ts : list A) : outcome bool :=
  match ts with
  | [] => Ok false
  | t :: ts' => b ← f t; if (b : bool) then Ok true else anyR f ts'
  end.

Section objtypes.
(** The shape of every object type, and [isinstance(t, ObjectType)].
    The components of a union or intersection of object types are object
    types. *)
Variable shape : name → type_shape.
Variable is_object_type : name → bool.

(** [self.get_ancestors(schema).objects(schema)]: the cached ancestors,
    each resolved in the schema; an object without cached ancestors has
    [None] there. *)
Definition lineage_of (s : schema) (self : name) : outcome (list name) :=
  ancestors ← get_ancestors s self;
  match ancestors with
  | None => Raise AttributeError
  | Some ancestors => _ ← mapR (get_object s) ancestors; Ok ancestors
  end.

(** [ObjectType._issubclass(self, schema, parent)]; [fuel] bounds the depth
    of the recursion through the components. *)
Fixpoint ObjectType__issubclass (fuel : nat) (s : schema) (self parent : name)
  : outcome bool :=
  match fuel with
  | 0 => Raise RecursionError
  | S fuel' =>
      if decide (self = parent) then Ok true
      else
        match union_of (shape self), is_opaque_union (shape self) with
        | _ :: _, false =>
            (* A union is considered a subclass of a type, if ALL its
               components are subclasses of that type. *)
            allR (λ t, ObjectType__issubclass fuel' s t parent)
                 (union_of (shape self))
        | _, _ =>
            match intersection_of (shape self) with
            | _ :: _ =>
                (* An intersection is considered a subclass of a type, if
                   ANY of its components are subclasses of that type. *)
                anyR (λ t, ObjectType__issubclass fuel' s t parent)
                     (intersection_of (shape self))
            | [] =>
                lineage ← lineage_of s self;
                if decide (parent ∈ lineage) then Ok true
                else if is_object_type parent then
                  match union_of (shape parent) with
                  | _ :: _ =>
                      (* A type is considered a subclass of a union type,
                         if it is a subclass of ANY of the union
                         components. *)
                      if is_opaque_union (shape parent) then Ok true
                      else anyR (λ t, ObjectType__issubclass fuel' s self t)
                                (union_of (shape parent))
                  | [] =>
                      match intersection_of (shape parent) with
                      | _ :: _ =>
                          (* A type is considered a subclass of an
                             intersection type, if it is a subclass of ALL
                             of the intersection components. *)
                          allR (λ t, ObjectType__issubclass fuel' s self t)
                               (intersection_of (shape parent))
                      | [] => Ok false
                      end
                  end
                else Ok false
        end
        end
  end.
End objtypes.

(** The shapes of the example: the union type [D1|D2] of two plain
    types. *)
Definition union_shape (t : name) : type_shape :=
  if decide (t = "D1|D2") then TypeShape ["D1"; "D2"] [] false
  else plain_shape.

(** ** [InheritingObject.issubclass] *)

(** The [parent] argument of [issubclass]: one object, or a tuple of
    such arguments. *)
#[warning="-register-all"]
Inductive parent_arg : Type :=
  | Parent (p : name)
  | Parents (ps : list parent_arg).

(** [InheritingObject.issubclass(schema, parent)]; [is_any p] is
    [p.is_type() and p.is_any()], and [fuel] the recursion budget of the
    linearization. *)
Fixpoint issubclass (fuel : nat) (is_any : name → bool) (s : schema)
    (self : name) (parent : parent_arg) : outcome bool :=
  match parent with
  | Parents ps => anyR (issubclass fuel is_any s self) ps
  | Parent p =>
      if is_any p then Ok true else _issubclass fuel s self p
  end.

(** ** The command of the referrer: [_alter_finalize] *)

Section alter_finalize.
Context `{Collaborators}.

(** [super().merge], as for [InheritingObject_merge]. *)
Variable super_merge : schema → name → list name → outcome schema.

(** [refdict.non_inheritable_attr], when the descriptor has one. *)
Variable non_inheritable_attr : refdict → option name.

(** [schema.get_children(obj)], the children index of the schema, which
    the sources do not hold. *)
Variable children : schema → name → list name.

(** [super()._alter_finalize], of the command framework. *)
Variable super_alter_finalize : schema → name → outcome schema.

(** [InheritingObject.acquire_ancestor_inheritance(schema, bases)]; [None]
    for [bases] is the default of the parameter. *)
Definition InheritingObject_acquire_ancestor_inheritance (s : schema)
    (self : name) (bases : option (list name)) : outcome schema :=
  bases ← (match bases with
           | None => get_bases s self
           | Some bases => Ok bases
           end);
  InheritingObject_merge super_merge non_inheritable_attr s self bases.

(** [InheritingObject.update_descendants]: Python recursion through
    [child.update_descendants(schema)]; [fuel] bounds the recursion depth.
    The children are listed once, in the schema the call was given. *)
Fixpoint update_descendants (fuel : nat) (s : schema) (self : name)
  : outcome schema :=
  match fuel with
  | 0 => Raise RecursionError
  | S fuel' =>
      foldR (λ s child,
               s ← InheritingObject_acquire_ancestor_inheritance s child None;
               update_descendants fuel' s child)
            (children s self) s
  end.

(** [AlterInheritingObject._alter_finalize(schema, context, scls)]. *)
Definition _alter_finalize (fuel : nat) (s : schema) (scls : name)
  : outcome schema :=
  s ← InheritingObject_acquire_ancestor_inheritance s scls None;
  s ← update_descendants fuel s scls;
  super_alter_finalize s scls.

(** Modelled from the spec: the command framework ([delta.py] is not part
    of the sources) runs the deletion of a referenced member as a
    sub-operation of the alter command of its referrer: the
    [_delete_innards] of the member's command, and then the
    [_alter_finalize] hook of the referrer's command. *)
Definition delete_operation (fuel : nat) (s : schema) (scls referrer : name)
    (rd : refdict) : outcome schema :=
  s ← _delete_innards s scls (Some referrer) rd;
  _alter_finalize fuel s referrer.

(** [d] is reached from [p] through the children index. *)
Inductive descends (s : schema) : name → name → Prop :=
  | descends_child p c : c ∈ children s p → descends s p c
  | descends_step p c d :
      c ∈ children s p → descends s c d → descends s p d.
End alter_finalize.

(** The full collection of [obj] for [attr] has the entry [v] under
    [key]. *)
Definition holds (s : schema) (obj attr key v : name) : Prop :=
  ∃ c, get_field_value s obj attr = Ok c ∧ c !! key = Some v.

(** The entry under [key] of the collection of [obj] for [attr], if there
    is one. *)
Definition entry (s : schema) (obj attr key : name) : option name :=
  o ← s !! obj; default ∅ (refs o !! attr) !! key.

(** Two schemas with the same objects and the same base lists, whose
    reference collections agree but for the attributes [X]. *)
Definition same_except (X : list name) (s s' : schema) : Prop :=
  same_hierarchy s s' ∧
  ∀ a, a ∉ X → ∀ n, get_field_value s' n a = get_field_value s n a.

(** [G] defines [m]; [P(G)] defines its own [m]; [O(P)] overrides it with
    an [m] of its own, which [D(O)] inherits; [C(P)] inherits the [m] of
    [P]; [Q] defines an [m] too, and [E(Q, P)] has it from [Q]. *)
Definition overriding_schema : schema :=
  list_to_map
    [("G.m", member "G" false); ("P.m", member "P" true);
     ("O.m", member "O" true); ("Q.m", member "Q" false);
     ("G", entity [] {["m" := "G.m"]} {["m" := "G.m"]});
     ("P", entity ["G"] {["m" := "P.m"]} {["m" := "P.m"]});
     ("O", entity ["P"] {["m" := "O.m"]} {["m" := "O.m"]});
     ("D", entity ["O"] {["m" := "O.m"]} ∅);
     ("C", entity ["P"] {["m" := "P.m"]} ∅);
     ("Q", entity [] {["m" := "Q.m"]} {["m" := "Q.m"]});
     ("E", entity ["Q"; "P"] {["m" := "Q.m"]} ∅)].

(** The hooks of the examples: [super().merge] and
    [super()._alter_finalize] leave the modelled fields as they are, and no
    collection has a non-inheritable part. *)
Definition plain_super_merge : schema → name → list name → outcome schema :=
  λ s _ _, Ok s.

Definition no_non_inheritable : refdict → option name := λ _, None.

Definition plain_alter_finalize : schema → name → outcome schema :=
  λ s _, Ok s.

(** Every reference collection of every object files its members under
    their keys. *)
Definition all_keyed `{Collaborators} (s : schema) : Prop :=
  ∀ n rd c, rd ∈ get_refdicts →
            get_field_value s n (attr rd) = Ok c → keyed c.

(** * Properties *)

(** ** The outcome monad *)

Lemma bind_Ok {A B} (r : outcome A) (f : A → outcome B) (b : B) :
  r ≫= f = Ok b → ∃ a, r = Ok a ∧ f a = Ok b.
Proof. destruct r as [a|e]; simpl; [eauto | discriminate]. Qed.

Lemma bind_Ok_l {A B} (a : A) (f : A → outcome B) : Ok a ≫= f = f a.
Proof. done. Qed.

Lemma mapR_ext {A B} (f g : A → outcome B) l :
  (∀ x, x ∈ l → f x = g x) → mapR f l = mapR g l.
Proof.
  induction l as [|x l IH]; intros Hfg; [done|]. simpl.
  rewrite Hfg by left. destruct (g x); [|done]. simpl.
  rewrite IH; [done|]. intros y Hy. apply Hfg. by right.
Qed.

Lemma foldR_app {A S} (f : S → A → outcome S) l1 l2 s :
  foldR f (l1 ++ l2) s = foldR f l1 s ≫= foldR f l2.
Proof.
  revert s. induction l1 as [|x l1 IH]; intros s; [done|].
  simpl. destruct (f s x); simpl; [apply IH | done].
Qed.

Lemma filter_all {A} (P : A → Prop) `{∀ x, Decision (P x)} (l : list A) :
  (∀ x, x ∈ l → P x) → filter P l = l.
Proof.
  induction l as [|x l IH]; intros Hall; [done|].
  rewrite filter_cons, decide_True by (apply Hall; left).
  f_equal. apply IH. intros y Hy. apply Hall. by right.
Qed.

Lemma filter_none {A} (P : A → Prop) `{∀ x, Decision (P x)} (l : list A) :
  (∀ x, x ∈ l → ¬ P x) → filter P l = [].
Proof.
  induction l as [|x l IH]; intros Hall; [done|].
  rewrite filter_cons, decide_False by (apply Hall; left).
  apply IH. intros y Hy. apply Hall. by right.
Qed.

Lemma get_object_Some (s : schema) n o : s !! n = Some o → get_object s n = Ok o.
Proof. intros Hs. unfold get_object. by rewrite Hs. Qed.

Lemma get_object_None (s : schema) n :
  s !! n = None → get_object s n = Raise (InvalidReferenceError n).
Proof. intros Hs. unfold get_object. by rewrite Hs. Qed.

Lemma get_object_Ok (s : schema) n o : get_object s n = Ok o → s !! n = Some o.
Proof. unfold get_object. destruct (s !! n); by intros [= ->]. Qed.

(** ** Linearization *)

Lemma tails_nil nonempty c :
  tails nonempty c = [] ↔ ∀ m, m ∈ nonempty → c ∉ tail m.
Proof.
  unfold tails. split.
  - intros Hnil m Hm Hc.
    assert (m ∈ filter (λ m, in_tail c m = true) nonempty) as Hin.
    { apply list_elem_of_filter. split; [|done].
      unfold in_tail. by apply bool_decide_eq_true. }
    rewrite Hnil in Hin. by apply elem_of_nil in Hin.
  - intros Hall. induction nonempty as [|m l IH]; [done|].
    rewrite filter_cons. destruct (decide (in_tail c m = true)) as [Ht|Ht].
    + exfalso. apply (Hall m); [by left|].
      unfold in_tail in Ht. by apply bool_decide_eq_true in Ht.
    + apply IH. intros m' Hm'. apply Hall. by right.
Qed.

Lemma find_candidate_Some nonempty todo c :
  find_candidate nonempty todo = Some c →
  (∃ mro, mro ∈ todo ∧ head mro = Some c) ∧
  ∀ m, m ∈ nonempty → c ∉ tail m.
Proof.
  induction todo as [|mro todo IH]; [done|]. simpl.
  destruct mro as [|c' rest].
  - intros Hf. destruct (IH Hf) as [(m & Hm & Hh) Ht].
    split; [|done]. exists m. split; [by right | done].
  - destruct (tails nonempty c') eqn:Ht.
    + intros [= ->]. split.
      * exists (c :: rest). split; [by left | done].
      * by apply tails_nil.
    + intros Hf. destruct (IH Hf) as [(m & Hm & Hh) Ht'].
      split; [|done]. exists m. split; [by right | done].
Qed.

Lemma find_candidate_None nonempty todo :
  (∀ mro, mro ∈ todo → ∃ c m, head mro = Some c ∧ m ∈ nonempty ∧ c ∈ tail m) →
  find_candidate nonempty todo = None.
Proof.
  induction todo as [|mro todo IH]; intros Hall; [done|]. simpl.
  destruct mro as [|c' rest].
  - apply IH. intros m Hm. apply Hall. by right.
  - destruct (tails nonempty c') eqn:Ht.
    + destruct (Hall (c' :: rest)) as (c & m & [= <-] & Hm & Hc); [by left|].
      exfalso. by apply (proj1 (tails_nil nonempty c') Ht m).
    + apply IH. intros m Hm. apply Hall. by right.
Qed.

Lemma del_head_length c mro : length (del_head c mro) ≤ length mro.
Proof. destruct mro as [|x r]; simpl; [lia|]. case_decide; simpl; lia. Qed.

Lemma del_head_concat_le c mros :
  length (concat (del_head c <$> mros)) ≤ length (concat mros).
Proof.
  induction mros as [|m mros IH]; csimpl; [lia|].
  rewrite !length_app. pose proof (del_head_length c m). lia.
Qed.

Lemma del_head_concat_lt c mro mros :
  mro ∈ mros → head mro = Some c →
  length (concat (del_head c <$> mros)) < length (concat mros).
Proof.
  induction mros as [|m mros IH]; intros Hin Hh.
  - by apply elem_of_nil in Hin.
  - csimpl. rewrite !length_app.
    apply elem_of_cons in Hin as [<- | Hin].
    + destruct mro as [|x r]; [done|]. simpl in Hh. inversion Hh; subst.
      simpl. rewrite decide_True by done.
      pose proof (del_head_concat_le c mros). lia.
    + pose proof (del_head_length c m). specialize (IH Hin Hh). lia.
Qed.

Lemma del_head_before c x y l :
  c ≠ x → before x y l → before x y (del_head c l).
Proof.
  intros Hne (a & b & d & ->). destruct a as [|a0 a]; simpl.
  - rewrite decide_False by congruence. by exists [], b, d.
  - case_decide; [by exists a, b, d | by exists (a0 :: a), b, d].
Qed.

Lemma before_in_tail x y l : before x y l → y ∈ tail l.
Proof.
  intros (a & b & c & ->). destruct a as [|a0 a]; simpl.
  - apply elem_of_app. right. by left.
  - apply elem_of_app. right. right. apply elem_of_app. right. by left.
Qed.

Lemma before_nonempty x y l : before x y l → l ≠ [].
Proof. intros (a & b & c & ->). by destruct a. Qed.

(** The loop never exhausts its budget: it returns a list or raises the
    ordering error. *)
Lemma merge_loop_returns fuel obj mros acc :
  length (concat mros) ≤ fuel →
  (∃ l, merge_loop fuel obj mros acc = Ok l) ∨
  merge_loop fuel obj mros acc = Raise (SchemaError obj).
Proof.
  revert mros acc. induction fuel as [|fuel IH]; intros mros acc Hlen.
  - left. exists acc. simpl.
    assert (concat mros = []) as Hc by (apply length_zero_iff_nil; lia).
    assert (filter (λ mro, mro ≠ []) mros = []) as ->; [|done].
    clear Hlen. induction mros as [|m mros IHm]; [done|].
    simpl in Hc. apply app_eq_nil in Hc as [-> Hc].
    rewrite filter_cons, decide_False by (intros ?; done). by apply IHm.
  - simpl. destruct (filter (λ mro, mro ≠ []) mros) as [|m0 ne] eqn:Hne.
    { left. by exists acc. }
    destruct (find_candidate (m0 :: ne) (m0 :: ne)) as [c|] eqn:Hf; [|by right].
    apply IH. apply find_candidate_Some in Hf as [(mro & Hin & Hh) _].
    rewrite <- Hne in Hin. apply list_elem_of_filter in Hin as [_ Hin].
    pose proof (del_head_concat_lt c mro mros Hin Hh). lia.
Qed.

Lemma _merge_mro_returns obj mros :
  (∃ l, _merge_mro obj mros = Ok l) ∨
  _merge_mro obj mros = Raise (SchemaError obj).
Proof. by apply merge_loop_returns. Qed.

Lemma merge_loop_stuck fuel obj mros acc :
  stuck mros → merge_loop (S fuel) obj mros acc = Raise (SchemaError obj).
Proof.
  intros [Hne Hall]. simpl.
  destruct (filter (λ mro, mro ≠ []) mros) as [|m0 ne] eqn:Hf; [done|].
  by rewrite find_candidate_None.
Qed.

Lemma stuck_concat_pos mros : stuck mros → 0 < length (concat mros).
Proof.
  intros [Hne _]. induction mros as [|m mros IH]; [done|].
  simpl. rewrite length_app. destruct m as [|x m]; simpl; [|lia].
  rewrite filter_cons, decide_False in Hne by (intros ?; done). by apply IH.
Qed.

(** Two lists that order [x] and [y] oppositely block the merge for good. *)
Lemma merge_loop_conflict fuel obj mros acc x y l1 l2 :
  length (concat mros) ≤ fuel →
  l1 ∈ mros → l2 ∈ mros → before x y l1 → before y x l2 →
  merge_loop fuel obj mros acc = Raise (SchemaError obj).
Proof.
  revert mros acc l1 l2.
  induction fuel as [|fuel IH]; intros mros acc l1 l2 Hlen H1 H2 Hb1 Hb2.
  - exfalso. assert (concat mros = []) as Hc by (apply length_zero_iff_nil; lia).
    apply before_nonempty in Hb1. apply Hb1.
    clear -Hc H1. induction mros as [|m mros IHm].
    + by apply elem_of_nil in H1.
    + simpl in Hc. apply app_eq_nil in Hc as [-> Hc].
      apply elem_of_cons in H1 as [-> | H1]; [done | by apply IHm].
  - simpl. destruct (filter (λ mro, mro ≠ []) mros) as [|m0 ne] eqn:Hne.
    { exfalso. assert (l1 ∈ filter (λ mro, mro ≠ []) mros) as Hin.
      { apply list_elem_of_filter. split; [by eapply before_nonempty | done]. }
      rewrite Hne in Hin. by apply elem_of_nil in Hin. }
    destruct (find_candidate (m0 :: ne) (m0 :: ne)) as [c|] eqn:Hf; [|done].
    apply find_candidate_Some in Hf as [(mro & Hin & Hh) Htl].
    rewrite <- Hne in Hin, Htl.
    apply list_elem_of_filter in Hin as [_ Hin].
    assert (c ≠ y) as Hcy.
    { intros ->. apply (Htl l1).
      - apply list_elem_of_filter. split; [by eapply before_nonempty | done].
      - by eapply before_in_tail. }
    assert (c ≠ x) as Hcx.
    { intros ->. apply (Htl l2).
      - apply list_elem_of_filter. split; [by eapply before_nonempty | done].
      - by eapply before_in_tail. }
    apply (IH _ _ (del_head c l1) (del_head c l2)).
    + pose proof (del_head_concat_lt c mro mros Hin Hh). lia.
    + by apply list_elem_of_fmap_2.
    + by apply list_elem_of_fmap_2.
    + by apply del_head_before.
    + by apply del_head_before.
Qed.

Lemma _merge_mro_conflict obj mros x y l1 l2 :
  l1 ∈ mros → l2 ∈ mros → before x y l1 → before y x l2 →
  _merge_mro obj mros = Raise (SchemaError obj).
Proof.
  intros H1 H2 Hb1 Hb2. unfold _merge_mro.
  by apply (merge_loop_conflict _ _ _ _ x y l1 l2).
Qed.

Lemma compute_mro_conflict fuel (s : schema) obj bs mros x y l1 l2 :
  get_bases s obj = Ok bs →
  mapR (compute_mro fuel s) bs = Ok mros →
  l1 ∈ mros → l2 ∈ mros → before x y l1 → before y x l2 →
  compute_mro (S fuel) s obj = Raise (SchemaError obj).
Proof.
  intros Hbs Hm H1 H2 Hb1 Hb2. simpl. rewrite Hbs. simpl. rewrite Hm. simpl.
  apply (_merge_mro_conflict _ _ x y l1 l2); [by right | by right | done | done].
Qed.

(** C1: an entity whose bases [B1], [B2] linearize to [l1], [l2] with two
    ancestors [X], [Y] in opposite orders does not linearize: [compute_mro]
    raises the ordering error that names the entity.  More generally the
    merge loop, in any state where every head of a non-empty candidate list
    occurs in the tail of a non-empty candidate list, raises that error and
    returns no order. *)
Theorem compute_mro_inconsistent_order :
  (∀ fuel (s : schema) D B1 B2 l1 l2 X Y,
     get_bases s D = Ok [B1; B2] →
     compute_mro fuel s B1 = Ok l1 →
     compute_mro fuel s B2 = Ok l2 →
     before X Y l1 → before Y X l2 →
     compute_mro (S fuel) s D = Raise (SchemaError D)) ∧
  (∀ fuel obj mros acc,
     stuck mros →
     merge_loop (S fuel) obj mros acc = Raise (SchemaError obj)) ∧
  (∀ obj mros, stuck mros → _merge_mro obj mros = Raise (SchemaError obj)).
Proof.
  split; [|split].
  - intros fuel s D B1 B2 l1 l2 X Y Hbs H1 H2 Hb1 Hb2.
    apply (compute_mro_conflict fuel s D [B1; B2] [l1; l2] X Y l1 l2);
      [done | | | | done | done].
    + simpl. by rewrite H1, H2.
    + by left.
    + right. by left.
  - intros. by apply merge_loop_stuck.
  - intros obj mros Hst. unfold _merge_mro.
    pose proof (stuck_concat_pos mros Hst) as Hpos.
    destruct (length (concat mros)) as [|n] eqn:Hn; [lia|].
    by apply merge_loop_stuck.
Qed.

Lemma compute_mro_inconsistent_order_witness :
  compute_mro 2 conflict_schema "B1" = Ok ["B1"; "X"; "Y"] ∧
  compute_mro 2 conflict_schema "B2" = Ok ["B2"; "Y"; "X"] ∧
  compute_mro 3 conflict_schema "D" = Raise (SchemaError "D") ∧
  merge_loop 1 "D" [["X"; "Y"]; ["Y"; "X"]] ["D"; "B1"; "B2"]
    = Raise (SchemaError "D") ∧
  _merge_mro "D" [["X"; "Y"]; ["Y"; "X"]] = Raise (SchemaError "D").
Proof.
  assert (stuck [["X"; "Y"]; ["Y"; "X"]]) as Hstuck.
  { split; [done|]. intros mro Hin.
    apply elem_of_cons in Hin as [-> | Hin].
    - exists "X", ["Y"; "X"]. repeat split; [right; left | left].
    - apply elem_of_cons in Hin as [-> | Hin]; [|by apply elem_of_nil in Hin].
      exists "Y", ["X"; "Y"]. repeat split; left. }
  split; [reflexivity|]. split; [reflexivity|]. split; [|split].
  - apply (proj1 compute_mro_inconsistent_order 2 conflict_schema
             "D" "B1" "B2" ["B1"; "X"; "Y"] ["B2"; "Y"; "X"] "X" "Y").
    + reflexivity.
    + reflexivity.
    + reflexivity.
    + by exists ["B1"], [], [].
    + by exists ["B2"], [], [].
  - by apply (proj1 (proj2 compute_mro_inconsistent_order)).
  - by apply (proj2 (proj2 compute_mro_inconsistent_order)).
Defined.

(** ** The base delta *)

Lemma walk_new_bases_returns common new_bases st :
  j st < length common → is_Ok (walk_new_bases common new_bases st).
Proof.
  revert st. induction new_bases as [|base rest IH]; intros st Hj; simpl.
  - by exists st.
  - destruct (lookup_lt_is_Some_2 common (j st) Hj) as [c ->].
    destruct (decide (c = base)) as [->|Hne].
    + case_decide as Hbr; [by eexists|].
      apply IH. destruct (added_base_refs st); simpl in *; lia.
    + by apply IH.
Qed.

Lemma delta_bases_returns old_bases new_bases :
  is_Ok (delta_bases old_bases new_bases).
Proof.
  unfold delta_bases.
  destruct (filter _ old_bases) as [|c0 cs] eqn:Hc; simpl.
  - by eexists.
  - destruct (walk_new_bases_returns (c0 :: cs) new_bases (WalkState 0 ∅ [] []))
      as [st ->]; [simpl; lia|].
    simpl. by eexists.
Qed.

Lemma walk_new_bases_inv common N new_bases st st' :
  (∀ b, b ∈ new_bases → b ∈ N) →
  walk_new_bases common new_bases st = Ok st' →
  walk_inv common N st → walk_inv common N st'.
Proof.
  revert st. induction new_bases as [|base rest IH]; intros st HN Hw Hinv.
  - simpl in Hw. by inversion Hw; subst.
  - simpl in Hw. destruct (common !! j st) as [c|] eqn:Hc; [|done].
    assert (∀ b, b ∈ rest → b ∈ N) as HN' by (intros b Hb; apply HN; by right).
    assert (base ∈ N) as HbN by (apply HN; left).
    pose proof Hinv as [Hg Hr].
    destruct (decide (c = base)) as [->|Hne].
    + assert (walk_inv common N
                (match added_base_refs st with
                 | [] => st
                 | _ :: _ => WalkState (j st) (added_set st) []
                     (walk_added_bases st ++ [(added_base_refs st, BEFORE base)])
                 end)) as [Hg1 Hr1].
      { destruct (added_base_refs st) as [|r rs] eqn:Hrs; [done|].
        split; simpl.
        - intros g Hin. apply elem_of_app in Hin as [Hin | Hin]; [by apply Hg|].
          apply list_elem_of_singleton in Hin as ->. simpl. split; [done|].
          exists base. split; [done|]. split; [|done].
          by eapply list_elem_of_lookup_2.
        - intros b Hb. by apply elem_of_nil in Hb. }
      case_decide as Hbr.
      * inversion Hw; subst. by split.
      * eapply IH; [done | exact Hw | by split].
    + eapply IH; [done | exact Hw |]. split; simpl; [done|].
      intros b Hb. apply elem_of_app in Hb as [Hb | Hb]; [by apply Hr|].
      by apply list_elem_of_singleton in Hb as ->.
Qed.

Lemma delta_bases_dropped old_bases new_bases removed added b :
  delta_bases old_bases new_bases = Ok (removed, added) →
  b ∈ removed ↔ b ∈ old_bases ∧ b ∉ new_bases.
Proof.
  unfold delta_bases. intros Hd.
  apply bind_Ok in Hd as (st & _ & Hd). inversion Hd; subst.
  rewrite elem_of_elements, elem_of_difference, !elem_of_list_to_set. done.
Qed.

Lemma delta_bases_common old_bases new_bases c :
  c ∈ filter (λ b, b ∉ (list_to_set old_bases ∖ list_to_set new_bases : gset name))
        old_bases ↔
  c ∈ old_bases ∧ c ∈ new_bases.
Proof.
  rewrite list_elem_of_filter, elem_of_difference, !elem_of_list_to_set.
  split.
  - intros [Hn Ho]. split; [done|].
    destruct (decide (c ∈ new_bases)); [done|]. exfalso. by apply Hn.
  - intros [Ho Hn]. split; [|done]. by intros [_ ?].
Qed.

Lemma delta_bases_groups old_bases new_bases removed added g :
  delta_bases old_bases new_bases = Ok (removed, added) →
  g ∈ added →
  (∀ b, b ∈ g.1 → b ∈ new_bases) ∧
  (g.2 = LAST ∨ ∃ c, g.2 = BEFORE c ∧ c ∈ old_bases ∧ c ∈ new_bases).
Proof.
  unfold delta_bases. intros Hd Hg.
  apply bind_Ok in Hd as (st & Hst & Hd). inversion Hd; subst; clear Hd.
  set (common := filter (λ b, b ∉ (list_to_set old_bases ∖ list_to_set new_bases
                                   : gset name)) old_bases) in *.
  assert (walk_inv common new_bases st) as [Hgs Hrs].
  { destruct common as [|c0 cs] eqn:Hc.
    - inversion Hst; subst. split; simpl; intros ? Hin; by apply elem_of_nil in Hin.
    - eapply walk_new_bases_inv; [| exact Hst |]; [done|].
      split; simpl; intros ? Hin; by apply elem_of_nil in Hin. }
  assert (g ∈ walk_added_bases st →
          (∀ b, b ∈ g.1 → b ∈ new_bases) ∧
          (g.2 = LAST ∨ ∃ c, g.2 = BEFORE c ∧ c ∈ old_bases ∧ c ∈ new_bases))
    as Hwalk.
  { intros Hin. destruct (Hgs g Hin) as [Hb (c & Hc & Hcc & HcN)].
    split; [done|]. right. exists c. split; [done|].
    apply delta_bases_common in Hcc. tauto. }
  destruct (added_base_refs st ++ filter _ new_bases) as [|t ts] eqn:Htail;
    [by apply Hwalk|].
  apply elem_of_app in Hg as [Hg | Hg]; [by apply Hwalk|].
  apply list_elem_of_singleton in Hg as ->. simpl. split; [|by left].
  intros b Hb. rewrite <- Htail in Hb.
  apply elem_of_app in Hb as [Hb | Hb]; [by apply Hrs|].
  by apply list_elem_of_filter in Hb as [_ Hb].
Qed.

(** C7: on [old = [A, B, C]], [new = [A, D, B, C]] the delta is no removal
    and the single group [([D], BEFORE B)]; and for all inputs [delta_bases]
    returns, and no name is both in [removed] and in an added group. *)
Theorem delta_bases_removed_added_disjoint :
  delta_bases ["A"; "B"; "C"] ["A"; "D"; "B"; "C"]
    = Ok ([], [(["D"], BEFORE "B")]) ∧
  (∀ old_bases new_bases, is_Ok (delta_bases old_bases new_bases)) ∧
  (∀ old_bases new_bases removed added b g,
     delta_bases old_bases new_bases = Ok (removed, added) →
     b ∈ removed → g ∈ added → b ∉ g.1).
Proof.
  split; [reflexivity|]. split; [apply delta_bases_returns|].
  intros old_bases new_bases removed added b g Hd Hb Hg Hin.
  apply (delta_bases_dropped _ _ _ _ b Hd) in Hb as [_ Hnew].
  apply Hnew. by apply (delta_bases_groups _ _ _ _ g Hd Hg).
Qed.

Lemma delta_bases_removed_added_disjoint_witness :
  delta_bases ["A"; "B"; "C"] ["D"; "B"]
    = Ok (["C"; "A"], [(["D"], BEFORE "B")]) ∧
  "A" ∉ ["D"].
Proof.
  split; [reflexivity|].
  apply (proj2 (proj2 delta_bases_removed_added_disjoint)
           ["A"; "B"; "C"] ["D"; "B"] ["C"; "A"] [(["D"], BEFORE "B")]
           "A" (["D"], BEFORE "B")).
  - reflexivity.
  - right. left.
  - left.
Defined.

(** C9: [delta_bases] never anchors a group at [FIRST]: every group is
    anchored [LAST] or [BEFORE] a base that is in both lists; when the lists
    share no base, all of [new] is one group anchored [LAST]. *)
Theorem delta_bases_anchors :
  (∀ old_bases new_bases removed added g,
     delta_bases old_bases new_bases = Ok (removed, added) →
     g ∈ added →
     g.2 ≠ FIRST ∧
     (g.2 = LAST ∨ ∃ c, g.2 = BEFORE c ∧ c ∈ old_bases ∧ c ∈ new_bases)) ∧
  (∀ old_bases new_bases,
     (∀ b, b ∈ old_bases → b ∉ new_bases) →
     ∃ removed,
       delta_bases old_bases new_bases
         = Ok (removed, match new_bases with
                        | [] => []
                        | _ :: _ => [(new_bases, LAST)]
                        end)).
Proof.
  split.
  - intros old_bases new_bases removed added g Hd Hg.
    destruct (delta_bases_groups _ _ _ _ g Hd Hg) as [_ Ha].
    split; [|done]. destruct Ha as [-> | (c & -> & _)]; done.
  - intros old_bases new_bases Hdisj. unfold delta_bases.
    assert (filter (λ b, b ∉ (list_to_set old_bases ∖ list_to_set new_bases
                              : gset name)) old_bases = []) as ->.
    { destruct (filter _ old_bases) as [|c cs] eqn:Hc; [done|].
      assert (c ∈ filter (λ b, b ∉ (list_to_set old_bases ∖ list_to_set new_bases
                                    : gset name)) old_bases) as Hin
        by (rewrite Hc; left).
      apply delta_bases_common in Hin as [Ho Hn]. by destruct (Hdisj c Ho). }
    simpl. eexists. f_equal. f_equal.
    rewrite filter_all; [done|].
    intros b _. split; [set_solver | by intros ?%elem_of_nil].
Qed.

Lemma delta_bases_anchors_witness :
  (BEFORE "B" ≠ FIRST ∧
   (BEFORE "B" = LAST ∨
    ∃ c, BEFORE "B" = BEFORE c ∧ c ∈ ["A"; "B"; "C"] ∧ c ∈ ["D"; "B"])) ∧
  ∃ removed,
    delta_bases ["A"; "B"; "C"] ["D"; "E"] = Ok (removed, [(["D"; "E"], LAST)]).
Proof.
  split.
  - apply (proj1 delta_bases_anchors ["A"; "B"; "C"] ["D"; "B"] ["C"; "A"]
             [(["D"], BEFORE "B")] (["D"], BEFORE "B")).
    + reflexivity.
    + left.
  - apply (proj2 delta_bases_anchors ["A"; "B"; "C"] ["D"; "E"]).
    intros b Hb Hn.
    repeat (apply elem_of_cons in Hb as [-> | Hb];
            [repeat (apply elem_of_cons in Hn as [Hn | Hn]; [discriminate|]);
             by apply elem_of_nil in Hn |]).
    by apply elem_of_nil in Hb.
Defined.

(** ** Reconstruction of the base list *)

(** C6: with [removed = {A, B}] on the base list [[A, B, C]] (the script
    [delta_bases] gives for the new list [[C]]) the reconstruction keeps
    [B]: after [A] is removed the iteration position steps over [B]. *)
Theorem reconstruct_bases_keeps_removed :
  delta_bases ["A"; "B"; "C"] ["C"] = Ok (["A"; "B"], []) ∧
  remove_loop 3 0 {["A"; "B"]} ["A"; "B"; "C"] ∅ = (["B"; "C"], {["C"]}) ∧
  reconstruct_bases flat_schema None ["A"; "B"; "C"] ["A"; "B"] []
    = Ok ["B"; "C"] ∧
  "B" ∈ ["B"; "C"] ∧ "B" ∈ ["A"; "B"].
Proof.
  split; [reflexivity|]. split; [by vm_compute|]. split; [reflexivity|].
  split; [left | right; left].
Qed.

Lemma reconstruct_bases_Ok (s : schema) dflt bases removed added result :
  reconstruct_bases s dflt bases removed added = Ok result →
  ∃ bases0 bases1,
    drop_default s dflt bases = Ok bases0 ∧
    edit_bases s bases0 removed added = Ok bases1 ∧
    restore_default s dflt bases1 = Ok result.
Proof.
  unfold reconstruct_bases. intros Hr.
  apply bind_Ok in Hr as (b0 & H0 & Hr).
  apply bind_Ok in Hr as (b1 & H1 & Hr). eauto.
Qed.

Lemma mapR_get_object_Ok (s : schema) (l : list name) :
  (∀ b, b ∈ l → is_Some (s !! b)) →
  mapR (λ b, _ ← get_object s b; Ok b) l = Ok l.
Proof.
  induction l as [|b l IH]; intros Hall; [done|].
  destruct (Hall b) as [o Ho]; [left|].
  cbn [mapR]. rewrite (get_object_Some s b o Ho).
  cbn. rewrite IH; [done|]. intros b' Hb'. apply Hall. by right.
Qed.

(** C10: a base list that is exactly the default base is reconstructed as
    if it were empty, so a group added to it replaces the default base; and
    the default base is put back exactly when the edited list is empty. *)
Theorem reconstruct_bases_default_base :
  (∀ (s : schema) d removed added,
     is_Some (s !! d) →
     drop_default s (Some d) [d] = Ok [] ∧
     reconstruct_bases s (Some d) [d] removed added
       = reconstruct_bases s (Some d) [] removed added) ∧
  (∀ (s : schema) d removed new_bases pos,
     is_Some (s !! d) → new_bases ≠ [] →
     (∀ b, b ∈ new_bases → is_Some (s !! b)) →
     pos = LAST ∨ pos = FIRST ∨ pos = NoPosition →
     reconstruct_bases s (Some d) [d] removed [(new_bases, pos)]
       = Ok new_bases) ∧
  (∀ (s : schema) dflt bases removed added result,
     reconstruct_bases s dflt bases removed added = Ok result →
     ∃ bases0 bases1,
       drop_default s dflt bases = Ok bases0 ∧
       edit_bases s bases0 removed added = Ok bases1 ∧
       (bases1 ≠ [] → result = bases1) ∧
       (bases1 = [] → result = match dflt with Some d => [d] | None => [] end)).
Proof.
  split; [|split].
  - intros s d removed added [o Ho].
    assert (drop_default s (Some d) [d] = Ok []) as Hd.
    { unfold drop_default, get_object. rewrite Ho. simpl.
      by rewrite decide_True. }
    assert (drop_default s (Some d) [] = Ok []) as Hd'.
    { unfold drop_default. by rewrite (get_object_Some s d o Ho). }
    split; [done|]. unfold reconstruct_bases. by rewrite Hd, Hd'.
  - intros s d removed new_bases pos [o Ho] Hne Hex Hpos.
    unfold reconstruct_bases, drop_default.
    rewrite (get_object_Some s d o Ho). cbn.
    rewrite decide_True by done. unfold edit_bases. cbn.
    destruct Hpos as [-> | [-> | ->]]; cbn;
      (rewrite filter_all by (intros b _; set_solver));
      rewrite (mapR_get_object_Ok s new_bases Hex); cbn;
      rewrite app_nil_r; by destruct new_bases.
  - intros s dflt bases removed added result Hr.
    apply reconstruct_bases_Ok in Hr as (b0 & b1 & H0 & H1 & Hres).
    exists b0, b1. split; [done|]. split; [done|].
    unfold restore_default in Hres. destruct b1 as [|x b1].
    + split; [done|]. intros _. destruct dflt as [d|]; [|by inversion Hres].
      apply bind_Ok in Hres as (? & _ & Hres). by inversion Hres.
    + split; [|done]. intros _. by inversion Hres.
Qed.

Lemma reconstruct_bases_default_base_witness :
  reconstruct_bases flat_schema (Some "Object") ["Object"] ["A"]
    [(["B"], BEFORE "C")]
  = reconstruct_bases flat_schema (Some "Object") [] ["A"]
      [(["B"], BEFORE "C")] ∧
  reconstruct_bases flat_schema (Some "Object") ["Object"] [] [(["A"], LAST)]
  = Ok ["A"] ∧
  ∃ bases0 bases1,
    drop_default flat_schema (Some "Object") ["A"] = Ok bases0 ∧
    edit_bases flat_schema bases0 ["A"] [] = Ok bases1 ∧
    (bases1 ≠ [] → ["Object"] = bases1) ∧
    (bases1 = [] → ["Object"] = ["Object"]).
Proof.
  split; [|split].
  - apply (proj1 reconstruct_bases_default_base flat_schema "Object").
    by eexists.
  - apply (proj1 (proj2 reconstruct_bases_default_base) flat_schema "Object").
    + by eexists.
    + done.
    + intros b Hb. apply list_elem_of_singleton in Hb as ->. by eexists.
    + by left.
  - apply (proj2 (proj2 reconstruct_bases_default_base) flat_schema
             (Some "Object") ["A"] ["A"] [] ["Object"]).
    reflexivity.
Defined.

(** *** The removal loop *)

Lemma list_remove_first_middle b (seen rest : list name) :
  b ∉ seen → list_remove_first b (seen ++ b :: rest) = seen ++ rest.
Proof.
  induction seen as [|x seen IH]; intros Hb; simpl.
  - by rewrite decide_True.
  - rewrite decide_False by (intros ->; apply Hb; left).
    f_equal. apply IH. intros ?. apply Hb. by right.
Qed.

(** On a duplicate-free list without two neighbours to remove, the loop
    removes exactly the names of [R], and registers only names it met. *)
Lemma remove_loop_filter R fuel (seen rest : list name) ex :
  NoDup (seen ++ rest) → no_adjacent R rest → length rest ≤ fuel →
  ∃ ex', remove_loop fuel (length seen) R (seen ++ rest) ex
         = (seen ++ filter (λ b, b ∉ R) rest, ex') ∧
         ∀ b, b ∈ ex' → b ∈ ex ∨ b ∈ rest.
Proof.
  revert seen rest ex.
  induction fuel as [|fuel IH]; intros seen rest ex Hnd Hadj Hlen.
  - destruct rest; [|simpl in Hlen; lia]. exists ex. simpl.
    rewrite filter_nil. split; [done|]. tauto.
  - destruct rest as [|b rest].
    { exists ex. simpl. rewrite filter_nil, !app_nil_r.
      rewrite lookup_ge_None_2 by lia. split; [done | tauto]. }
    simpl. rewrite lookup_app_r, Nat.sub_diag by lia. simpl.
    assert (b ∉ seen) as Hbd.
    { apply NoDup_app in Hnd as (_ & Hd & _). intros Hin.
      apply (Hd b Hin). left. }
    destruct (decide (b ∈ R)) as [HbR | HbR].
    + rewrite list_remove_first_middle by done.
      rewrite filter_cons, decide_False by (intros Hn; by apply Hn).
      destruct rest as [|c rest].
      { exists ex. rewrite filter_nil, !app_nil_r. destruct fuel; simpl.
        - split; [done | tauto].
        - rewrite lookup_ge_None_2 by lia. split; [done | tauto]. }
      destruct Hadj as [[Ha | Hc] Hadj]; [done|].
      rewrite filter_cons, decide_True by done.
      destruct (IH (seen ++ [c]) rest ex) as (ex' & Heq & Hex').
      * rewrite <- app_assoc. simpl.
        apply NoDup_app in Hnd as (Hd1 & Hd2 & Hd3). apply NoDup_app.
        split; [done|]. split.
        -- intros x Hx Hin. apply (Hd2 x Hx). by right.
        -- by apply NoDup_cons in Hd3 as [_ ?].
      * destruct rest; [done | by destruct Hadj].
      * simpl in Hlen. lia.
      * exists ex'. rewrite length_app in Heq. simpl in Heq.
        rewrite Nat.add_1_r in Heq. rewrite <- !app_assoc in Heq. simpl in Heq.
        split; [done|]. intros x Hx. destruct (Hex' x Hx); [by left|].
        right. right. by right.
    + rewrite filter_cons, decide_True by done.
      destruct (IH (seen ++ [b]) rest ({[b]} ∪ ex)) as (ex' & Heq & Hex').
      * by rewrite <- app_assoc.
      * destruct rest; [done | by destruct Hadj].
      * simpl in Hlen. lia.
      * exists ex'. rewrite length_app in Heq. simpl in Heq.
        rewrite Nat.add_1_r in Heq. rewrite <- !app_assoc in Heq. simpl in Heq.
        split; [done|]. intros x Hx. destruct (Hex' x Hx) as [Hx' | Hx'].
        -- apply elem_of_union in Hx' as [Hx' | Hx']; [|by left].
           apply elem_of_singleton in Hx' as ->. right. left.
        -- right. by right.
Qed.

(** The iteration budget [length bases] is enough: more budget changes
    nothing. *)
Lemma remove_loop_fuel R fuel k i (bases : list name) ex :
  length bases - i ≤ fuel →
  remove_loop (fuel + k) i R bases ex = remove_loop fuel i R bases ex.
Proof.
  revert i bases ex. induction fuel as [|fuel IH]; intros i bases ex Hlen.
  - simpl. destruct k; [done|]. simpl.
    by rewrite lookup_ge_None_2 by lia.
  - simpl. destruct (bases !! i) as [b|] eqn:Hb; [|done].
    apply lookup_lt_Some in Hb.
    case_decide.
    + apply IH.
      assert (length (list_remove_first b bases) ≤ length bases) as Hle.
      { clear. induction bases as [|x l IHl]; simpl; [lia|].
        case_decide; simpl; lia. }
      lia.
    + apply IH. lia.
Qed.

Lemma no_adjacent_lookup R (l : list name) :
  (∀ i a b, l !! i = Some a → l !! S i = Some b → a ∉ R ∨ b ∉ R) →
  no_adjacent R l.
Proof.
  induction l as [|a l IH]; intros Hadj; [done|].
  destruct l as [|b l]; [done|]. split.
  - by apply (Hadj 0 a b).
  - apply IH. intros i x y Hx Hy. by apply (Hadj (S i) x y).
Qed.

(** *** Splicing the groups *)

Lemma index_of_bases_lookup (bases : list name) i c :
  NoDup bases → bases !! i = Some c → index_of_bases bases !! c = Some i.
Proof.
  intros Hnd Hi. unfold index_of_bases.
  apply elem_of_list_to_map.
  - rewrite fmap_reverse, reverse_Permutation.
    assert ((imap (λ i b, (b, i)) bases).*1 = bases) as ->; [|done].
    rewrite fmap_imap, (imap_ext _ (const id)) by done.
    rewrite imap_const. apply list_fmap_id.
  - apply elem_of_reverse. apply elem_of_lookup_imap. by exists i, c.
Qed.

Lemma splice_groups_app (s : schema) E bases gs1 gs2 :
  splice_groups s E bases (gs1 ++ gs2)
  = splice_groups s E bases gs1 ≫= λ bases', splice_groups s E bases' gs2.
Proof.
  revert bases. induction gs1 as [|[g pos] gs1 IH]; intros bases; [done|].
  simpl.
  destruct (match pos with
            | BEFORE ref =>
                match index_of_bases bases !! ref with
                | Some i => Ok i
                | None => Raise (KeyError ref)
                end
            | FIRST => Ok 0
            | _ => Ok (length bases)
            end) as [idx|e]; simpl; [|done].
  destruct (mapR _ _) as [objs|e]; simpl; [|done]. apply IH.
Qed.

Lemma splice_groups_before (s : schema) (E : gset name) pre c post g :
  NoDup (pre ++ c :: post) →
  (∀ b, b ∈ g → (b ∉ E) ∧ is_Some (s !! b)) →
  splice_groups s E (pre ++ c :: post) [(g, BEFORE c)]
  = Ok (pre ++ g ++ c :: post).
Proof.
  intros Hnd Hg. simpl.
  rewrite (index_of_bases_lookup _ (length pre) c Hnd)
    by (by rewrite lookup_app_r, Nat.sub_diag by lia).
  simpl. rewrite filter_all by (intros b Hb; by apply Hg).
  rewrite mapR_get_object_Ok by (intros b Hb; by apply Hg). simpl.
  by rewrite take_app_length, drop_app_length.
Qed.

Lemma splice_groups_last (s : schema) (E : gset name) bases g :
  (∀ b, b ∈ g → (b ∉ E) ∧ is_Some (s !! b)) →
  splice_groups s E bases [(g, LAST)] = Ok (bases ++ g).
Proof.
  intros Hg. simpl. rewrite filter_all by (intros b Hb; by apply Hg).
  rewrite mapR_get_object_Ok by (intros b Hb; by apply Hg). simpl.
  by rewrite firstn_all, drop_all, app_nil_r.
Qed.

(** *** The walk and the splices together *)

(** Bring nested appends to one right-nested shape. *)
Ltac norm_app :=
  repeat (rewrite <- app_assoc || rewrite <- app_comm_cons); simpl.

Section walk_roundtrip.
Variable s : schema.
Variable E : gset name.
Variables common new_bases : list name.
Hypothesis new_nodup : NoDup new_bases.
Hypothesis new_exist : ∀ b, b ∈ new_bases → is_Some (s !! b).
Hypothesis new_only_fresh : ∀ b, b ∈ new_bases → b ∉ common → b ∉ E.

Lemma walk_new_bases_roundtrip rest st placed :
  j st < length common → walk_ok s E common new_bases st placed rest →
  ∃ st' placed' rest',
    walk_new_bases common rest st = Ok st' ∧
    added_base_refs st' = [] ∧
    splice_groups s E common (walk_added_bases st') = Ok placed' ∧
    placed' ++ rest' = new_bases ∧
    filter (λ b, (b ∉ added_set st') ∧ (b ∉ common)) new_bases = rest' ∧
    (∀ b, b ∈ rest' → b ∉ common).
Proof.
  revert st placed.
  induction rest as [|base rest IH]; intros st placed Hj Hok.
  { destruct Hok as (_ & _ & Hf & _). exfalso.
    simpl in Hf. rewrite filter_nil in Hf. symmetry in Hf.
    apply (f_equal length) in Hf. rewrite length_drop in Hf.
    simpl in Hf. lia. }
  destruct Hok as (Hnew & Hsp & Hf & Hbuf & Hin & Hset).
  destruct (lookup_lt_is_Some_2 common (j st) Hj) as [c Hc].
  pose proof (drop_S common c (j st) Hc) as Hdrop.
  simpl. rewrite Hc.
  destruct (decide (c = base)) as [->|Hne].
  - (* the next common base: flush the buffered run *)
    rewrite filter_cons, decide_True in Hf
      by (by eapply list_elem_of_lookup_2).
    rewrite Hdrop in Hf. injection Hf as Hf.
    set (st1 := match added_base_refs st with
                | [] => st
                | _ :: _ => WalkState (j st) (added_set st) []
                    (walk_added_bases st ++ [(added_base_refs st, BEFORE base)])
                end).
    assert (NoDup (placed ++ base :: drop (S (j st)) common)) as Hnd.
    { rewrite <- Hf, <- Hnew in *. clear -new_nodup.
      rewrite app_assoc in new_nodup.
      apply NoDup_app in new_nodup as (Hd1 & Hd2 & Hd3).
      apply NoDup_app in Hd1 as (Hp & _ & _).
      apply NoDup_app. split; [done|]. split.
      - intros x Hx Hin. apply (Hd2 x); [apply elem_of_app; by left|].
        apply elem_of_cons in Hin as [-> | Hin]; [left|].
        right. by apply list_elem_of_filter in Hin as [_ ?].
      - apply NoDup_cons in Hd3 as [Hb Hr]. apply NoDup_cons. split.
        + intros Hin. apply Hb. by apply list_elem_of_filter in Hin as [_ ?].
        + by apply NoDup_filter. }
    assert (j st1 = j st ∧ added_set st1 = added_set st ∧
            added_base_refs st1 = [] ∧
            splice_groups s E common (walk_added_bases st1)
              = Ok ((placed ++ added_base_refs st ++ [base])
                      ++ drop (S (j st)) common)) as (Hj1 & Hs1 & Hb1 & Hsp1).
    { subst st1. destruct (added_base_refs st) as [|r rs] eqn:Hrs.
      - repeat split; [done|]. rewrite Hsp, Hdrop.
        by rewrite <- !app_assoc.
      - simpl. repeat split. rewrite splice_groups_app, Hsp, bind_Ok_l, Hdrop.
        rewrite splice_groups_before; [by norm_app | done |].
        intros b Hb. split.
        + apply new_only_fresh; [|by apply Hbuf].
          rewrite <- Hnew. apply elem_of_app. right. apply elem_of_app. by left.
        + apply new_exist. rewrite <- Hnew.
          apply elem_of_app. right. apply elem_of_app. by left. }
    fold st1. rewrite Hj1, Hs1, Hb1.
    assert ((placed ++ added_base_refs st ++ [base]) ++ rest = new_bases)
      as Hnew1 by (rewrite <- Hnew; by norm_app).
    assert (∀ b, b ∈ placed ++ added_base_refs st ++ [base] →
                 b ∈ common ∨ b ∈ added_set st) as Hin1.
    { intros b Hb. rewrite app_assoc in Hb.
      apply elem_of_app in Hb as [Hb | Hb]; [by apply Hin|].
      apply list_elem_of_singleton in Hb as ->. left.
      by eapply list_elem_of_lookup_2. }
    case_decide as Hbr.
    + (* break *)
      eexists _, (placed ++ added_base_refs st ++ [base]), rest.
      split; [done|]. simpl. split; [done|].
      assert (drop (S (j st)) common = []) as Hnil
        by (apply drop_ge; lia).
      rewrite Hnil, app_nil_r in Hsp1. split; [done|].
      rewrite Hnil in Hf.
      assert (∀ b, b ∈ rest → b ∉ common) as Hrest.
      { intros b Hb Hbc.
        assert (b ∈ filter (λ b, b ∈ common) rest) as Hx
          by (by apply list_elem_of_filter).
        rewrite Hf in Hx. by apply elem_of_nil in Hx. }
      split; [done|]. split; [|done].
      rewrite <- Hnew1 at 1. rewrite filter_app.
      rewrite filter_none, filter_all; [done | |].
      * intros b Hb. split; [|by apply Hrest].
        intros Hbs. apply Hset in Hbs.
        rewrite <- Hnew1 in new_nodup.
        apply NoDup_app in new_nodup as (_ & Hd & _).
        apply (Hd b); [|done]. rewrite app_assoc. apply elem_of_app. by left.
      * intros b Hb [Hb1' Hb2']. destruct (Hin1 b Hb); done.
    + apply (IH _ (placed ++ added_base_refs st ++ [base])).
      * simpl. lia.
      * unfold walk_ok. simpl. rewrite Nat.add_1_r.
        split; [done|].
        split; [done|]. split; [done|].
        split; [by intros b ?%elem_of_nil|].
        rewrite app_nil_r. split; [done|].
        intros b Hb. rewrite app_assoc.
        apply elem_of_app. left. by apply Hset.
  - (* a base that is not the expected common one: buffer it *)
    assert (base ∉ common) as Hbc.
    { intros Hbc. rewrite filter_cons, decide_True, Hdrop in Hf by done.
      by injection Hf as <-. }
    rewrite filter_cons, decide_False in Hf by done.
    apply (IH _ placed); [done|]. unfold walk_ok. simpl.
    split; [rewrite <- Hnew; by norm_app|].
    split; [done|]. split; [done|]. split; [|split].
    + intros b Hb. apply elem_of_app in Hb as [Hb | Hb]; [by apply Hbuf|].
      by apply list_elem_of_singleton in Hb as ->.
    + intros b Hb. rewrite app_assoc in Hb.
      apply elem_of_app in Hb as [Hb | Hb].
      * destruct (Hin b Hb); [by left|]. right.
        apply elem_of_union. by right.
      * apply list_elem_of_singleton in Hb as ->. right.
        apply elem_of_union. left. by apply elem_of_singleton.
    + intros b Hb. rewrite app_assoc. apply elem_of_app.
      apply elem_of_union in Hb as [Hb | Hb].
      * apply elem_of_singleton in Hb as ->. right. left.
      * left. by apply Hset.
Qed.
End walk_roundtrip.

Lemma filter_ext_in {A} (P Q : A → Prop) `{∀ x, Decision (P x)}
    `{∀ x, Decision (Q x)} (l : list A) :
  (∀ x, x ∈ l → P x ↔ Q x) → filter P l = filter Q l.
Proof.
  induction l as [|x l IH]; intros Hpq; [done|].
  rewrite !filter_cons.
  assert (filter P l = filter Q l) as ->
    by (apply IH; intros y Hy; apply Hpq; by right).
  destruct (decide (P x)) as [Hp|Hp], (decide (Q x)) as [Hq|Hq]; try done.
  - exfalso. apply Hq. by apply (Hpq x); [left|].
  - exfalso. apply Hp. by apply (Hpq x); [left|].
Qed.

(** A script whose anchors are names: the reconstruction of
    [reconstruct_bases] also carries out the groups anchored before a
    base, as long as the bases common to both lists come in the same
    relative order in both. *)
Lemma delta_bases_reconstruct_names (s : schema) dflt old_bases new_bases :
  NoDup old_bases → NoDup new_bases →
  (∀ b, b ∈ new_bases → is_Some (s !! b)) →
  filter (λ b, b ∈ old_bases) new_bases
    = filter (λ b, b ∈ new_bases) old_bases →
  (∀ i a b, old_bases !! i = Some a → old_bases !! S i = Some b →
            a ∈ new_bases ∨ b ∈ new_bases) →
  (∀ d, dflt = Some d →
        is_Some (s !! d) ∧ old_bases ≠ [d] ∧ new_bases ≠ []) →
  ∃ removed added,
    delta_bases old_bases new_bases = Ok (removed, added) ∧
    reconstruct_bases s dflt old_bases removed added = Ok new_bases.
Proof.
  intros Hold Hnew Hex Hord Hadj Hdflt.
  unfold delta_bases.
  set (dropped := (list_to_set old_bases ∖ list_to_set new_bases : gset name)).
  set (common := filter (λ b, b ∉ dropped) old_bases).
  assert (∀ b, b ∈ dropped ↔ b ∈ old_bases ∧ b ∉ new_bases) as Hdr.
  { intros b. subst dropped.
    by rewrite elem_of_difference, !elem_of_list_to_set. }
  assert (∀ b, b ∈ common ↔ b ∈ old_bases ∧ b ∈ new_bases) as Hcom
    by (intros b; apply delta_bases_common).
  assert (filter (λ b, b ∈ common) new_bases = common) as Hfc.
  { rewrite (filter_ext_in _ (λ b, b ∈ old_bases)).
    - rewrite Hord. subst common. apply filter_ext_in.
      intros b Hb. rewrite Hdr. split; [tauto|].
      intros Hn. destruct (decide (b ∈ new_bases)); [done|]. exfalso. tauto.
    - intros b Hb. rewrite Hcom. tauto. }
  (* the reconstruction up to the splices *)
  assert (drop_default s dflt old_bases = Ok old_bases) as Hdd.
  { unfold drop_default. destruct dflt as [d|]; [|done].
    destruct (Hdflt d eq_refl) as ([o Ho] & Hne & _).
    rewrite (get_object_Some s d o Ho). simpl.
    by rewrite decide_False. }
  destruct (remove_loop_filter dropped (length old_bases) [] old_bases ∅)
    as (E & Hrm & HE); [done | | done |].
  { apply no_adjacent_lookup. intros i a b Ha Hb.
    destruct (Hadj i a b Ha Hb) as [Hin | Hin]; [left | right];
      rewrite Hdr; tauto. }
  simpl in Hrm. fold common in Hrm.
  assert (∀ added,
            reconstruct_bases s dflt old_bases (elements dropped) added
            = splice_groups s E common added
              ≫= restore_default s dflt) as Hrec.
  { intros added. unfold reconstruct_bases. rewrite Hdd, bind_Ok_l.
    unfold edit_bases. rewrite list_to_set_elements_L, Hrm. done. }
  assert (∀ b, b ∈ new_bases → b ∉ common → b ∉ E) as Hfresh.
  { intros b Hb Hnc HbE. apply Hnc, Hcom.
    destruct (HE b HbE) as [Hemp | Hin]; [set_solver | done]. }
  assert (∀ g : list name, (∀ b, b ∈ g → b ∈ new_bases ∧ b ∉ common) →
               ∀ b, b ∈ g → (b ∉ E) ∧ is_Some (s !! b)) as Hgrp.
  { intros g Hg b Hb. destruct (Hg b Hb). split; [by apply Hfresh | by apply Hex]. }
  destruct common as [|c0 cs] eqn:Hc.
  - (* nothing in common: one group at the end *)
    rewrite bind_Ok_l. cbn [added_base_refs added_set walk_added_bases].
    rewrite app_nil_l.
    rewrite filter_all by (intros b _; split; [set_solver | by intros ?%elem_of_nil]).
    eexists _, _. split; [done|]. rewrite Hrec.
    destruct new_bases as [|n0 ns] eqn:Hn.
    + simpl. destruct dflt as [d|]; [|done].
      by destruct (Hdflt d eq_refl) as (_ & _ & ?).
    + rewrite app_nil_l, splice_groups_last; [done|].
      apply Hgrp. intros b Hb. split; [done | by intros ?%elem_of_nil].
  - (* walk the new list *)
    destruct (walk_new_bases_roundtrip s E (c0 :: cs) new_bases Hnew Hex Hfresh
                new_bases (WalkState 0 ∅ [] []) [])
      as (st' & placed' & rest' & Hw & Hbuf & Hsp & Happ & Hfl & Hrest).
    { simpl. lia. }
    { unfold walk_ok. simpl. repeat split; try done;
        by intros b ?%elem_of_nil. }
    rewrite Hw, bind_Ok_l, Hbuf, app_nil_l, Hfl.
    eexists _, _. split; [done|]. rewrite Hrec.
    assert (new_bases ≠ []) as Hne.
    { assert (c0 ∈ new_bases) as Hin by (apply Hcom; left).
      intros ->. by apply elem_of_nil in Hin. }
    destruct rest' as [|r0 rs] eqn:Hr.
    + rewrite Hsp, bind_Ok_l. rewrite app_nil_r in Happ. subst placed'.
      by destruct new_bases.
    + rewrite splice_groups_app, Hsp, bind_Ok_l.
      rewrite splice_groups_last.
      * rewrite Happ, bind_Ok_l. by destruct new_bases.
      * apply Hgrp. intros b Hb. split; [|by apply Hrest].
        rewrite <- Happ. apply elem_of_app. by right.
Qed.

(** *** The script of [delta_bases], applied *)

(** When an [ObjectRef] compares as its name, a script of [delta_bases] is
    applied as a command whose anchors are names. *)
Lemma splice_ref_groups_by_name (s : schema) E bases added :
  splice_ref_groups by_name s E bases added = splice_groups s E bases added.
Proof.
  revert bases. induction added as [|[g pos] added IH]; intros bases; [done|].
  cbn [splice_ref_groups splice_groups].
  destruct pos as [| | |ref]; cbn [by_name mbind option_bind];
    try (destruct (mapR _ _) as [objs|e]; cbn; [apply IH | done]).
  destruct (index_of_bases bases !! ref) as [i|]; cbn; [|done].
  destruct (mapR _ _) as [objs|e]; cbn; [apply IH | done].
Qed.

Lemma apply_script_by_name (s : schema) dflt bases removed added :
  apply_script by_name s dflt bases removed added
  = reconstruct_bases s dflt bases removed added.
Proof.
  unfold apply_script, reconstruct_bases, edit_bases.
  destruct (drop_default s dflt bases) as [bases0|e]; [|done].
  cbn [mbind outcome_bind].
  destruct (remove_loop _ _ _ _ _) as [bases1 E].
  by rewrite splice_ref_groups_by_name.
Qed.

(** A group anchored at the end is spliced whatever an [ObjectRef]
    compares as. *)
Lemma splice_ref_groups_last objref_key (s : schema) (E : gset name) bases g :
  (∀ b, b ∈ g → (b ∉ E) ∧ is_Some (s !! b)) →
  splice_ref_groups objref_key s E bases [(g, LAST)] = Ok (bases ++ g).
Proof.
  intros Hg. simpl. rewrite filter_all by (intros b Hb; by apply Hg).
  rewrite mapR_get_object_Ok by (intros b Hb; by apply Hg). simpl.
  by rewrite firstn_all, drop_all, app_nil_r.
Qed.

(** Walking the common bases followed by anything matches every common
    base, buffers nothing and stops at the last common base. *)
Lemma walk_new_bases_prefix (l rest : list name) n k added groups :
  length l - k = S n →
  walk_new_bases l (drop k l ++ rest) (WalkState k added [] groups)
    = Ok (WalkState (length l) added [] groups).
Proof.
  revert k. induction n as [|n IH]; intros k Hk.
  - destruct (lookup_lt_is_Some_2 l k ltac:(lia)) as [c Hc].
    rewrite (drop_S _ _ _ Hc). cbn [app walk_new_bases j]. rewrite Hc.
    rewrite decide_True by done.
    cbn [added_base_refs j added_set walk_added_bases].
    rewrite decide_True by lia. do 2 f_equal. lia.
  - destruct (lookup_lt_is_Some_2 l k ltac:(lia)) as [c Hc].
    rewrite (drop_S _ _ _ Hc). cbn [app walk_new_bases j]. rewrite Hc.
    rewrite decide_True by done.
    cbn [added_base_refs j added_set walk_added_bases].
    rewrite decide_False by lia. rewrite Nat.add_1_r. apply IH. lia.
Qed.

(** C2, as the code has it: the edit script of [delta_bases] rebuilds
    [new_bases] from [old_bases], whatever an [ObjectRef] compares as, when
    both lists are duplicate-free, the new bases exist, [new_bases] is the
    bases retained from [old_bases], in their old order, followed by the
    bases that are not in [old_bases] (so that the script anchors no group
    before a base), no two neighbours of [old_bases] are both dropped, and
    the class default base does not interfere (with a default base,
    [old_bases] is not just that base and [new_bases] is not empty). *)
Theorem delta_bases_roundtrip (objref_key : name → option name)
    (s : schema) dflt old_bases new_bases :
  NoDup old_bases → NoDup new_bases →
  (∀ b, b ∈ new_bases → is_Some (s !! b)) →
  new_bases = filter (λ b, b ∈ new_bases) old_bases
              ++ filter (λ b, b ∉ old_bases) new_bases →
  (∀ i a b, old_bases !! i = Some a → old_bases !! S i = Some b →
            a ∈ new_bases ∨ b ∈ new_bases) →
  (∀ d, dflt = Some d →
        is_Some (s !! d) ∧ old_bases ≠ [d] ∧ new_bases ≠ []) →
  roundtrip objref_key s dflt old_bases new_bases.
Proof.
  intros Hold Hnew Hex Hshape Hadj Hdflt.
  unfold roundtrip, delta_bases.
  set (dropped := (list_to_set old_bases ∖ list_to_set new_bases : gset name)).
  set (common := filter (λ b, b ∉ dropped) old_bases).
  set (rest := filter (λ b, b ∉ old_bases) new_bases) in *.
  assert (∀ b, b ∈ dropped ↔ b ∈ old_bases ∧ b ∉ new_bases) as Hdr.
  { intros b. subst dropped.
    by rewrite elem_of_difference, !elem_of_list_to_set. }
  assert (∀ b, b ∈ common ↔ b ∈ old_bases ∧ b ∈ new_bases) as Hcom
    by (intros b; apply delta_bases_common).
  assert (filter (λ b, b ∈ new_bases) old_bases = common) as Hfc.
  { subst common. apply filter_ext_in. intros b Hb. rewrite Hdr. split.
    - intros Hn [_ Hnn]. done.
    - intros Hn. destruct (decide (b ∈ new_bases)); [done|]. exfalso. tauto. }
  rewrite Hfc in Hshape.
  assert (∀ b, b ∈ rest → b ∈ new_bases ∧ b ∉ common) as Hrest.
  { intros b Hb. apply list_elem_of_filter in Hb as [Hno Hb].
    split; [done|]. rewrite Hcom. tauto. }
  (* the reconstruction up to the splices *)
  assert (drop_default s dflt old_bases = Ok old_bases) as Hdd.
  { unfold drop_default. destruct dflt as [d|]; [|done].
    destruct (Hdflt d eq_refl) as ([o Ho] & Hne & _).
    rewrite (get_object_Some s d o Ho). simpl.
    by rewrite decide_False. }
  destruct (remove_loop_filter dropped (length old_bases) [] old_bases ∅)
    as (E & Hrm & HE); [done | | done |].
  { apply no_adjacent_lookup. intros i a b Ha Hb.
    destruct (Hadj i a b Ha Hb) as [Hin | Hin]; [left | right];
      rewrite Hdr; tauto. }
  simpl in Hrm. fold common in Hrm.
  assert (∀ added,
            apply_script objref_key s dflt old_bases (elements dropped) added
            = splice_ref_groups objref_key s E common added
              ≫= restore_default s dflt) as Hrec.
  { intros added. unfold apply_script. rewrite Hdd, bind_Ok_l.
    rewrite list_to_set_elements_L, Hrm. done. }
  assert (∀ b, b ∈ rest → (b ∉ E) ∧ is_Some (s !! b)) as Hgrp.
  { intros b Hb. destruct (Hrest b Hb) as [Hn Hnc]. split; [|by apply Hex].
    intros HbE. apply Hnc, Hcom.
    destruct (HE b HbE) as [Hemp | Hin]; [set_solver | done]. }
  assert (restore_default s dflt new_bases = Ok new_bases) as Hrd.
  { unfold restore_default. destruct new_bases as [|n0 ns]; [|done].
    destruct dflt as [d|]; [|done].
    by destruct (Hdflt d eq_refl) as (_ & _ & ?). }
  (* the script: at most one group, at the end *)
  assert ((match common with
           | [] => Ok (WalkState 0 ∅ [] [])
           | _ :: _ => walk_new_bases common new_bases (WalkState 0 ∅ [] [])
           end) = Ok (WalkState (length common) ∅ [] [])) as Hwalk.
  { destruct common as [|c0 cs] eqn:Hc; [done|].
    rewrite Hshape at 1.
    pose proof (walk_new_bases_prefix (c0 :: cs) rest (length cs) 0 ∅ []) as Hw.
    rewrite drop_0 in Hw. apply Hw. simpl. lia. }
  rewrite Hwalk, bind_Ok_l.
  cbn [added_base_refs added_set walk_added_bases app].
  set (tail_bases := filter _ new_bases).
  assert (tail_bases = rest) as Htail.
  { subst tail_bases. rewrite Hshape at 1. rewrite filter_app.
    rewrite filter_none by (intros b Hb [_ Hn]; done).
    rewrite filter_all; [done|].
    intros b Hb. split; [set_solver | by apply Hrest]. }
  rewrite Htail.
  eexists _, _. split; [done|]. rewrite Hrec.
  destruct rest as [|r0 rs] eqn:Hr.
  - cbn [splice_ref_groups]. rewrite bind_Ok_l.
    rewrite app_nil_r in Hshape. by rewrite <- Hshape.
  - rewrite splice_ref_groups_last by done. rewrite bind_Ok_l.
    by rewrite <- Hshape.
Qed.

Lemma delta_bases_roundtrip_witness :
  roundtrip by_identity flat_schema (Some "Object")
    ["A"; "B"; "C"] ["A"; "C"; "D"; "E"].
Proof.
  apply delta_bases_roundtrip.
  - compute_done.
  - compute_done.
  - intros b Hb.
    repeat (apply elem_of_cons in Hb as [-> | Hb]; [by eexists|]).
    by apply elem_of_nil in Hb.
  - reflexivity.
  - intros i a b Ha Hb.
    destruct i as [|[|[|i]]]; simpl in Ha, Hb; simplify_eq.
    + left. left.
    + right. right. left.
  - intros d [= <-]. split; [by eexists|]. split; discriminate.
Defined.

(** A group whose bases are all present already is skipped, wherever its
    anchor is found. *)
Lemma splice_ref_groups_skipped objref_key (s : schema) (E : gset name)
    bases g pos result :
  (∀ b, b ∈ g → b ∈ E) →
  splice_ref_groups objref_key s E bases [(g, pos)] = Ok result →
  result = bases.
Proof.
  intros Hg Hs. cbn [splice_ref_groups] in Hs.
  apply bind_Ok in Hs as (idx & _ & Hs).
  rewrite filter_none in Hs by (intros b Hb Hn; by apply Hn, Hg).
  cbn in Hs. injection Hs as <-. apply take_drop.
Qed.

(** C2 as stated fails on a pure reordering: the script for
    [old = [A, B]], [new = [B, A]] asks to add [B] before [A].  The lookup
    of the anchor raises [KeyError] when an [ObjectRef] is equal to itself
    only; and were it to compare as its name, the reconstruction would skip
    [B], which is already a base, and leave the list as it is.  Whatever
    the lookup finds, the result is not [[B, A]]. *)
Lemma delta_bases_roundtrip_reorder_fails :
  NoDup ["A"; "B"] ∧ NoDup ["B"; "A"] ∧
  delta_bases ["A"; "B"] ["B"; "A"] = Ok ([], [(["B"], BEFORE "A")]) ∧
  apply_script by_identity flat_schema None ["A"; "B"] []
    [(["B"], BEFORE "A")] = Raise (KeyError "A") ∧
  apply_script by_name flat_schema None ["A"; "B"] []
    [(["B"], BEFORE "A")] = Ok ["A"; "B"] ∧
  ∀ objref_key,
    ¬ roundtrip objref_key flat_schema None ["A"; "B"] ["B"; "A"].
Proof.
  assert (delta_bases ["A"; "B"] ["B"; "A"] = Ok ([], [(["B"], BEFORE "A")]))
    as Hd' by reflexivity.
  split; [compute_done|]. split; [compute_done|].
  split; [exact Hd'|]. split; [reflexivity|]. split; [reflexivity|].
  intros objref_key (removed & added & Hd & Hr).
  rewrite Hd' in Hd. injection Hd as <- <-.
  unfold apply_script in Hr. cbn [drop_default] in Hr.
  rewrite bind_Ok_l in Hr.
  assert (remove_loop (length ["A"; "B"]) 0 (list_to_set []) ["A"; "B"] ∅
          = (["A"; "B"], ({["A"; "B"]} : gset name))) as HE
    by (vm_compute; reflexivity).
  rewrite HE in Hr. apply bind_Ok in Hr as (bases & Hsp & Hr).
  apply splice_ref_groups_skipped in Hsp as ->.
  - cbn in Hr. discriminate.
  - intros b ->%list_elem_of_singleton. set_solver.
Qed.

(** ** The rebase and the cached ancestors *)

Lemma same_hierarchy_trans s1 s2 s3 :
  same_hierarchy s1 s2 → same_hierarchy s2 s3 → same_hierarchy s1 s3.
Proof. intros H12 H23 n. by rewrite H12. Qed.

Lemma same_hierarchy_exist {A} s1 s2 (l : list name) (k : outcome A) :
  same_hierarchy s1 s2 →
  (mapR (get_object s1) l ≫= λ _, k) = (mapR (get_object s2) l ≫= λ _, k).
Proof.
  intros Hs. induction l as [|n l IH]; [done|]. cbn [mapR].
  pose proof (Hs n) as Hn.
  destruct (s1 !! n) as [o1|] eqn:H1, (s2 !! n) as [o2|] eqn:H2;
    simpl in Hn; try done.
  - rewrite (get_object_Some s1 n o1 H1), (get_object_Some s2 n o2 H2).
    rewrite !bind_Ok_l.
    destruct (mapR (get_object s1) l), (mapR (get_object s2) l);
      simpl in *; congruence.
  - by rewrite (get_object_None s1 n H1), (get_object_None s2 n H2).
Qed.

Lemma same_hierarchy_get_bases s1 s2 obj :
  same_hierarchy s1 s2 → get_bases s1 obj = get_bases s2 obj.
Proof.
  intros Hs. unfold get_bases. pose proof (Hs obj) as Ho.
  destruct (s1 !! obj) as [o1|] eqn:H1, (s2 !! obj) as [o2|] eqn:H2;
    simpl in Ho; try done.
  - rewrite (get_object_Some s1 obj o1 H1), (get_object_Some s2 obj o2 H2).
    rewrite !bind_Ok_l. injection Ho as ->. by apply same_hierarchy_exist.
  - by rewrite (get_object_None s1 obj H1), (get_object_None s2 obj H2).
Qed.

(** The linearization reads the base lists only. *)
Lemma compute_mro_same_hierarchy fuel s1 s2 obj :
  same_hierarchy s1 s2 → compute_mro fuel s1 obj = compute_mro fuel s2 obj.
Proof.
  intros Hs. revert obj. induction fuel as [|fuel IH]; intros obj; [done|].
  simpl. rewrite (same_hierarchy_get_bases s1 s2 obj Hs).
  destruct (get_bases s2 obj) as [bs|e]; [|done]. simpl.
  by rewrite (mapR_ext _ (compute_mro fuel s2)).
Qed.

Lemma set_ancestors_same_hierarchy s obj ancs s' :
  set_ancestors s obj ancs = Ok s' → same_hierarchy s s'.
Proof.
  unfold set_ancestors. intros Hs.
  apply bind_Ok in Hs as (o & Ho%get_object_Ok & Hs). injection Hs as <-.
  intros n. destruct (decide (n = obj)) as [->|Hne].
  - by rewrite lookup_insert_eq, Ho.
  - by rewrite lookup_insert_ne.
Qed.

Lemma set_ancestors_lookup s obj ancs s' :
  set_ancestors s obj ancs = Ok s' →
  get_ancestors s' obj = Ok (Some ancs) ∧
  ∀ n, n ≠ obj → s' !! n = s !! n.
Proof.
  unfold set_ancestors. intros Hs.
  apply bind_Ok in Hs as (o & Ho%get_object_Ok & Hs). injection Hs as <-.
  split.
  - unfold get_ancestors, get_object. by rewrite lookup_insert_eq.
  - intros n Hne. by rewrite lookup_insert_ne.
Qed.

Lemma fresh_ancestors_set fuel s obj mro s' :
  compute_mro fuel s obj = Ok mro →
  set_ancestors s obj (drop 1 mro) = Ok s' →
  fresh_ancestors fuel s' obj ∧
  ∀ d, fresh_ancestors fuel s d → fresh_ancestors fuel s' d.
Proof.
  intros Hmro Hset.
  pose proof (set_ancestors_same_hierarchy _ _ _ _ Hset) as Hsame.
  destruct (set_ancestors_lookup _ _ _ _ Hset) as [Hanc Hother].
  assert (fresh_ancestors fuel s' obj) as Hobj.
  { exists mro. by rewrite <- (compute_mro_same_hierarchy fuel s s' obj Hsame). }
  split; [done|]. intros d (m & Hm & Ha).
  destruct (decide (d = obj)) as [->|Hne]; [done|].
  exists m. rewrite <- (compute_mro_same_hierarchy fuel s s' d Hsame).
  split; [done|]. unfold get_ancestors, get_object in *.
  by rewrite Hother.
Qed.

Section rebase_facts.
Context `{Collaborators}.

Lemma cascade_step_Ok fuel s self d s' self' :
  cascade_step fuel (s, self) d = Ok (s', self') →
  ∃ mro, compute_mro fuel s d = Ok mro ∧
         set_ancestors s d (drop 1 mro) = Ok s' ∧
         self' = add_subcommand (AlterCommand d [("ancestors", drop 1 mro)]) self.
Proof.
  unfold cascade_step. intros Hc.
  apply bind_Ok in Hc as (mro & Hmro & Hc).
  apply bind_Ok in Hc as (s2 & Hset & Hc). injection Hc as <- <-.
  by exists mro.
Qed.

(** The cascade refreshes every descendant it visits, keeps what was fresh,
    and records one alter command per visit. *)
Lemma cascade_fresh fuel ds s self s' self' :
  foldR (cascade_step fuel) ds (s, self) = Ok (s', self') →
  same_hierarchy s s' ∧
  (∀ d, fresh_ancestors fuel s d → fresh_ancestors fuel s' d) ∧
  (∀ d, d ∈ ds →
     ∃ mro, compute_mro fuel s' d = Ok mro ∧
            get_ancestors s' d = Ok (Some (drop 1 mro)) ∧
            AlterCommand d [("ancestors", drop 1 mro)] ∈ subcommands self') ∧
  (∀ op, op ∈ subcommands self → op ∈ subcommands self').
Proof.
  revert s self. induction ds as [|d ds IH]; intros s self Hf.
  - simpl in Hf. injection Hf as <- <-.
    repeat split; try done. by intros d ?%elem_of_nil.
  - simpl in Hf. apply bind_Ok in Hf as ([s1 self1] & Hstep & Hf).
    apply cascade_step_Ok in Hstep as (mro & Hmro & Hset & ->).
    destruct (IH _ _ Hf) as (Hsame & Hkeep & Hvis & Hsub).
    pose proof (set_ancestors_same_hierarchy _ _ _ _ Hset) as Hsame1.
    destruct (fresh_ancestors_set fuel s d mro s1 Hmro Hset) as [Hd Hkeep1].
    split; [by eapply same_hierarchy_trans|]. split; [by auto|]. split.
    + intros d' Hd'. apply elem_of_cons in Hd' as [-> | Hd']; [|by apply Hvis].
      destruct (Hkeep d Hd) as (m & Hm & Ha). exists m.
      split; [done|]. split; [done|]. apply Hsub. simpl.
      apply elem_of_app. right.
      assert (m = mro) as ->; [|left].
      rewrite <- (compute_mro_same_hierarchy fuel s s' d) in Hm
        by (by eapply same_hierarchy_trans).
      congruence.
    + intros op Hop. apply Hsub. simpl. apply elem_of_app. by left.
Qed.
End rebase_facts.

Lemma subcommands_set_attribute_default p v self :
  subcommands (set_attribute_default p v self) = subcommands self.
Proof. unfold set_attribute_default. by destruct (_ !! p). Qed.

(** C3, as the code has it: after [apply] the entity's cached ancestors is
    its linearization without itself; when the operation carries no alter
    sub-operation, the same holds for every descendant, and an alter
    sub-operation recording the value is added for each; when it carries
    one, the rebase adds no sub-operation and recomputes no descendant:
    every object other than the entity is left as the carried
    sub-operations left it. *)
Theorem apply_refreshes_ancestors `{Collaborators} fuel self s s' self' :
  (∀ s1 s2 obj, same_hierarchy s1 s2 →
                get_descendants s1 obj = get_descendants s2 obj) →
  apply fuel self s = Ok (s', self') →
  fresh_ancestors fuel s' (rebase_classname self) ∧
  (filter (λ op, is_alter_cmd op = true) (subcommands self) = [] →
   ∀ d, d ∈ get_descendants s' (rebase_classname self) →
     ∃ mro, compute_mro fuel s' d = Ok mro ∧
            get_ancestors s' d = Ok (Some (drop 1 mro)) ∧
            AlterCommand d [("ancestors", drop 1 mro)] ∈ subcommands self') ∧
  (filter (λ op, is_alter_cmd op = true) (subcommands self) ≠ [] →
   subcommands self' = subcommands self ∧
   ∃ sa sb s0,
     prune_stale_refs s (rebase_classname self) = Ok sa ∧
     update_fields sa (rebase_classname self) (attribute_values self) = Ok sb ∧
     foldR apply_subcommand (subcommands self) sb = Ok s0 ∧
     ∀ n, n ≠ rebase_classname self → s' !! n = s0 !! n).
Proof.
  intros Hdesc Happly. unfold apply in Happly.
  apply bind_Ok in Happly as (_ & _ & Happly).
  apply bind_Ok in Happly as (sa & Hsa & Happly).
  apply bind_Ok in Happly as (sb & Hsb & Happly).
  apply bind_Ok in Happly as (s0 & Hs0 & Happly).
  unfold rebase_bases in Happly.
  apply bind_Ok in Happly as (bs & _ & Happly).
  apply bind_Ok in Happly as (bs' & _ & Happly).
  apply bind_Ok in Happly as (s_b & Hs_b & Happly).
  apply bind_Ok in Happly as (mro & Hmro & Happly).
  apply bind_Ok in Happly as (s1 & Hset & Happly).
  destruct (fresh_ancestors_set fuel s_b _ mro s1 Hmro Hset) as [Hown _].
  set (self2 := set_attribute_default "ancestors" (drop 1 mro)
                  (set_attribute_default "bases" bs' self)) in *.
  assert (subcommands self2 = subcommands self) as Hsub2
    by (subst self2; by rewrite !subcommands_set_attribute_default).
  assert (∀ n, n ≠ rebase_classname self → s1 !! n = s0 !! n) as Hother.
  { intros n Hn.
    destruct (set_ancestors_lookup _ _ _ _ Hset) as [_ Hanc]. rewrite Hanc by done.
    unfold set_bases in Hs_b. apply bind_Ok in Hs_b as (o & _ & [= <-]).
    by rewrite lookup_insert_ne. }
  destruct (get_descendants s1 (rebase_classname self)) as [|d0 ds] eqn:Hds.
  { injection Happly as <- <-. split; [done|]. split.
    - intros _ d Hd. rewrite Hds in Hd. by apply elem_of_nil in Hd.
    - intros _. split; [done|]. by exists sa, sb, s0. }
  destruct (filter _ (subcommands self)) as [|a0 al] eqn:Hal.
  - destruct (cascade_fresh fuel _ _ _ _ _ Happly)
      as (Hsame & Hkeep & Hvis & _).
    split; [by apply Hkeep|]. split; [|done].
    intros _ d Hd. apply Hvis.
    by rewrite <- (Hdesc s1 s' _ Hsame), Hds in Hd.
  - injection Happly as <- <-. split; [done|]. split; [done|].
    intros _. split; [done|]. by exists sa, sb, s0.
Qed.

Lemma schema_descendants_same_hierarchy s1 s2 obj :
  same_hierarchy s1 s2 → schema_descendants s1 obj = schema_descendants s2 obj.
Proof.
  intros Hs. revert obj.
  assert (dom s1 = dom s2) as Hdom.
  { apply set_eq. intros n. rewrite !elem_of_dom. specialize (Hs n).
    destruct (s1 !! n), (s2 !! n); simpl in Hs; done. }
  assert (∀ obj, get_children s1 obj = get_children s2 obj) as Hch.
  { intros obj. unfold get_children. rewrite Hdom.
    apply filter_ext_in. intros n _. by rewrite Hs. }
  assert (∀ fuel obj, descendants_upto fuel s1 obj = descendants_upto fuel s2 obj)
    as Hup.
  { induction fuel as [|fuel IH]; intros obj; [done|]. simpl.
    rewrite Hch. f_equal. f_equal. apply list_fmap_ext. intros _ x _. apply IH. }
  intros obj. unfold schema_descendants.
  by rewrite Hup, <- !size_dom, Hdom.
Qed.

Lemma apply_refreshes_ancestors_witness :
  ∃ s' self',
    @apply plain_collaborators 5 (rebase_P []) family_schema = Ok (s', self') ∧
    fresh_ancestors 5 s' "P" ∧
    @get_descendants plain_collaborators s' "P" = ["D1"; "D2"] ∧
    ∃ mro, compute_mro 5 s' "D2" = Ok mro ∧
           get_ancestors s' "D2" = Ok (Some (drop 1 mro)) ∧
           AlterCommand "D2" [("ancestors", drop 1 mro)] ∈ subcommands self'.
Proof.
  eexists _, _. split; [vm_compute; reflexivity|].
  destruct (@apply_refreshes_ancestors plain_collaborators 5 (rebase_P [])
              family_schema _ _
              (λ s1 s2 obj, schema_descendants_same_hierarchy s1 s2 obj)
              eq_refl) as (Hown & Hdesc & _).
  split; [exact Hown|]. split; [vm_compute; reflexivity|].
  apply (Hdesc eq_refl "D2"). vm_compute. right. left.
Defined.

(** C3 as stated fails: a rebase of [P] that carries an alter sub-operation
    for [D1] only leaves the other descendant [D2] with its old cached
    ancestors and records no alter sub-operation for it. *)
Lemma apply_leaves_descendant_stale :
  ∃ s' self',
    @apply plain_collaborators 5 (rebase_P [alter_D1]) family_schema
      = Ok (s', self') ∧
    "D2" ∈ @get_descendants plain_collaborators s' "P" ∧
    (∀ props, AlterCommand "D2" props ∉ subcommands (rebase_P [alter_D1])) ∧
    compute_mro 5 s' "D2" = Ok ["D2"; "P"; "H"] ∧
    get_ancestors s' "D2" = Ok (Some ["P"; "G"]) ∧
    ¬ fresh_ancestors 5 s' "D2" ∧
    (∀ props, AlterCommand "D2" props ∉ subcommands self').
Proof.
  eexists _, _. split; [vm_compute; reflexivity|].
  split; [vm_compute; right; left|].
  split.
  { intros props Hin. apply list_elem_of_singleton in Hin. discriminate. }
  split; [vm_compute; reflexivity|]. split; [vm_compute; reflexivity|]. split.
  - intros (mro & Hmro & Hanc).
    vm_compute in Hmro. injection Hmro as <-. vm_compute in Hanc. discriminate.
  - intros props Hin. apply list_elem_of_singleton in Hin. discriminate.
Qed.

(** ** The reference merge *)

Lemma dict_set_keys {K V} `{EqDecision K} (k : K) (v : V) d x :
  x ∈ (dict_set k v d).*1 ↔ x = k ∨ x ∈ d.*1.
Proof.
  induction d as [|[k' v'] d IH]; simpl.
  - rewrite list_elem_of_singleton. split; [by left|].
    intros [-> | ?%elem_of_nil]; done.
  - case_decide as Hk; simpl.
    + subst k'. rewrite !elem_of_cons. tauto.
    + rewrite !elem_of_cons, IH. tauto.
Qed.

Lemma dict_set_NoDup {K V} `{EqDecision K} (k : K) (v : V) d :
  NoDup d.*1 → NoDup (dict_set k v d).*1.
Proof.
  induction d as [|[k' v'] d IH]; simpl; intros Hnd.
  - apply NoDup_singleton.
  - apply NoDup_cons in Hnd as [Hk' Hnd]. case_decide as Hk; simpl.
    + subst k'. by apply NoDup_cons.
    + apply NoDup_cons. split; [|by apply IH].
      rewrite dict_set_keys. intros [-> | ?]; done.
Qed.

Lemma dict_set_values {K V} `{EqDecision K} (k : K) (v : V) d x :
  x ∈ dict_set k v d → x = (k, v) ∨ x ∈ d.
Proof.
  induction d as [|[k' v'] d IH]; simpl.
  - rewrite list_elem_of_singleton. by left.
  - case_decide as Hk; rewrite !elem_of_cons; [tauto|].
    intros [-> | Hx]; [tauto|]. destruct (IH Hx); tauto.
Qed.

(** A dict holds each key once, and only items that were put in. *)
Lemma dict_of_spec {K V} `{EqDecision K} (items : list (K * V)) :
  NoDup (dict_of items).*1 ∧ ∀ x, x ∈ dict_of items → x ∈ items.
Proof.
  unfold dict_of.
  assert (∀ d, NoDup d.*1 →
            NoDup (foldl (λ d kv, dict_set kv.1 kv.2 d) d items).*1 ∧
            ∀ x, x ∈ foldl (λ d kv, dict_set kv.1 kv.2 d) d items →
                 x ∈ d ∨ x ∈ items) as Hgen.
  { induction items as [|[k v] items IH]; intros d Hd; simpl.
    - split; [done | by left].
    - destruct (IH (dict_set k v d)) as [Hnd Hin]; [by apply dict_set_NoDup|].
      split; [done|]. intros x Hx. destruct (Hin x Hx) as [Hx' | Hx'].
      + destruct (dict_set_values k v d x Hx') as [-> | ?]; [right; left | by left].
      + right. by right. }
  destruct (Hgen []) as [Hnd Hin]; [constructor|]. split; [done|].
  intros x Hx. destruct (Hin x Hx) as [?%elem_of_nil | ?]; done.
Qed.

Section merge_facts.
Context `{Collaborators}.

(** The owners of the deduplicated candidates are pairwise distinct, and
    every candidate is one the bases exposed, filed under its owner. *)
Lemma ancestry_of_spec (s : schema) backref_attr inherited ancestry :
  ancestry_of s backref_attr inherited = Ok ancestry →
  NoDup ancestry.*1 ∧
  ∀ o pref, (o, pref) ∈ ancestry →
    pref ∈ inherited ∧ get_backref s pref backref_attr = Ok o.
Proof.
  unfold ancestry_of. intros Ha.
  apply bind_Ok in Ha as (items & Hitems & Ha). injection Ha as <-.
  destruct (dict_of_spec items) as [Hnd Hin]. split; [done|].
  intros o pref Hop. apply Hin in Hop.
  apply list_elem_of_lookup in Hop as [i Hi].
  clear -Hitems Hi. revert items i Hitems Hi.
  induction inherited as [|p l IH]; intros items i Hitems Hi; simpl in Hitems.
  - injection Hitems as <-. done.
  - apply bind_Ok in Hitems as ([o' p'] & Hp & Hitems).
    apply bind_Ok in Hitems as (items' & Hl & Hitems). injection Hitems as <-.
    apply bind_Ok in Hp as (ow & How & Hp). injection Hp as <- <-.
    destruct i as [|i]; simpl in Hi.
    + injection Hi as <- <-. split; [left | done].
    + destruct (IH items' i Hl Hi) as [Hin Hb]. split; [by right | done].
Qed.

(** The pure-inheritance branch: no local entry and one candidate left. *)
Lemma merge_key_pure self bases attr backref_attr rei dctx st k
    inherited0 o item merged :
  st_local_classrefs st !! k = None →
  collect_inherited (st_schema st) bases attr k = Ok inherited0 →
  ancestry_of (st_schema st) backref_attr inherited0 = Ok [(o, item)] →
  inherit_pure (st_schema st) item self = Ok (None, merged) →
  merge_key self bases attr backref_attr rei dctx st k
  = Ok (MergeState (st_schema st)
          (<[get_key_for (st_schema st) merged := merged]> (st_classrefs st))
          (st_local_classrefs st)
          (st_calls st ++ [CallInheritPure item self])).
Proof.
  intros Hloc Hcol Hanc Hpure. unfold merge_key.
  rewrite Hcol, bind_Ok_l, Hanc, bind_Ok_l, Hloc. simpl.
  by rewrite Hpure.
Qed.

(** The branch of a local member that meets inherited definitions. *)
Lemma merge_key_local self bases attr backref_attr rei dctx st k
    inherited0 ancestry l s1 s2 declared :
  st_local_classrefs st !! k = Some l →
  collect_inherited (st_schema st) bases attr k = Ok inherited0 →
  ancestry_of (st_schema st) backref_attr inherited0 = Ok ancestry →
  ancestry ≠ [] →
  acquire_ancestor_inheritance (st_schema st) l ancestry.*2 = Ok s1 →
  finalize s1 l ancestry.*2 = Ok s2 →
  get_declared_inherited (st_schema st) l = Ok declared →
  merge_key self bases attr backref_attr rei dctx st k
  = if rei && negb declared &&
       match dctx with Some ctx => declarative ctx | None => false end
    then Raise (SchemaDefinitionError self l ancestry.*1)
    else Ok (MergeState s2
               (<[get_key_for s2 l := l]> (st_classrefs st))
               (<[get_key_for s2 l := l]> (st_local_classrefs st))
               (st_calls st ++ [CallAcquire l ancestry.*2;
                                CallFinalize l ancestry.*2])).
Proof.
  intros Hloc Hcol Hanc Hne Hacq Hfin Hdecl. unfold merge_key.
  rewrite Hcol, bind_Ok_l, Hanc, bind_Ok_l, Hloc.
  destruct ancestry as [|[o0 i0] ancestry]; [done|].
  cbn [fmap list_fmap snd] in *. rewrite Hacq, bind_Ok_l, Hfin, bind_Ok_l.
  cbn [negb andb]. destruct rei; cbn [andb]; [|done].
  rewrite Hdecl, bind_Ok_l.
  destruct dctx as [[decl]|]; destruct declared; cbn; try done.
  by destruct decl.
Qed.
End merge_facts.

Section merge_calls.
Context `{Collaborators}.

Lemma ancestry_distinct_owners (s : schema) backref_attr inherited ancestry :
  ancestry_of s backref_attr inherited = Ok ancestry →
  distinct_owners s backref_attr ancestry.*2.
Proof.
  intros Ha. destruct (ancestry_of_spec _ _ _ _ Ha) as [Hnd Hin].
  exists ancestry.*1. split; [|done]. clear Hnd Ha.
  induction ancestry as [|[o p] anc IH]; [done|]. csimpl.
  destruct (Hin o p) as [_ ->]; [left|]. rewrite bind_Ok_l.
  rewrite IH; [done|]. intros o' p' Hop. apply Hin. by right.
Qed.

(** One key of the merge: the calls it adds, and when [derive_from_root] is
    among them. *)
Lemma merge_key_calls self bases attr backref_attr rei dctx st k st' :
  merge_key self bases attr backref_attr rei dctx st k = Ok st' →
  ∃ log, st_calls st' = st_calls st ++ log ∧
    ∀ cls src key mb, CallDeriveFromRoot cls src key mb ∈ log →
      src = self ∧ key = k ∧
      st_local_classrefs st !! k = None ∧
      2 ≤ length mb ∧
      distinct_owners (st_schema st) backref_attr mb.
Proof.
  unfold merge_key. intros Hm.
  apply bind_Ok in Hm as (inh0 & Hcol & Hm).
  apply bind_Ok in Hm as (anc & Hanc & Hm).
  pose proof (ancestry_distinct_owners _ _ _ _ Hanc) as Hown.
  destruct (st_local_classrefs st !! k) as [l|] eqn:Hloc.
  - (* a local member: no synthesis *)
    destruct (anc.*2) as [|i0 rest] eqn:Hinh.
    + cbn in Hm. apply bind_Ok in Hm as (? & _ & Hm). injection Hm as <-.
      exists []. split; [done|]. by intros ???? ?%elem_of_nil.
    + destruct (acquire_ancestor_inheritance _ _ _) as [s1|] eqn:Hacq; [|done].
      rewrite bind_Ok_l in Hm.
      destruct (finalize _ _ _) as [s2|] eqn:Hfin; [|done].
      rewrite bind_Ok_l in Hm.
      apply bind_Ok in Hm as (? & _ & Hm). apply bind_Ok in Hm as (? & _ & Hm).
      injection Hm as <-. eexists. split; [done|].
      intros cls src key mb Hin.
      repeat (apply elem_of_cons in Hin as [Hin | Hin]; [done|]).
      by apply elem_of_nil in Hin.
  - destruct (anc.*2) as [|i0 [|i1 rest]] eqn:Hinh.
    + injection Hm as <-. exists []. rewrite app_nil_r. split; [done|].
      by intros ???? ?%elem_of_nil.
    + (* pure inheritance *)
      destruct (inherit_pure _ _ _) as [[changed merged]|] eqn:Hpure; [|done].
      cbn in Hm. injection Hm as <-. eexists. split; [done|].
      intros cls src key mb Hin.
      apply list_elem_of_singleton in Hin. done.
    + (* synthesis *)
      destruct (derive_from_root _ _ _ _ _) as [[s1 merged]|] eqn:Hder; [|done].
      cbn in Hm. injection Hm as <-. eexists. split; [done|].
      intros cls src key mb Hin.
      apply list_elem_of_singleton in Hin. injection Hin as -> -> -> ->.
      repeat split; [simpl; lia | done].
Qed.

(** The whole loop: every [derive_from_root] call it adds was made for a
    key that had, at that point of the loop, no local entry and at least two
    candidates with pairwise distinct owners. *)
Lemma merge_loop_calls self bases attr backref_attr rei dctx ks st st' :
  foldR (merge_key self bases attr backref_attr rei dctx) ks st = Ok st' →
  ∀ cls src key mb, CallDeriveFromRoot cls src key mb ∈ st_calls st' →
    CallDeriveFromRoot cls src key mb ∈ st_calls st ∨
    ∃ ks1 ks2 st1,
      ks = ks1 ++ key :: ks2 ∧
      foldR (merge_key self bases attr backref_attr rei dctx) ks1 st = Ok st1 ∧
      src = self ∧
      st_local_classrefs st1 !! key = None ∧
      2 ≤ length mb ∧
      distinct_owners (st_schema st1) backref_attr mb.
Proof.
  revert st. induction ks as [|k ks IH]; intros st Hf cls src key mb Hin.
  - injection Hf as <-. by left.
  - simpl in Hf. apply bind_Ok in Hf as (st1 & Hk & Hf).
    destruct (IH st1 Hf cls src key mb Hin) as [Hin1 | Hlater].
    + destruct (merge_key_calls _ _ _ _ _ _ _ _ _ Hk) as (log & Hlog & Hder).
      rewrite Hlog in Hin1. apply elem_of_app in Hin1 as [? | Hin1]; [by left|].
      right. destruct (Hder cls src key mb Hin1) as (-> & -> & Hloc & Hlen & Hown).
      by exists [], ks, st.
    + right. destruct Hlater as (ks1 & ks2 & st2 & -> & Hf1 & Hrest).
      exists (k :: ks1), ks2, st2. split; [done|]. split; [|done].
      simpl. by rewrite Hk.
Qed.
End merge_calls.

Lemma set_field_value_Ok (s : schema) obj o attr coll :
  s !! obj = Some o →
  set_field_value s obj attr coll
  = Ok (<[obj := Object (bases o) (ancestors o) (<[attr := coll]> (refs o))
                        (backrefs o) (declared_inherited o)]> s).
Proof.
  intros Ho. unfold set_field_value. by rewrite (get_object_Some s obj o Ho).
Qed.

Lemma get_field_value_Ok (s : schema) obj o attr :
  s !! obj = Some o → get_field_value s obj attr = Ok (default ∅ (refs o !! attr)).
Proof.
  intros Ho. unfold get_field_value. by rewrite (get_object_Some s obj o Ho).
Qed.

Lemma get_explicit_field_value_Ok (s : schema) obj o attr :
  s !! obj = Some o → get_explicit_field_value s obj attr = Ok (refs o !! attr).
Proof.
  intros Ho. unfold get_explicit_field_value.
  by rewrite (get_object_Some s obj o Ho).
Qed.

Section merge_claims.
Context `{Collaborators}.

Lemma collect_inherited_two (s : schema) B1 B2 attr k c1 c2 m1 m2 :
  get_explicit_field_value s B1 attr = Ok (Some c1) → c1 !! k = Some m1 →
  get_explicit_field_value s B2 attr = Ok (Some c2) → c2 !! k = Some m2 →
  collect_inherited s [B1; B2] attr k = Ok [m1; m2].
Proof.
  intros HB1 Hc1 HB2 Hc2. unfold collect_inherited. cbn [foldR].
  rewrite HB1, bind_Ok_l.
  rewrite decide_False by (intros ->; by rewrite lookup_empty in Hc1).
  rewrite Hc1, bind_Ok_l, HB2, bind_Ok_l.
  rewrite decide_False by (intros ->; by rewrite lookup_empty in Hc2).
  by rewrite Hc2.
Qed.

(** C4: candidates are deduplicated by owner; for [D] with bases
    [[B1, B2]] that both expose the member [am] of a common ancestor under
    the key, and no local member, the merge takes the pure-inheritance
    branch once and files [am] itself in the full collection of [D] (the
    referenced class permitting sharing), the local collection staying as
    it was; and [derive_from_root] is called only for a key with no local
    entry and at least two candidates of pairwise distinct owners. *)
Theorem merge_classref_dict_diamond :
  (∀ (s : schema) D B1 B2 attr local_attr backref_attr rei dctx
     k am c1 c2 owner oD,
     attr ≠ local_attr →
     s !! D = Some oD →
     default ∅ (refs oD !! local_attr) !! k = None →
     get_explicit_field_value s B1 attr = Ok (Some c1) → c1 !! k = Some am →
     get_explicit_field_value s B2 attr = Ok (Some c2) → c2 !! k = Some am →
     get_backref s am backref_attr = Ok owner →
     inherit_pure s am D = Ok (None, am) →
     get_key_for s am = k →
     ancestry_of s backref_attr [am; am] = Ok [(owner, am)] ∧
     ∃ s',
       merge_classref_dict s D [B1; B2] attr local_attr backref_attr
         (Some [k]) rei dctx = Ok (s', [CallInheritPure am D]) ∧
       get_field_value s' D attr
         = Ok (<[k := am]> (default ∅ (refs oD !! attr))) ∧
       get_field_value s' D local_attr
         = Ok (default ∅ (refs oD !! local_attr))) ∧
  (∀ (s : schema) backref_attr inherited ancestry,
     ancestry_of s backref_attr inherited = Ok ancestry →
     NoDup ancestry.*1 ∧
     ∀ o pref, (o, pref) ∈ ancestry →
       pref ∈ inherited ∧ get_backref s pref backref_attr = Ok o) ∧
  (∀ (s : schema) self bases attr local_attr backref_attr keys rei dctx
     s' calls cls src key mb,
     merge_classref_dict s self bases attr local_attr backref_attr keys
       rei dctx = Ok (s', calls) →
     CallDeriveFromRoot cls src key mb ∈ calls →
     src = self ∧ 2 ≤ length mb ∧
     ∃ cr lcr ks1 ks2 st1,
       get_explicit_field_value s self attr = Ok cr ∧
       get_explicit_field_value s self local_attr = Ok lcr ∧
       default (coll_keys (default ∅ cr)) keys = ks1 ++ key :: ks2 ∧
       foldR (merge_key self bases attr backref_attr rei dctx) ks1
         (MergeState s (default ∅ cr) (default ∅ lcr) []) = Ok st1 ∧
       st_local_classrefs st1 !! key = None ∧
       distinct_owners (st_schema st1) backref_attr mb).
Proof.
  split; [|split].
  - intros s D B1 B2 attr local_attr backref_attr rei dctx k am c1 c2 owner oD
      Hattr HD Hloc HB1 Hc1 HB2 Hc2 Hown Hpure Hkey.
    assert (ancestry_of s backref_attr [am; am] = Ok [(owner, am)]) as Hanc.
    { unfold ancestry_of. cbn [mapR]. rewrite Hown, !bind_Ok_l.
      unfold dict_of. simpl. by rewrite decide_True. }
    split; [done|].
    unfold merge_classref_dict.
    rewrite !(get_explicit_field_value_Ok s D oD) by done.
    rewrite !bind_Ok_l. cbn [default from_option id foldR].
    rewrite (merge_key_pure D [B1; B2] attr backref_attr rei dctx _ k
               [am; am] owner am am); cbn [st_schema st_local_classrefs];
      [| done | by eapply collect_inherited_two | done | done].
    rewrite !bind_Ok_l. cbn [st_schema st_classrefs st_local_classrefs st_calls].
    rewrite Hkey.
    rewrite (set_field_value_Ok s D oD) by done. rewrite bind_Ok_l.
    erewrite set_field_value_Ok by apply lookup_insert_eq.
    rewrite bind_Ok_l. eexists. split; [done|].
    erewrite !get_field_value_Ok by apply lookup_insert_eq.
    cbn [refs]. rewrite lookup_insert_eq.
    rewrite lookup_insert_ne by done. by rewrite lookup_insert_eq.
  - intros. by eapply ancestry_of_spec.
  - intros s self bases attr local_attr backref_attr keys rei dctx
      s' calls cls src key mb Hm Hin.
    unfold merge_classref_dict in Hm.
    apply bind_Ok in Hm as (cr & Hcr & Hm).
    apply bind_Ok in Hm as (lcr & Hlcr & Hm).
    apply bind_Ok in Hm as (st & Hloop & Hm).
    apply bind_Ok in Hm as (sa & _ & Hm).
    apply bind_Ok in Hm as (sb & _ & Hm). injection Hm as <- <-.
    destruct (merge_loop_calls _ _ _ _ _ _ _ _ _ Hloop cls src key mb Hin)
      as [?%elem_of_nil | (ks1 & ks2 & st1 & Hks & Hf1 & -> & Hloc & Hlen & Hown)];
      [done|].
    split; [done|]. split; [done|].
    by exists cr, lcr, ks1, ks2, st1.
Qed.
End merge_claims.

Lemma merge_classref_dict_diamond_witness :
  (∃ s',
     @merge_classref_dict ref_collaborators diamond_schema "D" ["B1"; "B2"]
       "pointers" "own_pointers" "source" (Some ["m"]) true None
     = Ok (s', [CallInheritPure "A.m" "D"]) ∧
     get_field_value s' "D" "pointers" = Ok {["m" := "A.m"]} ∧
     get_field_value s' "D" "own_pointers" = Ok ∅) ∧
  (∃ s' calls,
     @merge_classref_dict ref_collaborators fork_schema "D" ["B1"; "B2"]
       "pointers" "own_pointers" "source" (Some ["m"]) true None
     = Ok (s', calls) ∧
     CallDeriveFromRoot "B1.m" "D" "m" ["B1.m"; "B2.m"] ∈ calls ∧
     2 ≤ length ["B1.m"; "B2.m"]).
Proof.
  split.
  - destruct (proj1 (@merge_classref_dict_diamond ref_collaborators)
                diamond_schema "D" "B1" "B2" "pointers" "own_pointers" "source"
                true None "m" "A.m" {["m" := "A.m"]} {["m" := "A.m"]}
                (Some "A") (entity ["B1"; "B2"] {["m" := "A.m"]} ∅))
      as (_ & s' & Hm & Hfull & Hown);
      try reflexivity; [discriminate|].
    exists s'. split; [exact Hm|]. split; [exact Hfull | exact Hown].
  - eexists _, _. split; [vm_compute; reflexivity|]. split; [left|].
    destruct (proj2 (proj2 (@merge_classref_dict_diamond ref_collaborators))
                fork_schema "D" ["B1"; "B2"] "pointers" "own_pointers" "source"
                (Some ["m"]) true None _ _ "B1.m" "D" "m" ["B1.m"; "B2.m"]
                eq_refl) as (_ & Hlen & _); [left | exact Hlen].
Defined.




(** ** Deletion of a referenced member *)

Lemma set_field_value_spec (s : schema) obj attr coll s' :
  set_field_value s obj attr coll = Ok s' →
  get_field_value s' obj attr = Ok coll ∧
  (∀ a, a ≠ attr → get_field_value s' obj a = get_field_value s obj a) ∧
  (∀ n, n ≠ obj → s' !! n = s !! n) ∧
  same_hierarchy s s'.
Proof.
  unfold set_field_value. intros Hs.
  apply bind_Ok in Hs as (o & Ho%get_object_Ok & Hs). injection Hs as <-.
  split; [|split; [|split]].
  - erewrite get_field_value_Ok by apply lookup_insert_eq.
    cbn [refs]. by rewrite lookup_insert_eq.
  - intros a Ha. erewrite get_field_value_Ok by apply lookup_insert_eq.
    rewrite (get_field_value_Ok s obj o) by done.
    cbn [refs]. by rewrite lookup_insert_ne.
  - intros n Hn. by rewrite lookup_insert_ne.
  - intros n. destruct (decide (n = obj)) as [->|Hn].
    + by rewrite lookup_insert_eq, Ho.
    + by rewrite lookup_insert_ne.
Qed.

Lemma get_field_value_other (s s' : schema) obj attr :
  s' !! obj = s !! obj → get_field_value s' obj attr = get_field_value s obj attr.
Proof. intros Hs. unfold get_field_value, get_object. by rewrite Hs. Qed.

Section delete_facts.
Context `{Collaborators}.
Variable rd : refdict.
Hypothesis attrs_differ : attr rd ≠ local_attr rd.

(** The loop over the descendants never touches a local collection or an
    object outside the list, never adds the key, and leaves the key in no
    listed descendant that does not define it locally. *)
Lemma drop_from_descendants_spec (s : schema) ds key s' :
  drop_from_descendants s ds rd key = Ok s' →
  same_hierarchy s s' ∧
  (∀ n, n ∉ ds → s' !! n = s !! n) ∧
  (∀ n, get_field_value s' n (local_attr rd)
        = get_field_value s n (local_attr rd)) ∧
  (∀ n, lacks s n (attr rd) key → lacks s' n (attr rd) key) ∧
  (∀ d, d ∈ ds → lacks s' d (local_attr rd) key → lacks s' d (attr rd) key).
Proof.
  unfold drop_from_descendants. revert s.
  induction ds as [|d ds IH]; intros s Hf.
  - injection Hf as <-. repeat split; try done. by intros d ?%elem_of_nil.
  - cbn [foldR] in Hf. apply bind_Ok in Hf as (s1 & Hstep & Hf).
    destruct (IH s1 Hf) as (Hsame & Hout & Hlocal & Hmono & Hin).
    (* the step on [d] *)
    assert (same_hierarchy s s1 ∧
            (∀ n, n ≠ d → s1 !! n = s !! n) ∧
            (∀ n, get_field_value s1 n (local_attr rd)
                  = get_field_value s n (local_attr rd)) ∧
            (∀ n, lacks s n (attr rd) key → lacks s1 n (attr rd) key) ∧
            (lacks s1 d (local_attr rd) key → lacks s1 d (attr rd) key))
      as (Hsame1 & Hout1 & Hlocal1 & Hmono1 & Hd1).
    { apply bind_Ok in Hstep as (lc & Hlc & Hstep).
      destruct (lc !! key) as [m|] eqn:Hm.
      - injection Hstep as <-. repeat split; try done.
        intros (c & Hc & Hck). congruence.
      - apply bind_Ok in Hstep as (c & Hc & Hstep).
        destruct (set_field_value_spec _ _ _ _ _ Hstep)
          as (Hnew & Hattr & Hoth & Hsm).
        split; [done|]. split; [done|]. split; [|split].
        + intros n. destruct (decide (n = d)) as [->|Hn].
          * by apply Hattr.
          * apply get_field_value_other. by apply Hoth.
        + intros n (c0 & Hc0 & Hk). destruct (decide (n = d)) as [->|Hn].
          * exists (delete key c). split; [done|]. apply lookup_delete_eq.
          * exists c0. split; [|done].
            rewrite <- Hc0. apply get_field_value_other. by apply Hoth.
        + intros _. exists (delete key c). split; [done|]. apply lookup_delete_eq. }
    split; [by eapply same_hierarchy_trans|]. split; [|split; [|split]].
    + intros n Hn. rewrite Hout, Hout1; [done | |];
        intros ?; apply Hn; subst; [left | by right].
    + intros n. by rewrite Hlocal, Hlocal1.
    + auto.
    + intros d' Hd' Hloc. apply elem_of_cons in Hd' as [-> | Hd']; [|by apply Hin].
      apply Hmono, Hd1. destruct Hloc as (lc & Hlc & Hk).
      exists lc. by rewrite <- Hlocal.
Qed.

(** [del_classref] ends by filing the inherited definition under its key
    in the owner's full collection. *)
Lemma del_classref_backfill (s : schema) self key bs inh s' :
  get_bases s self = Ok bs →
  find_inherited s bs (attr rd) key (Raise (UnboundLocalError "inherited"))
    = Ok (Some inh) →
  del_classref s self rd key = Ok s' →
  same_hierarchy s s' ∧
  ∃ sx c, get_field_value s' self (attr rd) = Ok c ∧
          c !! get_key_for sx inh = Some inh.
Proof.
  intros Hbs Hinh Hdel. unfold del_classref in Hdel.
  rewrite Hbs, bind_Ok_l, Hinh, bind_Ok_l in Hdel.
  apply bind_Ok in Hdel as (s1 & Hdrop & Hdel).
  apply bind_Ok in Hdel as (s2 & Hobj & Hdel).
  apply bind_Ok in Hdel as (all_coll & Hall & Hdel).
  destruct (set_field_value_spec _ _ _ _ _ Hdel) as (Hnew & _ & _ & Hsame3).
  split.
  - apply drop_from_descendants_spec in Hdrop as (Hsame1 & _).
    assert (same_hierarchy s1 s2) as Hsame2.
    { clear -Hobj. unfold Object_del_classref in Hobj.
      apply bind_Ok in Hobj as (lc & _ & Hobj).
      apply bind_Ok in Hobj as (ac & _ & Hobj).
      apply bind_Ok in Hobj as (sa & Ha & Hobj).
      assert (same_hierarchy s1 sa) as H1.
      { destruct (lc !! key); [|by injection Ha as <-].
        by apply set_field_value_spec in Ha as (_ & _ & _ & ?). }
      eapply same_hierarchy_trans; [exact H1|].
      destruct (ac !! key); [|by injection Hobj as <-].
      by apply set_field_value_spec in Hobj as (_ & _ & _ & ?). }
    eapply same_hierarchy_trans; [exact Hsame1|].
    by eapply same_hierarchy_trans.
  - exists s2. eexists. split; [exact Hnew|]. apply lookup_insert_eq.
Qed.
End delete_facts.

(** * Further properties *)

(** ** The merge keeps the order and the members of its inputs *)

Lemma merge_loop_sublist fuel obj (origs mros : list (list name)) acc result :
  Forall2 (λ l r, ∃ p, l = p ++ r ∧ p `sublist_of` acc) origs mros →
  merge_loop fuel obj mros acc = Ok result →
  ∀ l, l ∈ origs → l `sublist_of` result.
Proof.
  revert mros acc. induction fuel as [|fuel IH]; intros mros acc Hinv Hm l Hl;
    cbn [merge_loop] in Hm;
    destruct (filter (λ mro, mro ≠ []) mros) as [|m0 ne] eqn:Hne.
  1,3: injection Hm as <-;
       apply list_elem_of_lookup in Hl as [i Hi];
       destruct (Forall2_lookup_l _ _ _ _ _ Hinv Hi) as (r & Hr & p & -> & Hp);
       assert (r = []) as ->;
       [ destruct r as [|x r]; [done|]; exfalso;
         assert (x :: r ∈ filter (λ mro, mro ≠ []) mros) as Hin
           by (apply list_elem_of_filter; split;
               [done | by eapply list_elem_of_lookup_2]);
         rewrite Hne in Hin; by apply elem_of_nil in Hin
       | by rewrite app_nil_r ].
  - done.
  - destruct (find_candidate (m0 :: ne) (m0 :: ne)) as [c|] eqn:Hf; [|done].
    eapply (IH (del_head c <$> mros) (acc ++ [c])); [|exact Hm|exact Hl].
    apply Forall2_fmap_r. eapply Forall2_impl; [exact Hinv|].
    intros o r (p & -> & Hp). destruct r as [|x r]; simpl.
    + exists p. split; [done|]. by apply sublist_inserts_r.
    + case_decide as Hx.
      * subst x. exists (p ++ [c]). split; [by rewrite <- app_assoc|].
        by apply sublist_app.
      * exists p. split; [done|]. by apply sublist_inserts_r.
Qed.

(** At the start of the loop nothing has been taken from any list. *)
Lemma merge_start (mros : list (list name)) :
  Forall2 (λ l r, ∃ p, l = p ++ r ∧ p `sublist_of` []) mros mros.
Proof.
  apply Forall2_same_length_lookup. split; [done|].
  intros i l r Hl Hr. exists []. split; [simpl; congruence | apply sublist_nil_l].
Qed.

Lemma del_head_subseteq c (mro : list name) x : x ∈ del_head c mro → x ∈ mro.
Proof.
  destruct mro as [|y r]; [done|]. simpl. case_decide; [by right | done].
Qed.

Lemma merge_loop_elements fuel obj (mros : list (list name)) acc result x :
  merge_loop fuel obj mros acc = Ok result →
  x ∈ result → x ∈ acc ∨ ∃ l, l ∈ mros ∧ x ∈ l.
Proof.
  revert mros acc. induction fuel as [|fuel IH]; intros mros acc Hm Hx;
    cbn [merge_loop] in Hm;
    destruct (filter (λ mro, mro ≠ []) mros) as [|m0 ne] eqn:Hne.
  1,3: injection Hm as <-; by left.
  - done.
  - destruct (find_candidate (m0 :: ne) (m0 :: ne)) as [c|] eqn:Hf; [|done].
    apply find_candidate_Some in Hf as [(mro & Hin & Hh) _].
    rewrite <- Hne in Hin. apply list_elem_of_filter in Hin as [_ Hin].
    destruct (IH _ _ Hm Hx) as [Hacc | (l & Hl & Hxl)].
    + apply elem_of_app in Hacc as [? | Hc]; [by left|].
      apply list_elem_of_singleton in Hc as ->. right. exists mro.
      split; [done|]. destruct mro; [done|]. injection Hh as ->. left.
    + apply list_elem_of_fmap in Hl as (l0 & -> & Hl0). right. exists l0.
      split; [done|]. by eapply del_head_subseteq.
Qed.

Lemma del_head_NoDup c (mro : list name) : NoDup mro → NoDup (del_head c mro).
Proof.
  destruct mro as [|y r]; [done|]. simpl. intros Hnd.
  case_decide; [by apply NoDup_cons in Hnd as [_ ?] | done].
Qed.

Lemma merge_loop_NoDup fuel obj (mros : list (list name)) acc result :
  Forall NoDup mros → NoDup acc →
  (∀ x l, x ∈ acc → l ∈ mros → x ∉ l) →
  merge_loop fuel obj mros acc = Ok result → NoDup result.
Proof.
  revert mros acc.
  induction fuel as [|fuel IH]; intros mros acc Hnds Hacc Hdisj Hm;
    cbn [merge_loop] in Hm;
    destruct (filter (λ mro, mro ≠ []) mros) as [|m0 ne] eqn:Hne.
  1,3: by injection Hm as <-.
  - done.
  - destruct (find_candidate (m0 :: ne) (m0 :: ne)) as [c|] eqn:Hf; [|done].
    apply find_candidate_Some in Hf as [(mro & Hin & Hh) Htl].
    rewrite <- Hne in Hin, Htl.
    apply list_elem_of_filter in Hin as [_ Hin].
    assert (c ∈ mro) as Hcm by (destruct mro; [done|]; injection Hh as ->; left).
    eapply (IH (del_head c <$> mros) (acc ++ [c])); [| | |exact Hm].
    + apply Forall_fmap. eapply Forall_impl; [exact Hnds|].
      intros l Hl. by apply del_head_NoDup.
    + apply NoDup_app. split; [done|]. split; [|apply NoDup_singleton].
      intros x Hx Hxc. apply list_elem_of_singleton in Hxc as ->.
      by apply (Hdisj c mro).
    + intros x l Hx Hl. apply list_elem_of_fmap in Hl as (l0 & -> & Hl0).
      apply elem_of_app in Hx as [Hx | Hx].
      * intros Hxl. apply (Hdisj x l0 Hx Hl0). by eapply del_head_subseteq.
      * apply list_elem_of_singleton in Hx as ->.
        destruct l0 as [|y r]; [by intros ?%elem_of_nil|].
        assert (c ∉ r) as Hcr.
        { apply (Htl (y :: r)). apply list_elem_of_filter. by split. }
        simpl. case_decide as Hy; [done|].
        intros Hc. apply elem_of_cons in Hc as [-> | Hc]; done.
Qed.

(** X1: when [_merge_mro] returns, every candidate list is a subsequence of
    the result: the merge keeps the relative order of each input list. *)
Theorem _merge_mro_keeps_order obj (mros : list (list name)) result :
  _merge_mro obj mros = Ok result →
  ∀ l, l ∈ mros → l `sublist_of` result.
Proof.
  intros Hm. eapply merge_loop_sublist; [apply merge_start | exact Hm].
Qed.

(** X2: when [_merge_mro] returns, the result holds exactly the members of
    the candidate lists, and holds each once when no candidate list repeats
    a member. *)
Theorem _merge_mro_members obj (mros : list (list name)) result :
  _merge_mro obj mros = Ok result →
  (∀ x, x ∈ result ↔ ∃ l, l ∈ mros ∧ x ∈ l) ∧
  (Forall NoDup mros → NoDup result).
Proof.
  intros Hm. split.
  - intros x. split.
    + intros Hx. destruct (merge_loop_elements _ _ _ _ _ x Hm Hx)
        as [?%elem_of_nil | ?]; done.
    + intros (l & Hl & Hx). eapply elem_of_sublist; [exact Hx|].
      by eapply merge_loop_sublist; [apply merge_start | exact Hm |].
  - intros Hnds. eapply merge_loop_NoDup; [exact Hnds | constructor | | exact Hm].
    by intros x l ?%elem_of_nil.
Qed.

Lemma _merge_mro_keeps_order_witness :
  ["B1"; "X"; "Y"] `sublist_of` ["D"; "B1"; "B2"; "X"; "Y"].
Proof.
  apply (_merge_mro_keeps_order "D"
           [["D"]; ["B1"; "X"; "Y"]; ["B2"; "X"; "Y"]]);
    [reflexivity | right; left].
Defined.

Lemma _merge_mro_members_witness :
  ("Y" ∈ ["D"; "B1"; "B2"; "X"; "Y"] ↔
   ∃ l, l ∈ [["D"]; ["B1"; "X"; "Y"]; ["B2"; "X"; "Y"]] ∧ "Y" ∈ l) ∧
  (Forall NoDup [["D"]; ["B1"; "X"; "Y"]; ["B2"; "X"; "Y"]] →
   NoDup ["D"; "B1"; "B2"; "X"; "Y"]).
Proof.
  destruct (_merge_mro_members "D"
              [["D"]; ["B1"; "X"; "Y"]; ["B2"; "X"; "Y"]]
              ["D"; "B1"; "B2"; "X"; "Y"] eq_refl) as [Hmem Hnd].
  split; [apply Hmem | exact Hnd].
Defined.

(** ** The linearization of an entity *)

Lemma mapR_Forall2 {A B} (f : A → outcome B) l ys :
  mapR f l = Ok ys ↔ Forall2 (λ x y, f x = Ok y) l ys.
Proof.
  revert ys. induction l as [|x l IH]; intros ys; simpl.
  - split; [intros [= <-]; constructor | by intros ->%Forall2_nil_inv_l].
  - split.
    + intros Hm. apply bind_Ok in Hm as (y & Hy & Hm).
      apply bind_Ok in Hm as (ys' & Hys & Hm). injection Hm as <-.
      constructor; [done | by apply IH].
    + intros Hf. apply Forall2_cons_inv_l in Hf as (y & ys' & Hy & Hys & ->).
      rewrite Hy. simpl. apply IH in Hys. by rewrite Hys.
Qed.

Lemma merge_loop_prefix fuel obj (mros : list (list name)) acc result :
  merge_loop fuel obj mros acc = Ok result → acc `prefix_of` result.
Proof.
  revert mros acc. induction fuel as [|fuel IH]; intros mros acc Hm;
    cbn [merge_loop] in Hm;
    destruct (filter (λ mro, mro ≠ []) mros) as [|m0 ne] eqn:Hne.
  1,3: by injection Hm as <-.
  - done.
  - destruct (find_candidate (m0 :: ne) (m0 :: ne)) as [c|]; [|done].
    apply IH in Hm. etrans; [|exact Hm]. by apply prefix_app_r.
Qed.

(** A single list without repetition is merged into itself. *)
Lemma merge_loop_single fuel obj (l acc : list name) :
  NoDup l → length l ≤ fuel →
  merge_loop fuel obj [[]; l] acc = Ok (acc ++ l).
Proof.
  revert fuel acc. induction l as [|x l IH]; intros fuel acc Hnd Hlen.
  { destruct fuel; cbn; by rewrite app_nil_r. }
  destruct fuel as [|fuel]; [simpl in Hlen; lia|].
  apply NoDup_cons in Hnd as [Hx Hnd].
  cbn [merge_loop].
  assert (filter (λ mro : list name, mro ≠ []) [[]; x :: l] = [x :: l]) as ->.
  { rewrite filter_cons, decide_False by (intros ?; done).
    rewrite filter_cons, decide_True by done. done. }
  cbn [find_candidate].
  assert (tails [x :: l] x = []) as ->.
  { apply tails_nil. intros m ->%list_elem_of_singleton. done. }
  cbn [fmap list_fmap del_head]. rewrite decide_True by done.
  rewrite (IH fuel (acc ++ [x]) Hnd) by (simpl in Hlen; lia).
  by rewrite <- app_assoc.
Qed.

(** More recursion budget does not change a linearization. *)
Lemma compute_mro_fuel_mono fuel fuel' (s : schema) obj mro :
  compute_mro fuel s obj = Ok mro → fuel ≤ fuel' →
  compute_mro fuel' s obj = Ok mro.
Proof.
  revert fuel' obj mro. induction fuel as [|fuel IH]; intros fuel' obj mro Hm Hle;
    [done|].
  destruct fuel' as [|fuel']; [lia|]. simpl in *.
  destruct (get_bases s obj) as [bs|]; [|done]. simpl in *.
  apply bind_Ok in Hm as (mros & Hmros & Hm).
  assert (mapR (compute_mro fuel' s) bs = Ok mros) as ->; [|done].
  apply mapR_Forall2. apply mapR_Forall2 in Hmros.
  eapply Forall2_impl; [exact Hmros|]. intros b mb Hb. apply IH; [done | lia].
Qed.

Lemma compute_mro_fuel_agree f1 f2 (s : schema) obj m1 m2 :
  compute_mro f1 s obj = Ok m1 → compute_mro f2 s obj = Ok m2 → m1 = m2.
Proof.
  intros H1 H2.
  pose proof (compute_mro_fuel_mono f1 (f1 `max` f2) s obj m1 H1 ltac:(lia)) as H1'.
  pose proof (compute_mro_fuel_mono f2 (f1 `max` f2) s obj m2 H2 ltac:(lia)) as H2'.
  congruence.
Qed.

(** The parts of one level of [compute_mro]. *)
Lemma compute_mro_S_Ok fuel (s : schema) obj mro :
  compute_mro (S fuel) s obj = Ok mro →
  ∃ bs mros,
    get_bases s obj = Ok bs ∧
    Forall2 (λ b mb, compute_mro fuel s b = Ok mb) bs mros ∧
    _merge_mro obj ([obj] :: mros) = Ok mro.
Proof.
  simpl. intros Hm. apply bind_Ok in Hm as (bs & Hbs & Hm).
  apply bind_Ok in Hm as (mros & Hmros & Hm).
  exists bs, mros. split; [done|]. split; [by apply mapR_Forall2 | done].
Qed.

(** A member of a linearization is the entity or a member of the
    linearization of one of its bases. *)
Lemma compute_mro_member_base fuel (s : schema) obj mro y :
  compute_mro (S fuel) s obj = Ok mro → y ∈ mro → y ≠ obj →
  ∃ b mb, compute_mro fuel s b = Ok mb ∧ y ∈ mb ∧ mb `sublist_of` mro.
Proof.
  intros Hm Hy Hne.
  apply compute_mro_S_Ok in Hm as (bs & mros & Hbs & Hmros & Hm).
  destruct (merge_loop_elements _ _ _ _ _ y Hm Hy)
    as [?%elem_of_nil | (l & Hl & Hyl)]; [done|].
  pose proof (merge_loop_sublist _ _ _ _ _ _ (merge_start _) Hm l Hl) as Hsub.
  apply elem_of_cons in Hl as [-> | Hl].
  { by apply list_elem_of_singleton in Hyl. }
  apply list_elem_of_lookup in Hl as [i Hi].
  destruct (Forall2_lookup_r _ _ _ _ _ Hmros Hi) as (b & Hb & Hmb).
  by exists b, l.
Qed.

(** Every member of a linearization has a linearization of its own, which
    is a subsequence of the first, and is computed with less budget when
    the member is not the entity. *)
Lemma compute_mro_member_fuel fuel (s : schema) obj mro y :
  compute_mro fuel s obj = Ok mro → y ∈ mro →
  ∃ fuel' my, compute_mro fuel' s y = Ok my ∧ my `sublist_of` mro ∧
              fuel' ≤ fuel ∧ (y ≠ obj → fuel' < fuel).
Proof.
  revert obj mro. induction fuel as [|fuel IH]; intros obj mro Hm Hy; [done|].
  destruct (decide (y = obj)) as [->|Hne].
  { exists (S fuel), mro. split; [done|]. split; [done|]. split; [lia | done]. }
  destruct (compute_mro_member_base _ _ _ _ _ Hm Hy Hne)
    as (b & mb & Hmb & Hymb & Hsub).
  destruct (IH b mb Hmb Hymb) as (f' & my & Hmy & Hsub' & Hle & _).
  exists f', my. split; [done|]. split; [by etrans|]. split; [lia|].
  intros _. lia.
Qed.

(** Two distinct entities are not in each other's linearization. *)
Lemma compute_mro_antisym fuel f (s : schema) obj mro y my :
  compute_mro fuel s obj = Ok mro → y ∈ mro → y ≠ obj →
  compute_mro f s y = Ok my → obj ∉ my.
Proof.
  revert f obj mro y my. induction (lt_wf fuel) as [fuel _ IH].
  intros f obj mro y my Hm Hy Hne Hmy Hin.
  destruct (compute_mro_member_fuel _ _ _ _ _ Hm Hy)
    as (f1 & my1 & Hmy1 & _ & _ & Hlt).
  assert (my1 = my) as -> by (by eapply compute_mro_fuel_agree).
  destruct (compute_mro_member_fuel _ _ _ _ _ Hmy1 Hin)
    as (f2 & mro2 & Hm2 & _ & _ & Hlt2).
  assert (mro2 = mro) as -> by (by eapply compute_mro_fuel_agree).
  apply (IH f2 ltac:(specialize (Hlt Hne); specialize (Hlt2 ltac:(done)); lia)
            f1 obj mro y my); done.
Qed.

(** An entity is in the linearization of none of its bases. *)
Lemma compute_mro_not_in_base fuel (s : schema) obj mro bs b mb :
  compute_mro (S fuel) s obj = Ok mro →
  get_bases s obj = Ok bs → b ∈ bs →
  compute_mro fuel s b = Ok mb → obj ∉ mb.
Proof.
  revert mro mb. induction (lt_wf fuel) as [fuel _ IH].
  intros mro mb Hm Hbs Hb Hmb Hin.
  destruct (compute_mro_member_fuel fuel s b mb obj Hmb Hin)
    as (f' & m' & Hm' & _ & Hle & _).
  destruct f' as [|f'']; [done|].
  pose proof Hm' as Hm''.
  apply compute_mro_S_Ok in Hm'' as (bs' & mros' & Hbs' & Hmros' & _).
  assert (bs' = bs) as -> by congruence.
  apply list_elem_of_lookup in Hb as [i Hi].
  destruct (Forall2_lookup_l _ _ _ _ _ Hmros' Hi) as (mb' & _ & Hmb').
  assert (mb' = mb) as -> by (by eapply compute_mro_fuel_agree).
  apply (IH f'' ltac:(lia) m' mb Hm' Hbs);
    [by eapply list_elem_of_lookup_2 | done | done].
Qed.

Lemma compute_mro_NoDup fuel (s : schema) obj mro :
  compute_mro fuel s obj = Ok mro → NoDup mro.
Proof.
  revert obj mro. induction fuel as [|fuel IH]; intros obj mro Hm; [done|].
  apply compute_mro_S_Ok in Hm as (bs & mros & Hbs & Hmros & Hm).
  eapply merge_loop_NoDup; [| constructor | | exact Hm].
  - constructor; [apply NoDup_singleton|].
    apply Forall_forall. intros l Hl. apply list_elem_of_lookup in Hl as [i Hi].
    destruct (Forall2_lookup_r _ _ _ _ _ Hmros Hi) as (b & _ & Hmb). by eapply IH.
  - by intros x l ?%elem_of_nil.
Qed.

(** The head of a list belongs to it. *)
Lemma head_elem_of {A} (l : list A) x : head l = Some x → x ∈ l.
Proof. destruct l; [done|]. intros [= ->]. left. Qed.

Lemma compute_mro_head fuel (s : schema) obj mro :
  compute_mro fuel s obj = Ok mro → head mro = Some obj.
Proof.
  intros Hm. destruct fuel as [|fuel]; [done|]. pose proof Hm as Hm0.
  apply compute_mro_S_Ok in Hm as (bs & mros & Hbs & Hmros & Hm).
  unfold _merge_mro in Hm.
  destruct (length (concat ([obj] :: mros))) as [|n] eqn:Hn; [done|].
  cbn [merge_loop] in Hm.
  rewrite filter_cons, decide_True in Hm by done.
  cbn [find_candidate] in Hm.
  assert (tails ([obj] :: filter (λ mro, mro ≠ []) mros) obj = []) as Ht.
  { apply tails_nil. intros m Hin Htl.
    apply elem_of_cons in Hin as [-> | Hin]; [by apply elem_of_nil in Htl|].
    apply list_elem_of_filter in Hin as [_ Hin].
    apply list_elem_of_lookup in Hin as [i Hi].
    destruct (Forall2_lookup_r _ _ _ _ _ Hmros Hi) as (b & Hb & Hmb).
    apply (compute_mro_not_in_base fuel s obj mro bs b m Hm0 Hbs);
      [by eapply list_elem_of_lookup_2 | done |].
    destruct m; [done | by right]. }
  rewrite Ht in Hm. apply merge_loop_prefix in Hm as [k ->]. done.
Qed.

(** X3: a linearization that [compute_mro] returns starts with the entity
    itself, holds it nowhere else and holds no member twice: no entity is
    its own ancestor. *)
Theorem compute_mro_self_first fuel (s : schema) obj mro :
  compute_mro fuel s obj = Ok mro →
  ∃ ancs, mro = obj :: ancs ∧ (obj ∉ ancs) ∧ NoDup ancs.
Proof.
  intros Hm. pose proof (compute_mro_NoDup _ _ _ _ Hm) as Hnd.
  apply compute_mro_head in Hm.
  destruct mro as [|x ancs]; [done|]. injection Hm as ->.
  apply NoDup_cons in Hnd as [Hx Hancs]. by exists ancs.
Qed.

Lemma compute_mro_self_first_witness :
  ∃ ancs, ["D"; "B1"; "B2"; "A"] = "D" :: ancs ∧ ("D" ∉ ancs) ∧ NoDup ancs.
Proof.
  apply (compute_mro_self_first 3 diamond_schema "D"). vm_compute. reflexivity.
Defined.

(** X4: the linearization is monotone: every member of the linearization of
    an entity has a linearization of its own, and that one is a subsequence
    of the entity's. *)
Theorem compute_mro_monotone fuel (s : schema) obj mro y :
  compute_mro fuel s obj = Ok mro → y ∈ mro →
  ∃ my, compute_mro fuel s y = Ok my ∧ my `sublist_of` mro.
Proof.
  intros Hm Hy.
  destruct (compute_mro_member_fuel _ _ _ _ _ Hm Hy)
    as (f' & my & Hmy & Hsub & Hle & _).
  exists my. split; [by eapply compute_mro_fuel_mono | done].
Qed.

Lemma compute_mro_monotone_witness :
  ∃ my, compute_mro 3 diamond_schema "B2" = Ok my ∧
        my `sublist_of` ["D"; "B1"; "B2"; "A"].
Proof.
  apply (compute_mro_monotone 3 diamond_schema "D");
    [vm_compute; reflexivity | right; right; left].
Defined.

(** X5: an entity without bases is its whole linearization. *)
Theorem compute_mro_root fuel (s : schema) obj :
  get_bases s obj = Ok [] → compute_mro (S fuel) s obj = Ok [obj].
Proof.
  intros Hbs. cbn [compute_mro]. rewrite Hbs.
  cbn [mbind outcome_bind mapR mret outcome_ret].
  unfold _merge_mro. cbn [concat app length merge_loop].
  rewrite filter_cons, decide_True by done.
  cbn [filter list_filter find_candidate].
  assert (tails [[obj]] obj = []) as ->.
  { apply tails_nil. intros m ->%list_elem_of_singleton. apply not_elem_of_nil. }
  cbn [fmap list_fmap del_head]. by rewrite decide_True.
Qed.

Lemma compute_mro_root_witness : compute_mro 1 family_schema "G" = Ok ["G"].
Proof. apply (compute_mro_root 0 family_schema "G"). vm_compute. reflexivity. Defined.

(** X6: under single inheritance the linearization is the entity followed
    by the linearization of its base. *)
Theorem compute_mro_single_inheritance fuel (s : schema) obj b mb :
  get_bases s obj = Ok [b] → compute_mro fuel s b = Ok mb →
  compute_mro (S fuel) s obj = Ok (obj :: mb).
Proof.
  intros Hbs Hmb.
  assert (obj ∉ mb) as Hnot.
  { intros Hin.
    destruct (compute_mro_member_fuel _ _ _ _ _ Hmb Hin)
      as (f' & m' & Hm' & _ & Hle & _).
    eapply (compute_mro_not_in_base fuel s obj m' [b] b mb);
      [eapply compute_mro_fuel_mono; [exact Hm' | lia]
      | done | left | done | done]. }
  pose proof (compute_mro_NoDup _ _ _ _ Hmb) as Hnd.
  cbn [compute_mro]. rewrite Hbs. cbn [mbind outcome_bind mapR].
  rewrite Hmb. cbn [mbind outcome_bind mret outcome_ret].
  unfold _merge_mro. cbn [concat app length merge_loop].
  rewrite filter_cons, decide_True by done.
  cbn [find_candidate].
  assert (tails ([obj] :: filter (λ mro, mro ≠ []) [mb]) obj = []) as ->.
  { apply tails_nil. intros m Hin Htl.
    apply elem_of_cons in Hin as [-> | Hin]; [by apply elem_of_nil in Htl|].
    apply list_elem_of_filter in Hin as [_ ->%list_elem_of_singleton].
    apply Hnot. destruct mb; [done | by right]. }
  cbn [fmap list_fmap del_head]. rewrite decide_True by done.
  assert (del_head obj mb = mb) as ->.
  { destruct mb as [|x r]; [done|]. simpl. rewrite decide_False; [done|].
    intros ->. apply Hnot. left. }
  rewrite app_nil_r.
  by rewrite merge_loop_single.
Qed.

Lemma compute_mro_single_inheritance_witness :
  compute_mro 3 family_schema "D1" = Ok ["D1"; "P"; "G"].
Proof.
  apply (compute_mro_single_inheritance 2 family_schema "D1" "P" ["P"; "G"]);
    vm_compute; reflexivity.
Defined.

(** ** Queries on the linearization *)

(** X7: on the entities that have a linearization, [_issubclass] is a
    partial order: it holds of an entity and itself, it is transitive, and
    it holds both ways only between an entity and itself. *)
Theorem _issubclass_partial_order fuel (s : schema) a b c :
  is_Ok (compute_mro fuel s a) →
  _issubclass fuel s a a = Ok true ∧
  (_issubclass fuel s a b = Ok true → _issubclass fuel s b c = Ok true →
   _issubclass fuel s a c = Ok true) ∧
  (_issubclass fuel s a b = Ok true → _issubclass fuel s b a = Ok true →
   a = b).
Proof.
  intros [ma Hma]. unfold _issubclass. rewrite Hma.
  cbn [mbind outcome_bind]. split; [|split].
  - rewrite bool_decide_eq_true_2; [done|].
    by eapply head_elem_of, compute_mro_head.
  - intros [= Hb%bool_decide_eq_true] Hbc.
    apply bind_Ok in Hbc as (mb & Hmb & [= Hc%bool_decide_eq_true]).
    destruct (compute_mro_member_fuel _ _ _ _ _ Hma Hb)
      as (f' & mb' & Hmb' & Hsub & _).
    assert (mb' = mb) as -> by (by eapply compute_mro_fuel_agree).
    rewrite bool_decide_eq_true_2; [done|]. by eapply elem_of_sublist.
  - intros [= Hb%bool_decide_eq_true] Hba.
    apply bind_Ok in Hba as (mb & Hmb & [= Ha%bool_decide_eq_true]).
    destruct (decide (a = b)) as [|Hne]; [done|]. exfalso.
    by eapply (compute_mro_antisym fuel fuel s a ma b mb).
Qed.

Lemma _issubclass_partial_order_witness :
  _issubclass 3 diamond_schema "D" "D" = Ok true ∧
  (_issubclass 3 diamond_schema "D" "B1" = Ok true →
   _issubclass 3 diamond_schema "B1" "A" = Ok true →
   _issubclass 3 diamond_schema "D" "A" = Ok true) ∧
  (_issubclass 3 diamond_schema "D" "B1" = Ok true →
   _issubclass 3 diamond_schema "B1" "D" = Ok true → "D" = "B1").
Proof.
  apply (_issubclass_partial_order 3 diamond_schema "D" "B1" "A").
  eexists. vm_compute. reflexivity.
Defined.

(** X8: every direct base of an entity with a linearization is one of its
    ancestors, and so is every ancestor of a base. *)
Theorem _issubclass_bases fuel (s : schema) obj bs b :
  is_Ok (compute_mro fuel s obj) → get_bases s obj = Ok bs → b ∈ bs →
  _issubclass fuel s obj b = Ok true ∧
  ∀ x, _issubclass fuel s b x = Ok true → _issubclass fuel s obj x = Ok true.
Proof.
  intros [mro Hm] Hbs Hb. destruct fuel as [|fuel]; [done|].
  pose proof Hm as Hm0.
  apply compute_mro_S_Ok in Hm as (bs' & mros & Hbs' & Hmros & Hm).
  assert (bs' = bs) as -> by congruence.
  apply list_elem_of_lookup in Hb as [i Hi].
  destruct (Forall2_lookup_l _ _ _ _ _ Hmros Hi) as (mb & Hmbi & Hmb).
  assert (mb `sublist_of` mro) as Hsub.
  { eapply merge_loop_sublist; [apply merge_start | exact Hm |].
    right. by eapply list_elem_of_lookup_2. }
  unfold _issubclass. rewrite Hm0. cbn [mbind outcome_bind]. split.
  - rewrite bool_decide_eq_true_2; [done|].
    eapply elem_of_sublist; [|exact Hsub].
    by eapply head_elem_of, compute_mro_head.
  - intros x Hx.
    apply bind_Ok in Hx as (mb' & Hmb' & [= Hx%bool_decide_eq_true]).
    assert (mb' = mb) as -> by (by eapply compute_mro_fuel_agree).
    rewrite bool_decide_eq_true_2; [done|]. by eapply elem_of_sublist.
Qed.

Lemma _issubclass_bases_witness :
  _issubclass 3 diamond_schema "D" "B2" = Ok true ∧
  ∀ x, _issubclass 3 diamond_schema "B2" x = Ok true →
       _issubclass 3 diamond_schema "D" x = Ok true.
Proof.
  apply (_issubclass_bases 3 diamond_schema "D" ["B1"; "B2"] "B2");
    [eexists; vm_compute; reflexivity | vm_compute; reflexivity
    | right; left].
Defined.

Lemma first_concrete_spec (is_abstract : name → bool) l :
  match first_concrete is_abstract l with
  | Some a => ∃ pre post, l = pre ++ a :: post ∧ is_abstract a = false ∧
                          Forall (λ x, is_abstract x = true) pre
  | None => Forall (λ x, is_abstract x = true) l
  end.
Proof.
  induction l as [|x l IH]; simpl; [constructor|].
  destruct (is_abstract x) eqn:Hx.
  - destruct (first_concrete is_abstract l) as [a|].
    + destruct IH as (pre & post & -> & Ha & Hpre).
      exists (x :: pre), post. split; [done|]. split; [done | by constructor].
    + by constructor.
  - exists [], l. split; [done|]. split; [done | constructor].
Qed.

(** X9: for an entity with a linearization, [get_topmost_concrete_base]
    returns the last member of the linearization that is not abstract, and
    it raises exactly when every member, the entity included, is
    abstract. *)
Theorem get_topmost_concrete_base_last fuel (is_abstract : name → bool)
    (s : schema) self mro :
  compute_mro fuel s self = Ok mro →
  match get_topmost_concrete_base fuel is_abstract s self with
  | Topmost a =>
      ∃ pre post, mro = pre ++ a :: post ∧ is_abstract a = false ∧
                  Forall (λ x, is_abstract x = true) post
  | NoConcreteAncestor obj =>
      obj = self ∧ is_abstract self = true ∧
      Forall (λ x, is_abstract x = true) mro
  | MroFailed _ => False
  end.
Proof.
  intros Hm. unfold get_topmost_concrete_base. rewrite Hm.
  pose proof (first_concrete_spec is_abstract (reverse mro)) as Hf.
  destruct (first_concrete is_abstract (reverse mro)) as [a|].
  - destruct Hf as (pre & post & Hrev & Ha & Hpre).
    exists (reverse post), (reverse pre). split; [|split; [done|]].
    + rewrite <- (reverse_involutive mro), Hrev.
      by rewrite reverse_app, reverse_cons, <- app_assoc.
    + by apply Forall_reverse.
  - apply Forall_reverse in Hf. rewrite reverse_involutive in Hf.
    split; [done|]. split; [|done].
    eapply Forall_forall in Hf; [exact Hf|].
    by eapply head_elem_of, compute_mro_head.
Qed.

Lemma get_topmost_concrete_base_last_witness :
  ∃ pre post, ["D"; "B1"; "B2"; "A"] = pre ++ "B2" :: post ∧
              bool_decide ("B2" = "A") = false ∧
              Forall (λ x, bool_decide (x = "A") = true) post.
Proof.
  assert (compute_mro 3 diamond_schema "D" = Ok ["D"; "B1"; "B2"; "A"]) as Hm
    by (vm_compute; reflexivity).
  apply (get_topmost_concrete_base_last 3 (λ n, bool_decide (n = "A"))) in Hm.
  vm_compute (get_topmost_concrete_base _ _ _ _) in Hm. exact Hm.
Defined.

(** ** The edit script of [delta_bases] *)

(** Walking a list against itself matches every base and buffers none. *)
Lemma walk_new_bases_same (l : list name) n k added groups :
  length l - k = S n →
  walk_new_bases l (drop k l) (WalkState k added [] groups)
    = Ok (WalkState (length l) added [] groups).
Proof.
  revert k. induction n as [|n IH]; intros k Hk.
  - destruct (lookup_lt_is_Some_2 l k ltac:(lia)) as [c Hc].
    rewrite (drop_S _ _ _ Hc). cbn [walk_new_bases j]. rewrite Hc.
    rewrite decide_True by done. cbn [added_base_refs j added_set walk_added_bases].
    rewrite decide_True by lia. do 2 f_equal. lia.
  - destruct (lookup_lt_is_Some_2 l k ltac:(lia)) as [c Hc].
    rewrite (drop_S _ _ _ Hc). cbn [walk_new_bases j]. rewrite Hc.
    rewrite decide_True by done. cbn [added_base_refs j added_set walk_added_bases].
    rewrite decide_False by lia. rewrite Nat.add_1_r. apply IH. lia.
Qed.

(** X10: the edit script between a base list and itself is empty: nothing
    removed, no group added. *)
Theorem delta_bases_same (bases : list name) :
  delta_bases bases bases = Ok ([], []).
Proof.
  unfold delta_bases.
  rewrite (difference_diag_L (list_to_set bases : gset name)).
  rewrite elements_empty.
  rewrite (filter_all (λ b, b ∉ (∅ : gset name)))
    by (intros b _; apply not_elem_of_empty).
  destruct bases as [|b0 bs] eqn:Hb; [done|]. rewrite <- Hb.
  pose proof (walk_new_bases_same bases (length bs) 0 ∅ []) as Hw.
  rewrite drop_0 in Hw. rewrite Hw by (subst; simpl; lia).
  cbn [mbind outcome_bind added_base_refs added_set walk_added_bases app].
  rewrite filter_none; [done|]. intros b Hin [_ Hn]. done.
Qed.

(** Every buffered or registered name ends in a group or in the buffer. *)
Lemma walk_new_bases_registered common new_bases st st' :
  walk_new_bases common new_bases st = Ok st' →
  (∀ b, b ∈ added_set st →
        b ∈ added_base_refs st ∨ ∃ g, g ∈ walk_added_bases st ∧ b ∈ g.1) →
  (∀ g, g ∈ walk_added_bases st → g.1 ≠ []) →
  (∀ b, b ∈ added_set st' →
        b ∈ added_base_refs st' ∨ ∃ g, g ∈ walk_added_bases st' ∧ b ∈ g.1) ∧
  (∀ g, g ∈ walk_added_bases st' → g.1 ≠ []).
Proof.
  revert st. induction new_bases as [|base rest IH]; intros st Hw Hreg Hne.
  { injection Hw as <-. done. }
  cbn [walk_new_bases] in Hw.
  destruct (common !! j st) as [c|]; [|done].
  destruct (decide (c = base)) as [->|Hcb].
  - assert (∀ st1, st1 = match added_base_refs st with
                         | [] => st
                         | _ :: _ =>
                             WalkState (j st) (added_set st) []
                               (walk_added_bases st
                                  ++ [(added_base_refs st, BEFORE base)])
                         end →
            (∀ b, b ∈ added_set st1 →
               b ∈ added_base_refs st1 ∨
               ∃ g, g ∈ walk_added_bases st1 ∧ b ∈ g.1) ∧
            (∀ g, g ∈ walk_added_bases st1 → g.1 ≠ [])) as Hflush.
    { intros st1 ->. destruct (added_base_refs st) as [|r rs] eqn:Hrs.
      - split; [|done]. intros b Hb. rewrite Hrs. by apply Hreg.
      - cbn [added_set added_base_refs walk_added_bases]. split.
        + intros b Hb. right. destruct (Hreg b Hb) as [Hin | (g & Hg & Hin)].
          * exists (r :: rs, BEFORE base). split; [|done].
            apply elem_of_app. right. left.
          * exists g. split; [|done]. apply elem_of_app. by left.
        + intros g Hg. apply elem_of_app in Hg as [Hg | Hg]; [by apply Hne|].
          by apply list_elem_of_singleton in Hg as ->. }
    specialize (Hflush _ eq_refl). destruct Hflush as [Hreg1 Hne1].
    case_decide as Hbr.
    + injection Hw as <-. done.
    + eapply IH; [exact Hw | done | done].
  - eapply IH; [exact Hw | |done].
    cbn [added_set added_base_refs walk_added_bases]. intros b Hb.
    apply elem_of_union in Hb as [Hb | Hb].
    + apply elem_of_singleton in Hb as ->. left. apply elem_of_app. right. left.
    + destruct (Hreg b Hb) as [Hin | ?]; [|by right].
      left. apply elem_of_app. by left.
Qed.

(** X11: the script [delta_bases] returns is complete: [removed] lists,
    each once, exactly the old bases that are not new bases; every new base
    that is not an old base is in some added group; and no group is
    empty. *)
Theorem delta_bases_complete old_bases new_bases removed added :
  delta_bases old_bases new_bases = Ok (removed, added) →
  (NoDup removed ∧ ∀ b, b ∈ removed ↔ b ∈ old_bases ∧ b ∉ new_bases) ∧
  (∀ b, b ∈ new_bases → b ∉ old_bases → ∃ g, g ∈ added ∧ b ∈ g.1) ∧
  (∀ g, g ∈ added → g.1 ≠ []).
Proof.
  intros Hd. split.
  { split; [|intros b; by eapply delta_bases_dropped].
    unfold delta_bases in Hd. apply bind_Ok in Hd as (st & _ & Hd).
    injection Hd as <- _. apply NoDup_elements. }
  unfold delta_bases in Hd.
  apply bind_Ok in Hd as (st & Hst & Hd). injection Hd as _ <-.
  set (common := filter (λ b, b ∉ (list_to_set old_bases ∖ list_to_set new_bases
                                   : gset name)) old_bases) in *.
  assert ((∀ b, b ∈ added_set st →
             b ∈ added_base_refs st ∨ ∃ g, g ∈ walk_added_bases st ∧ b ∈ g.1) ∧
          (∀ g, g ∈ walk_added_bases st → g.1 ≠ [])) as [Hreg Hne].
  { destruct common as [|c0 cs].
    - injection Hst as <-. split; [set_solver | by intros g ?%elem_of_nil].
    - eapply walk_new_bases_registered; [exact Hst | set_solver |].
      by intros g ?%elem_of_nil. }
  set (tail_bases := added_base_refs st ++
         filter (λ b, (b ∉ added_set st) ∧ (b ∉ common)) new_bases) in *.
  split.
  - intros b Hnew Hold.
    assert (b ∉ common) as Hcommon.
    { intros Hc. apply delta_bases_common in Hc as [? _]. done. }
    assert (b ∈ tail_bases ∨ ∃ g, g ∈ walk_added_bases st ∧ b ∈ g.1)
      as [Htail | (g & Hg & Hb)].
    { destruct (decide (b ∈ added_set st)) as [Hin | Hnin].
      - destruct (Hreg b Hin) as [? | ?]; [left | by right].
        apply elem_of_app. by left.
      - left. apply elem_of_app. right. apply list_elem_of_filter. done. }
    + destruct tail_bases as [|t ts] eqn:Ht; [by apply elem_of_nil in Htail|].
      exists (t :: ts, LAST). split; [|done]. apply elem_of_app. right. left.
    + exists g. split; [|done].
      destruct tail_bases; [done | apply elem_of_app; by left].
  - intros g Hg. destruct tail_bases as [|t ts] eqn:Ht; [by apply Hne|].
    apply elem_of_app in Hg as [Hg | Hg]; [by apply Hne|].
    by apply list_elem_of_singleton in Hg as ->.
Qed.

Lemma delta_bases_complete_witness :
  (NoDup ["C"; "A"] ∧ ∀ b, b ∈ ["C"; "A"] ↔ b ∈ ["A"; "B"; "C"] ∧ b ∉ ["D"; "B"; "E"]) ∧
  (∀ b, b ∈ ["D"; "B"; "E"] → b ∉ ["A"; "B"; "C"] →
        ∃ g, g ∈ [(["D"], BEFORE "B"); (["E"], LAST)] ∧ b ∈ g.1) ∧
  (∀ g, g ∈ [(["D"], BEFORE "B"); (["E"], LAST)] → g.1 ≠ []).
Proof.
  apply (delta_bases_complete ["A"; "B"; "C"] ["D"; "B"; "E"]).
  vm_compute. reflexivity.
Defined.

(** ** The reconstruction of the base list *)

Lemma list_remove_first_sublist b (l : list name) :
  list_remove_first b l `sublist_of` l.
Proof.
  induction l as [|x l IH]; simpl; [done|].
  case_decide; [by apply sublist_cons | by apply sublist_skip].
Qed.

Lemma list_remove_first_filter (R : gset name) b (l : list name) :
  b ∈ R → filter (λ x, x ∉ R) (list_remove_first b l) = filter (λ x, x ∉ R) l.
Proof.
  intros Hb. induction l as [|x l IH]; simpl; [done|].
  destruct (decide (x = b)) as [->|Hx].
  - by rewrite filter_cons, decide_False by (intros Hn; by apply Hn).
  - rewrite !filter_cons. by rewrite IH.
Qed.

(** The removal loop only removes, and only bases named for removal; it
    registers only bases it keeps. *)
Lemma remove_loop_keeps R fuel i (bases : list name) ex bases' ex' :
  remove_loop fuel i R bases ex = (bases', ex') →
  bases' `sublist_of` bases ∧
  filter (λ b, b ∉ R) bases' = filter (λ b, b ∉ R) bases ∧
  ∀ b, b ∈ ex' → b ∈ ex ∨ (b ∈ bases' ∧ b ∉ R).
Proof.
  revert i bases ex. induction fuel as [|fuel IH]; intros i bases ex Hr.
  { injection Hr as <- <-. split; [done|]. split; [done | by left]. }
  cbn [remove_loop] in Hr. destruct (bases !! i) as [b|] eqn:Hb.
  2: { injection Hr as <- <-. split; [done|]. split; [done | by left]. }
  destruct (decide (b ∈ R)) as [HbR | HbR].
  - destruct (IH _ _ _ Hr) as (Hsub & Hfil & Hex).
    split; [etrans; [exact Hsub | apply list_remove_first_sublist]|].
    split; [by rewrite Hfil, list_remove_first_filter | done].
  - destruct (IH _ _ _ Hr) as (Hsub & Hfil & Hex).
    split; [done|]. split; [done|]. intros x Hx.
    destruct (Hex x Hx) as [Hx' | ?]; [|by right].
    apply elem_of_union in Hx' as [Hx' | ?]; [|by left].
    apply elem_of_singleton in Hx'. subst x.
    right. split; [|done].
    assert (b ∈ filter (λ b, b ∉ R) bases') as Hin.
    { rewrite Hfil. apply list_elem_of_filter. split; [done|].
      by eapply list_elem_of_lookup_2. }
    by apply list_elem_of_filter in Hin as [_ ?].
Qed.

(** X12: with no group to add and no default base, the reconstruction only
    removes: the result is a subsequence of the current bases, and the bases
    that the script does not name for removal all stay, in their order. *)
Theorem reconstruct_bases_only_removes (s : schema) bases removed result :
  reconstruct_bases s None bases removed [] = Ok result →
  result `sublist_of` bases ∧
  filter (λ b, b ∉ removed) result = filter (λ b, b ∉ removed) bases.
Proof.
  unfold reconstruct_bases, drop_default, edit_bases.
  cbn [mbind outcome_bind].
  destruct (remove_loop (length bases) 0 (list_to_set removed) bases ∅)
    as [bases' ex'] eqn:Hr.
  cbn [splice_groups mbind outcome_bind restore_default]. intros Hres.
  assert (result = bases') as -> by (destruct bases'; by injection Hres as <-).
  destruct (remove_loop_keeps _ _ _ _ _ _ _ Hr) as (Hsub & Hfil & _).
  split; [done|].
  rewrite (filter_ext_in (λ b, b ∉ removed)
             (λ b, b ∉ (list_to_set removed : gset name)))
    by (intros; by rewrite elem_of_list_to_set).
  rewrite (filter_ext_in (λ b, b ∉ removed)
             (λ b, b ∉ (list_to_set removed : gset name)) bases)
    by (intros; by rewrite elem_of_list_to_set).
  done.
Qed.

Lemma reconstruct_bases_only_removes_witness :
  ["B"; "C"] `sublist_of` ["A"; "B"; "C"] ∧
  filter (λ b, b ∉ ["A"; "B"]) ["B"; "C"]
    = filter (λ b, b ∉ ["A"; "B"]) ["A"; "B"; "C"].
Proof.
  apply (reconstruct_bases_only_removes flat_schema ["A"; "B"; "C"] ["A"; "B"]).
  vm_compute. reflexivity.
Defined.

Lemma index_of_bases_None (bases : list name) ref :
  ref ∉ bases → index_of_bases bases !! ref = None.
Proof.
  intros Hn. unfold index_of_bases. apply not_elem_of_list_to_map_1.
  rewrite fmap_reverse, elem_of_reverse.
  assert ((imap (λ i b, (b, i)) bases).*1 = bases) as ->; [|done].
  rewrite fmap_imap, (imap_ext _ (const id)) by done.
  rewrite imap_const. apply list_fmap_id.
Qed.

(** X13: a script whose first group is anchored before a base that the
    object does not have makes the reconstruction fail with the [KeyError]
    of the index lookup, whatever the script removes. *)
Theorem reconstruct_bases_missing_anchor (s : schema) dflt bases removed
    new_bases ref more :
  (∀ d, dflt = Some d → is_Some (s !! d)) →
  ref ∉ bases →
  reconstruct_bases s dflt bases removed ((new_bases, BEFORE ref) :: more)
    = Raise (KeyError ref).
Proof.
  intros Hd Href. unfold reconstruct_bases.
  assert (∃ bases0, drop_default s dflt bases = Ok bases0 ∧ ref ∉ bases0)
    as (bases0 & -> & Href0).
  { unfold drop_default. destruct dflt as [d|]; [|by exists bases].
    destruct (Hd d eq_refl) as [o Ho]. rewrite (get_object_Some s d o Ho).
    cbn [mbind outcome_bind]. eexists. split; [done|].
    case_decide; [apply not_elem_of_nil | done]. }
  cbn [mbind outcome_bind]. unfold edit_bases.
  destruct (remove_loop (length bases0) 0 (list_to_set removed) bases0 ∅)
    as [bases' ex'] eqn:Hr.
  destruct (remove_loop_keeps _ _ _ _ _ _ _ Hr) as (Hsub & _ & _).
  cbn [splice_groups]. rewrite index_of_bases_None; [done|].
  intros Hin. apply Href0. by eapply elem_of_sublist.
Qed.

Lemma reconstruct_bases_missing_anchor_witness :
  reconstruct_bases flat_schema (Some "Object") ["A"; "B"] ["A"]
    [(["D"], BEFORE "C")] = Raise (KeyError "C").
Proof.
  apply reconstruct_bases_missing_anchor.
  - intros d [= <-]. vm_compute. eexists. reflexivity.
  - vm_compute. intros Hin. repeat (apply elem_of_cons in Hin as [Hin | Hin]; [discriminate|]).
    by apply elem_of_nil in Hin.
Defined.

(** ** What the rebase leaves alone *)

Lemma set_ancestors_frame (s : schema) obj ancs s' n :
  set_ancestors s obj ancs = Ok s' →
  option_Forall2 same_but_ancestors (s !! n) (s' !! n).
Proof.
  unfold set_ancestors. intros Hs.
  apply bind_Ok in Hs as (o & Ho%get_object_Ok & Hs). injection Hs as <-.
  destruct (decide (n = obj)) as [->|Hne].
  - rewrite lookup_insert_eq, Ho. by constructor.
  - rewrite lookup_insert_ne by done. destruct (s !! n); by constructor.
Qed.

Lemma same_but_ancestors_trans (x y z : option object) :
  option_Forall2 same_but_ancestors x y →
  option_Forall2 same_but_ancestors y z →
  option_Forall2 same_but_ancestors x z.
Proof.
  intros Hxy Hyz. destruct Hxy as [o1 o2 (?&?&?&?)|]; inversion Hyz as [? o3 (?&?&?&?)|];
    subst; constructor. unfold same_but_ancestors. split_and!; congruence.
Qed.

Section rebase_frame.
Context `{Collaborators}.

Lemma cascade_frame fuel ds (s : schema) self s' self' n :
  foldR (cascade_step fuel) ds (s, self) = Ok (s', self') →
  option_Forall2 same_but_ancestors (s !! n) (s' !! n) ∧
  attribute_values self' = attribute_values self ∧
  subcommands self `prefix_of` subcommands self'.
Proof.
  revert s self. induction ds as [|d ds IH]; intros s self Hf.
  - injection Hf as <- <-. split; [|done]. destruct (s !! n); by constructor.
  - simpl in Hf. apply bind_Ok in Hf as ([s1 self1] & Hstep & Hf).
    apply cascade_step_Ok in Hstep as (mro & Hmro & Hset & ->).
    destruct (IH _ _ Hf) as (Hfr & Hattr & Hsub).
    split; [|split].
    + eapply same_but_ancestors_trans; [|exact Hfr].
      by eapply set_ancestors_frame.
    + by rewrite Hattr.
    + etrans; [|exact Hsub]. by apply prefix_app_r.
Qed.

(** The parts of a successful [rebase_bases]. *)
Lemma rebase_bases_Ok fuel self (s : schema) s' self' :
  rebase_bases fuel self s = Ok (s', self') →
  ∃ bs bs' s1 mro s2,
    get_bases s (rebase_classname self) = Ok bs ∧
    reconstruct_bases s get_default_base_name bs
      (removed_bases self) (added_bases self) = Ok bs' ∧
    set_bases s (rebase_classname self) bs' = Ok s1 ∧
    compute_mro fuel s1 (rebase_classname self) = Ok mro ∧
    set_ancestors s1 (rebase_classname self) (drop 1 mro) = Ok s2 ∧
    (∀ n, option_Forall2 same_but_ancestors (s2 !! n) (s' !! n)) ∧
    attribute_values self'
      = attribute_values
          (set_attribute_default "ancestors" (drop 1 mro)
             (set_attribute_default "bases" bs' self)) ∧
    subcommands self `prefix_of` subcommands self'.
Proof.
  unfold rebase_bases. intros Hr.
  apply bind_Ok in Hr as (bs & Hbs & Hr).
  apply bind_Ok in Hr as (bs' & Hbs' & Hr).
  apply bind_Ok in Hr as (s1 & Hs1 & Hr).
  apply bind_Ok in Hr as (mro & Hmro & Hr).
  apply bind_Ok in Hr as (s2 & Hs2 & Hr).
  exists bs, bs', s1, mro, s2. split_and!; try done.
  - intros n.
    destruct (get_descendants s2 (rebase_classname self)) as [|d0 ds];
      [injection Hr as <- <-; destruct (s2 !! n); by constructor|].
    destruct (filter _ (subcommands self)).
    + by eapply cascade_frame.
    + injection Hr as <- <-. destruct (s2 !! n); by constructor.
  - destruct (get_descendants s2 (rebase_classname self)) as [|d0 ds];
      [by injection Hr as <- <-|].
    destruct (filter _ (subcommands self)).
    + by eapply (cascade_frame _ _ _ _ _ _ (rebase_classname self)).
    + by injection Hr as <- <-.
  - destruct (get_descendants s2 (rebase_classname self)) as [|d0 ds];
      [injection Hr as <- <-; by rewrite !subcommands_set_attribute_default|].
    destruct (filter _ (subcommands self)).
    + destruct (cascade_frame _ _ _ _ _ _ (rebase_classname self) Hr)
        as (_ & _ & Hp).
      by rewrite !subcommands_set_attribute_default in Hp.
    + injection Hr as <- <-. by rewrite !subcommands_set_attribute_default.
Qed.
End rebase_frame.

(** X14: the base reconstruction of a rebase writes two fields only: the
    [bases] of the rebased object, which become the reconstructed list, and
    cached [ancestors]; every other object keeps its bases, and every
    object, the rebased one included, keeps its reference collections, its
    back-references and its [inherited] flag; no object appears or
    disappears. *)
Theorem rebase_bases_frame `{Collaborators} fuel self (s : schema) s' self' :
  rebase_bases fuel self s = Ok (s', self') →
  (∀ n, n ≠ rebase_classname self →
        option_Forall2 same_but_ancestors (s !! n) (s' !! n)) ∧
  (∀ n, option_Forall2 same_references (s !! n) (s' !! n)) ∧
  ∃ bs, get_bases s (rebase_classname self) = Ok bs ∧
        reconstruct_bases s get_default_base_name bs
          (removed_bases self) (added_bases self)
          = Ok (default [] (bases <$> s' !! rebase_classname self)).
Proof.
  intros Hr.
  apply rebase_bases_Ok
    in Hr as (bs & bs' & s1 & mro & s2 & Hbs & Hbs' & Hs1 & _ & Hs2 & Hfr & _).
  unfold set_bases in Hs1.
  apply bind_Ok in Hs1 as (o & Ho%get_object_Ok & Hs1). injection Hs1 as <-.
  assert (∀ n, option_Forall2 same_but_ancestors
                 (<[rebase_classname self :=
                      Object bs' (ancestors o) (refs o) (backrefs o)
                        (declared_inherited o)]> s !! n) (s' !! n)) as Hfr'.
  { intros n. eapply same_but_ancestors_trans; [|apply Hfr].
    by eapply set_ancestors_frame. }
  split; [|split].
  - intros n Hn. specialize (Hfr' n). by rewrite lookup_insert_ne in Hfr'.
  - intros n. specialize (Hfr' n).
    destruct (decide (n = rebase_classname self)) as [->|Hn].
    + rewrite lookup_insert_eq in Hfr'. rewrite Ho.
      inversion Hfr' as [? o' (?&?&?&?)|]; subst. constructor. by split_and!.
    + rewrite lookup_insert_ne in Hfr' by done.
      destruct Hfr' as [? ? (?&?&?&?)|]; constructor. by split_and!.
  - exists bs. split; [done|]. specialize (Hfr' (rebase_classname self)).
    rewrite lookup_insert_eq in Hfr'.
    inversion Hfr' as [? o' (Hb&?&?&?) Heq1 Heq2|]; subst.
    simpl in Hb. simpl. by rewrite Hb.
Qed.

Lemma rebase_bases_frame_witness :
  (∀ n, n ≠ "P" →
     option_Forall2 same_but_ancestors (family_schema !! n)
       (<["D2" := cached ["P"] ["P"; "H"]]>
          (<["D1" := cached ["P"] ["P"; "H"]]>
             (<["P" := cached ["H"] ["H"]]> family_schema)) !! n)) ∧
  (∀ n,
     option_Forall2 same_references (family_schema !! n)
       (<["D2" := cached ["P"] ["P"; "H"]]>
          (<["D1" := cached ["P"] ["P"; "H"]]>
             (<["P" := cached ["H"] ["H"]]> family_schema)) !! n)) ∧
  ∃ bs, @get_bases family_schema "P" = Ok bs ∧
        reconstruct_bases family_schema None bs ["G"] [(["H"], LAST)]
          = Ok (default []
                  (bases <$>
                     <["D2" := cached ["P"] ["P"; "H"]]>
                       (<["D1" := cached ["P"] ["P"; "H"]]>
                          (<["P" := cached ["H"] ["H"]]> family_schema))
                     !! "P")).
Proof.
  apply (@rebase_bases_frame plain_collaborators 4 (rebase_P []) family_schema
           _ (snd (default (family_schema, rebase_P [])
                     (match @rebase_bases plain_collaborators 4 (rebase_P [])
                              family_schema with
                      | Ok r => Some r | Raise _ => None end)))).
  vm_compute. reflexivity.
Defined.

Lemma same_but_ancestors_hierarchy (s s' : schema) :
  (∀ n, option_Forall2 same_but_ancestors (s !! n) (s' !! n)) →
  same_hierarchy s s'.
Proof.
  intros Hfr n. destruct (Hfr n) as [o o' (Hb & _)|]; [|done].
  simpl. by rewrite Hb.
Qed.

Lemma attribute_values_set_attribute_default p v self q :
  attribute_values (set_attribute_default p v self) !! q
  = match attribute_values self !! q with
    | Some w => Some w
    | None => if decide (q = p) then Some v else None
    end.
Proof.
  unfold set_attribute_default.
  destruct (attribute_values self !! p) as [w|] eqn:Hp.
  - destruct (attribute_values self !! q) as [w'|] eqn:Hq; [done|].
    case_decide; [congruence | done].
  - cbn [attribute_values]. destruct (decide (q = p)) as [->|Hne].
    + by rewrite lookup_insert_eq, Hp.
    + rewrite lookup_insert_ne by done. by destruct (attribute_values self !! q).
Qed.

(** X15: the rebase never overwrites what the command carries: an attribute
    value the command already has is kept, also for [bases] and [ancestors]
    when what it carries differs from what the schema gets; an absent
    [bases] or [ancestors] attribute is set to the value written to the
    schema; and the sub-commands it had stay first, in their order. *)
Theorem rebase_bases_attributes `{Collaborators} fuel self (s : schema)
    s' self' :
  rebase_bases fuel self s = Ok (s', self') →
  (∀ p v, attribute_values self !! p = Some v →
          attribute_values self' !! p = Some v) ∧
  (attribute_values self !! "bases" = None →
   attribute_values self' !! "bases"
     = bases <$> s' !! rebase_classname self) ∧
  (attribute_values self !! "ancestors" = None →
   ∃ mro, compute_mro fuel s' (rebase_classname self) = Ok mro ∧
          attribute_values self' !! "ancestors" = Some (drop 1 mro)) ∧
  subcommands self `prefix_of` subcommands self'.
Proof.
  intros Hr.
  apply rebase_bases_Ok
    in Hr as (bs & bs' & s1 & mro & s2 & Hbs & Hbs' & Hs1 & Hmro & Hs2 & Hfr
              & Hattr & Hsub).
  split_and!; [| | |done].
  - intros p v Hp. rewrite Hattr, !attribute_values_set_attribute_default.
    by rewrite Hp.
  - intros Hnone. rewrite Hattr, !attribute_values_set_attribute_default.
    rewrite Hnone. rewrite decide_True by done.
    unfold set_bases in Hs1.
    apply bind_Ok in Hs1 as (o & Ho%get_object_Ok & Hs1). injection Hs1 as <-.
    pose proof (set_ancestors_frame _ _ _ _ (rebase_classname self) Hs2) as H12.
    pose proof (same_but_ancestors_trans _ _ _ H12
                  (Hfr (rebase_classname self))) as H1'.
    rewrite lookup_insert_eq in H1'.
    inversion H1' as [? o' (Hb & _)|]; subst. simpl in *. by rewrite Hb.
  - intros Hnone. exists mro. split.
    + rewrite <- (compute_mro_same_hierarchy fuel s1 s'); [done|].
      eapply same_hierarchy_trans;
        [by eapply set_ancestors_same_hierarchy
        | by apply same_but_ancestors_hierarchy].
    + rewrite Hattr, !attribute_values_set_attribute_default.
      rewrite Hnone. rewrite decide_False by done. by rewrite decide_True.
Qed.

Lemma rebase_bases_attributes_witness :
  ∃ s' self',
    @rebase_bases plain_collaborators 4
      (Rebase "P" ["G"] [(["H"], LAST)] {["bases" := ["G"]]} [alter_D1])
      family_schema = Ok (s', self') ∧
    attribute_values self' !! "bases" = Some ["G"] ∧
    bases <$> s' !! "P" = Some ["H"].
Proof.
  assert (@rebase_bases plain_collaborators 4
            (Rebase "P" ["G"] [(["H"], LAST)] {["bases" := ["G"]]} [alter_D1])
            family_schema
          = Ok (<["P" := cached ["H"] ["H"]]> family_schema,
                Rebase "P" ["G"] [(["H"], LAST)]
                  {["bases" := ["G"]; "ancestors" := ["H"]]} [alter_D1]))
    as Hr by (vm_compute; reflexivity).
  eexists _, _. split; [exact Hr|]. split.
  - apply (proj1 (rebase_bases_attributes _ _ _ _ _ Hr) "bases" ["G"]).
    vm_compute. reflexivity.
  - vm_compute. reflexivity.
Defined.

(** ** What the reference merge keeps *)

Section merge_keeps.
Context `{Collaborators}.

(** One key either leaves the two collections as they are or files one
    member in them. *)
Lemma merge_key_grows self bases attr backref_attr rei dctx st k st' :
  merge_key self bases attr backref_attr rei dctx st k = Ok st' →
  dom (st_classrefs st) ⊆ dom (st_classrefs st') ∧
  dom (st_local_classrefs st) ⊆ dom (st_local_classrefs st') ∧
  st_calls st `prefix_of` st_calls st'.
Proof.
  unfold merge_key. intros Hm.
  apply bind_Ok in Hm as (inherited0 & _ & Hm).
  apply bind_Ok in Hm as (ancestry & _ & Hm).
  destruct (ancestry.*2) as [|i0 inh] eqn:Hinh,
           (st_local_classrefs st !! k) as [l|] eqn:Hloc.
  2: { by injection Hm as <-. }
  - apply bind_Ok in Hm as (_ & _ & Hm).
    apply bind_Ok in Hm as (_ & _ & Hm). injection Hm as <-.
    cbn [st_classrefs st_local_classrefs st_calls]. split_and!; try done.
    by apply prefix_app_r.
  - apply bind_Ok in Hm as ([[[s1 merged] pure] log] & Hbranch & Hm).
    apply bind_Ok in Hm as (_ & _ & Hm).
    apply bind_Ok in Hm as (_ & _ & Hm).
    destruct merged as [merged|]; [|done]. injection Hm as <-.
    cbn [st_classrefs st_local_classrefs st_calls].
    split_and!; [rewrite dom_insert; set_solver | | by apply prefix_app_r].
    destruct pure; [done | rewrite dom_insert; set_solver].
  - apply bind_Ok in Hm as ([[[s1 merged] pure] log] & Hbranch & Hm).
    apply bind_Ok in Hm as (_ & _ & Hm).
    apply bind_Ok in Hm as (_ & _ & Hm).
    destruct merged as [merged|]; [|done]. injection Hm as <-.
    cbn [st_classrefs st_local_classrefs st_calls].
    split_and!; [rewrite dom_insert; set_solver | | by apply prefix_app_r].
    destruct pure; [done | rewrite dom_insert; set_solver].
Qed.

Lemma merge_keys_grow self bases attr backref_attr rei dctx ks st st' :
  foldR (merge_key self bases attr backref_attr rei dctx) ks st = Ok st' →
  dom (st_classrefs st) ⊆ dom (st_classrefs st') ∧
  dom (st_local_classrefs st) ⊆ dom (st_local_classrefs st') ∧
  st_calls st `prefix_of` st_calls st'.
Proof.
  revert st. induction ks as [|k ks IH]; intros st Hf.
  - by injection Hf as <-.
  - simpl in Hf. apply bind_Ok in Hf as (st1 & H1 & Hf).
    apply merge_key_grows in H1 as (? & ? & ?).
    apply IH in Hf as (? & ? & ?).
    split_and!; by etrans.
Qed.

(** X17: the merge never removes a key: every key of the object's full
    collection, and every key of its local collection, is a key of that
    collection after [merge_classref_dict], whatever the bases expose and
    whichever keys are asked for. *)
Theorem merge_classref_dict_keeps_keys (s : schema) self bases
    attr local_attr backref_attr keys rei dctx s' calls :
  attr ≠ local_attr →
  merge_classref_dict s self bases attr local_attr backref_attr keys rei dctx
    = Ok (s', calls) →
  ∃ cr lcr cr' lcr',
    get_field_value s self attr = Ok cr ∧
    get_field_value s self local_attr = Ok lcr ∧
    get_field_value s' self attr = Ok cr' ∧
    get_field_value s' self local_attr = Ok lcr' ∧
    dom cr ⊆ dom cr' ∧ dom lcr ⊆ dom lcr'.
Proof.
  intros Hne. unfold merge_classref_dict. intros Hm.
  apply bind_Ok in Hm as (cr & Hcr & Hm).
  apply bind_Ok in Hm as (lcr & Hlcr & Hm).
  apply bind_Ok in Hm as (st & Hst & Hm).
  apply bind_Ok in Hm as (s1 & Hs1 & Hm).
  apply bind_Ok in Hm as (s2 & Hs2 & Hm). injection Hm as <- <-.
  apply merge_keys_grow in Hst as (Hd1 & Hd2 & _).
  cbn [st_classrefs st_local_classrefs] in Hd1, Hd2.
  unfold get_explicit_field_value in Hcr, Hlcr.
  apply bind_Ok in Hcr as (o & Ho & [= <-]).
  apply bind_Ok in Hlcr as (o' & Ho' & [= <-]).
  assert (o' = o) as -> by congruence.
  unfold set_field_value in Hs1, Hs2.
  apply bind_Ok in Hs1 as (o1 & Ho1 & [= <-]).
  apply bind_Ok in Hs2 as (o2 & Ho2%get_object_Ok & [= <-]).
  rewrite lookup_insert_eq in Ho2. injection Ho2 as <-.
  exists (default ∅ (refs o !! attr)), (default ∅ (refs o !! local_attr)),
         (st_classrefs st), (st_local_classrefs st).
  unfold get_field_value. rewrite Ho. cbn [mbind outcome_bind].
  unfold get_object. rewrite !lookup_insert_eq. cbn [mbind outcome_bind refs].
  rewrite lookup_insert_eq, lookup_insert_ne, lookup_insert_eq by done.
  done.
Qed.

(** X18: a key that the object defines locally and that no base exposes:
    when the member was declared [inherited] the merge fails, saying that
    there is nothing to inherit, with or without a delta context and
    whether or not the collection requires the declaration; otherwise the
    key is passed over, no collaborator is called, and the member is not
    filed in the full collection by this pass. *)
Theorem merge_key_local_only self bases attr backref_attr rei dctx st k l
    declared :
  st_local_classrefs st !! k = Some l →
  collect_inherited (st_schema st) bases attr k = Ok [] →
  get_declared_inherited (st_schema st) l = Ok declared →
  merge_key self bases attr backref_attr rei dctx st k
  = if declared then Raise (NothingToInheritError self l)
    else Ok st.
Proof.
  intros Hloc Hcol Hdecl. unfold merge_key.
  rewrite Hcol, bind_Ok_l. unfold ancestry_of. cbn [mapR].
  rewrite bind_Ok_l. cbn [dict_of foldl fmap list_fmap]. rewrite Hloc.
  cbn [mbind outcome_bind]. rewrite Hdecl. cbn [mbind outcome_bind].
  destruct declared; [done|]. destruct st as [s0 cr lcr calls].
  cbn. by rewrite app_nil_r.
Qed.
End merge_keeps.

Lemma merge_classref_dict_keeps_keys_witness :
  ∃ cr lcr cr' lcr',
    get_field_value fork_schema "D" "pointers" = Ok cr ∧
    get_field_value fork_schema "D" "own_pointers" = Ok lcr ∧
    get_field_value
      (<["D" := entity ["B1"; "B2"] {["m" := "D.m"]} {["m" := "D.m"]}]>
         (<["D.m" := Object ["B1.m"; "B2.m"] None ∅ ∅ true]> fork_schema))
      "D" "pointers" = Ok cr' ∧
    get_field_value
      (<["D" := entity ["B1"; "B2"] {["m" := "D.m"]} {["m" := "D.m"]}]>
         (<["D.m" := Object ["B1.m"; "B2.m"] None ∅ ∅ true]> fork_schema))
      "D" "own_pointers" = Ok lcr' ∧
    dom cr ⊆ dom cr' ∧ dom lcr ⊆ dom lcr'.
Proof.
  apply (@merge_classref_dict_keeps_keys ref_collaborators fork_schema "D"
           ["B1"; "B2"] "pointers" "own_pointers" "source" (Some ["m"])
           true None _
           [CallDeriveFromRoot "B1.m" "D" "m" ["B1.m"; "B2.m"]]);
    [done | vm_compute; reflexivity].
Defined.

Lemma merge_key_local_only_witness :
  @merge_key ref_collaborators "P" [] "pointers" "source" false None
    (MergeState chain_schema {["m" := "P.m"]} {["m" := "P.m"]} []) "m"
  = Raise (NothingToInheritError "P" "P.m").
Proof.
  apply (@merge_key_local_only ref_collaborators "P" [] "pointers" "source"
           false None
           (MergeState chain_schema {["m" := "P.m"]} {["m" := "P.m"]} [])
           "m" "P.m" true); vm_compute; reflexivity.
Defined.

(** ** Deletion: the other paths *)

Section delete_paths.
Context `{Collaborators}.
Variable rd : refdict.
Hypothesis attrs_differ : attr rd ≠ local_attr rd.

(** The plain removal takes the key out of both collections of the owner
    and touches nothing else. *)
Lemma Object_del_classref_spec (s : schema) self key s' :
  Object_del_classref s self rd key = Ok s' →
  lacks s' self (attr rd) key ∧ lacks s' self (local_attr rd) key ∧
  ∀ n, n ≠ self → s' !! n = s !! n.
Proof.
  unfold Object_del_classref. intros Hd.
  apply bind_Ok in Hd as (lc & Hlc & Hd).
  apply bind_Ok in Hd as (ac & Hac & Hd).
  apply bind_Ok in Hd as (s1 & H1 & Hd).
  assert (lacks s1 self (local_attr rd) key ∧
          get_field_value s1 self (attr rd) = Ok ac ∧
          ∀ n, n ≠ self → s1 !! n = s !! n) as (Hl1 & Ha1 & Ho1).
  { destruct (lc !! key) as [m|] eqn:Hm.
    - destruct (set_field_value_spec _ _ _ _ _ H1) as (Hnew & Hattr & Hoth & _).
      split; [|split; [|done]].
      + exists (delete key lc). split; [done | apply lookup_delete_eq].
      + by rewrite Hattr.
    - injection H1 as <-. split; [by exists lc | done]. }
  destruct (ac !! key) as [m|] eqn:Hm.
  - destruct (set_field_value_spec _ _ _ _ _ Hd) as (Hnew & Hattr & Hoth & _).
    split; [|split].
    + exists (delete key ac). split; [done | apply lookup_delete_eq].
    + destruct Hl1 as (c & Hc & Hk). exists c. split; [|done].
      rewrite Hattr; [done|]. by intros ?.
    + intros n Hn. by rewrite Hoth, Ho1.
  - injection Hd as <-. split; [by exists ac | done].
Qed.

(** The loop over the descendants leaves alone every object that defines
    the key locally. *)
Lemma drop_from_descendants_overriding (s : schema) ds key s' n lc m :
  drop_from_descendants s ds rd key = Ok s' →
  get_field_value s n (local_attr rd) = Ok lc → lc !! key = Some m →
  s' !! n = s !! n.
Proof.
  unfold drop_from_descendants. revert s.
  induction ds as [|d ds IH]; intros s Hf Hlc Hm.
  - by injection Hf as <-.
  - cbn [foldR] in Hf. apply bind_Ok in Hf as (s1 & Hstep & Hf).
    assert (s1 !! n = s !! n) as H1.
    { apply bind_Ok in Hstep as (lc' & Hlc' & Hstep).
      destruct (lc' !! key) as [m'|] eqn:Hm'; [by injection Hstep as <-|].
      apply bind_Ok in Hstep as (c & Hc & Hstep).
      destruct (set_field_value_spec _ _ _ _ _ Hstep) as (_ & _ & Hoth & _).
      apply Hoth. intros ->. congruence. }
    rewrite <- H1. apply IH; [done | | done].
    rewrite <- Hlc. by apply get_field_value_other.
Qed.

Lemma del_classref_overriding (s : schema) self key s' n lc m :
  del_classref s self rd key = Ok s' → n ≠ self →
  get_field_value s n (local_attr rd) = Ok lc → lc !! key = Some m →
  s' !! n = s !! n.
Proof.
  unfold del_classref. intros Hd Hn Hlc Hm.
  apply bind_Ok in Hd as (bs & _ & Hd).
  apply bind_Ok in Hd as (inh & _ & Hd).
  apply bind_Ok in Hd as (s1 & H1 & Hd).
  apply bind_Ok in Hd as (s2 & H2 & Hd).
  assert (s1 !! n = s !! n) as E1.
  { destruct inh; [|by injection H1 as <-].
    by eapply drop_from_descendants_overriding. }
  apply Object_del_classref_spec in H2 as (_ & _ & E2).
  assert (s' !! n = s2 !! n) as E3.
  { destruct inh; [|by injection Hd as <-].
    apply bind_Ok in Hd as (c & _ & Hd).
    by apply set_field_value_spec in Hd as (_ & _ & Hoth & _); apply Hoth. }
  by rewrite E3, E2, E1.
Qed.
End delete_paths.

(** X19: a member of an entity that has no base cannot be deleted: the
    search for an inherited definition runs over no base, the variable
    [inherited] is never bound, and the test that follows the loop
    raises. *)
Theorem delete_innards_no_bases `{Collaborators} (s : schema) scls P rd s0 :
  super_delete_innards s scls = Ok s0 →
  get_bases s0 P = Ok [] →
  _delete_innards s scls (Some P) rd = Raise (UnboundLocalError "inherited").
Proof.
  intros Hsuper Hbs. unfold _delete_innards. rewrite Hsuper, bind_Ok_l.
  unfold del_classref. by rewrite Hbs.
Qed.

Lemma delete_innards_no_bases_witness :
  @_delete_innards ref_collaborators chain_schema "G.m" (Some "G") pointers
  = Raise (UnboundLocalError "inherited").
Proof.
  apply (@delete_innards_no_bases ref_collaborators chain_schema "G.m" "G"
           pointers chain_schema); vm_compute; reflexivity.
Defined.



(** X21: the delete operation leaves every overriding object as it is: an
    object other than the owner that defines the key in its own local
    collection keeps its whole state, both collections included. *)
Theorem delete_innards_keeps_overriding `{Collaborators}
    (s : schema) scls P rd s0 s' n lc m :
  attr rd ≠ local_attr rd →
  super_delete_innards s scls = Ok s0 →
  _delete_innards s scls (Some P) rd = Ok s' →
  n ≠ P →
  get_field_value s0 n (local_attr rd) = Ok lc →
  lc !! get_key_for s0 scls = Some m →
  s' !! n = s0 !! n.
Proof.
  intros Hattr Hsuper Hdel Hn Hlc Hm.
  unfold _delete_innards in Hdel. rewrite Hsuper, bind_Ok_l in Hdel.
  apply bind_Ok in Hdel as (s3 & Hdc & Hdrop).
  pose proof (del_classref_overriding rd Hattr _ _ _ _ _ _ _ Hdc Hn Hlc Hm)
    as E1.
  rewrite <- E1.
  eapply (drop_from_descendants_overriding rd); [exact Hdrop | | exact Hm].
  rewrite <- Hlc. by apply get_field_value_other.
Qed.

Lemma delete_innards_keeps_overriding_witness :
  ∃ s',
    @_delete_innards ref_collaborators chain_schema "G.m" (Some "M") pointers
      = Ok s' ∧
    s' !! "P" = chain_schema !! "P".
Proof.
  eexists. split; [vm_compute; reflexivity|].
  eapply (@delete_innards_keeps_overriding ref_collaborators chain_schema
            "G.m" "M" pointers chain_schema _ "P" {["m" := "P.m"]} "P.m").
  - discriminate.
  - reflexivity.
  - vm_compute; reflexivity.
  - discriminate.
  - vm_compute; reflexivity.
  - vm_compute; reflexivity.
Defined.

(** ** Creation of a referenced member *)

Lemma set_backref_spec (s : schema) obj backref_attr referrer s' :
  set_backref s obj backref_attr referrer = Ok s' →
  get_backref s' obj backref_attr = Ok (Some referrer) ∧
  same_hierarchy s s' ∧
  ∀ n a, get_field_value s' n a = get_field_value s n a.
Proof.
  unfold set_backref. intros Hs.
  apply bind_Ok in Hs as (o & Ho%get_object_Ok & Hs). injection Hs as <-.
  split; [|split].
  - unfold get_backref, get_object. rewrite lookup_insert_eq.
    cbn. by rewrite lookup_insert_eq.
  - intros n. destruct (decide (n = obj)) as [->|Hn].
    + by rewrite lookup_insert_eq, Ho.
    + by rewrite lookup_insert_ne.
  - intros n a. unfold get_field_value, get_object.
    destruct (decide (n = obj)) as [->|Hn].
    + by rewrite lookup_insert_eq, Ho.
    + by rewrite lookup_insert_ne.
Qed.

Section create_facts.
Context `{Collaborators}.
Variable rd : refdict.
Hypothesis attrs_differ : attr rd ≠ local_attr rd.

(** The loop over the descendants never touches a local collection, a base
    list or an object outside the list; it leaves alone every object that
    defines the key locally; and every listed descendant that does not is
    left with the new object in its full collection. *)
Lemma add_to_descendants_spec (s : schema) ds refname scls k s' :
  (∀ sx, get_key_for sx scls = k) →
  add_to_descendants s ds rd refname scls = Ok s' →
  same_hierarchy s s' ∧
  (∀ n, n ∉ ds → s' !! n = s !! n) ∧
  (∀ n, get_field_value s' n (local_attr rd)
        = get_field_value s n (local_attr rd)) ∧
  (∀ n lc m, get_field_value s n (local_attr rd) = Ok lc →
             lc !! refname = Some m → s' !! n = s !! n) ∧
  (∀ n c, get_field_value s n (attr rd) = Ok c → c !! k = Some scls →
          ∃ c', get_field_value s' n (attr rd) = Ok c' ∧ c' !! k = Some scls) ∧
  (∀ d, d ∈ ds → lacks s' d (local_attr rd) refname →
        ∃ c, get_field_value s' d (attr rd) = Ok c ∧ c !! k = Some scls).
Proof.
  intros Hkey. unfold add_to_descendants. revert s.
  induction ds as [|d ds IH]; intros s Hf.
  - injection Hf as <-. split_and!; try done; [by eauto|].
    by intros d ?%elem_of_nil.
  - cbn [foldR] in Hf. apply bind_Ok in Hf as (s1 & Hstep & Hf).
    destruct (IH s1 Hf) as (Hsame & Hout & Hlocal & Hover & Hmono & Hin).
    assert (same_hierarchy s s1 ∧
            (∀ n, n ≠ d → s1 !! n = s !! n) ∧
            (∀ n, get_field_value s1 n (local_attr rd)
                  = get_field_value s n (local_attr rd)) ∧
            (∀ n lc m, get_field_value s n (local_attr rd) = Ok lc →
                       lc !! refname = Some m → s1 !! n = s !! n) ∧
            (∀ n c, get_field_value s n (attr rd) = Ok c → c !! k = Some scls →
               ∃ c', get_field_value s1 n (attr rd) = Ok c' ∧
                     c' !! k = Some scls) ∧
            (lacks s1 d (local_attr rd) refname →
             ∃ c, get_field_value s1 d (attr rd) = Ok c ∧ c !! k = Some scls))
      as (Hsame1 & Hout1 & Hlocal1 & Hover1 & Hmono1 & Hd1).
    { apply bind_Ok in Hstep as (lc & Hlc & Hstep).
      apply bind_Ok in Hstep as (c & Hc & Hstep).
      destruct (lc !! refname) as [m|] eqn:Hm.
      - injection Hstep as <-. split_and!; try done; [by eauto|].
        intros (c0 & Hc0 & Hck). congruence.
      - rewrite Hkey in Hstep.
        destruct (set_field_value_spec _ _ _ _ _ Hstep)
          as (Hnew & Hattr & Hoth & Hsm).
        split_and!; try done.
        + intros n. destruct (decide (n = d)) as [->|Hn].
          * by apply Hattr.
          * apply get_field_value_other. by apply Hoth.
        + intros n lc' m' Hlc' Hm'. apply Hoth. intros ->. congruence.
        + intros n c0 Hc0 Hk. destruct (decide (n = d)) as [->|Hn].
          * exists (<[k := scls]> c). split; [done | apply lookup_insert_eq].
          * exists c0. split; [|done]. rewrite <- Hc0.
            apply get_field_value_other. by apply Hoth.
        + intros _. exists (<[k := scls]> c).
          split; [done | apply lookup_insert_eq]. }
    split_and!.
    + by eapply same_hierarchy_trans.
    + intros n Hn. rewrite Hout, Hout1; [done | |];
        intros ?; apply Hn; subst; [left | by right].
    + intros n. by rewrite Hlocal, Hlocal1.
    + intros n lc m Hlc Hm. rewrite <- (Hover1 n lc m Hlc Hm).
      apply (Hover n lc m); [|done]. by rewrite Hlocal1.
    + intros n c Hc Hk. destruct (Hmono1 n c Hc Hk) as (c1 & Hc1 & Hk1).
      by apply (Hmono n c1).
    + intros d' Hd' Hloc.
      apply elem_of_cons in Hd' as [Heq | Hd']; [subst d' | by apply Hin].
      destruct Hd1 as (c1 & Hc1 & Hk1).
      { destruct Hloc as (lc & Hlc & Hk). exists lc. by rewrite <- Hlocal. }
      by apply (Hmono d c1).
Qed.

(** The plain addition files the member in both collections of the owner
    and touches nothing else. *)
Lemma Object_add_classref_spec (s : schema) self obj k s' :
  (∀ sx, get_key_for sx obj = k) →
  Object_add_classref s self rd obj = Ok s' →
  (∃ c, get_field_value s' self (attr rd) = Ok c ∧ c !! k = Some obj) ∧
  (∃ c, get_field_value s' self (local_attr rd) = Ok c ∧ c !! k = Some obj) ∧
  same_hierarchy s s' ∧
  ∀ n, n ≠ self → s' !! n = s !! n.
Proof.
  intros Hkey. unfold Object_add_classref. intros Ha.
  apply bind_Ok in Ha as (lc & Hlc & Ha).
  apply bind_Ok in Ha as (ac & Hac & Ha).
  apply bind_Ok in Ha as (s1 & H1 & Ha). rewrite !Hkey in *.
  destruct (set_field_value_spec _ _ _ _ _ H1) as (Hn1 & Ha1 & Ho1 & Hs1).
  destruct (set_field_value_spec _ _ _ _ _ Ha) as (Hn2 & Ha2 & Ho2 & Hs2).
  split_and!.
  - eexists. split; [exact Hn2 | apply lookup_insert_eq].
  - eexists. split; [|apply lookup_insert_eq].
    rewrite Ha2 by (intros ?; by apply attrs_differ). exact Hn1.
  - by eapply same_hierarchy_trans.
  - intros n Hn. by rewrite Ho2, Ho1.
Qed.
End create_facts.

(** X22: propagation on add: when a member is created under an owner
    (through a collection that has a back-reference attribute), after the
    operation the member points back to the owner, it is filed under its
    key in the owner's full and local collections, and every descendant of
    the owner that does not define the key locally has the same member
    under the key in its full collection. *)
Theorem create_innards_propagates `{Collaborators}
    (super_create_innards : schema → name → outcome schema)
    (s : schema) scls P rd k s' :
  attr rd ≠ local_attr rd →
  backref_attr rd ≠ "" →
  (∀ s1 s2 obj, same_hierarchy s1 s2 →
                get_descendants s1 obj = get_descendants s2 obj) →
  (∀ sx, get_key_for sx scls = k) →
  scls ≠ P → scls ∉ get_descendants s' P →
  _create_innards super_create_innards s scls (Some P) rd = Ok s' →
  get_backref s' scls (backref_attr rd) = Ok (Some P) ∧
  (∃ c, get_field_value s' P (attr rd) = Ok c ∧ c !! k = Some scls) ∧
  (∃ c, get_field_value s' P (local_attr rd) = Ok c ∧ c !! k = Some scls) ∧
  (∀ d, d ∈ get_descendants s' P → lacks s' d (local_attr rd) k →
        ∃ c, get_field_value s' d (attr rd) = Ok c ∧ c !! k = Some scls).
Proof.
  intros Hattr Hback Hdesc Hkey HsP Hsd Hc. unfold _create_innards in Hc.
  apply bind_Ok in Hc as (s0 & _ & Hc). rewrite decide_False in Hc by done.
  apply bind_Ok in Hc as (s1 & Hb & Hc).
  apply bind_Ok in Hc as (s2 & Ha & Hc). rewrite Hkey in Hc.
  apply set_backref_spec in Hb as (Hbr & _ & _).
  destruct (Object_add_classref_spec rd Hattr _ _ _ k _ Hkey Ha)
    as ((ca & Hca & Hka) & (cl & Hcl & Hkl) & _ & Hoth).
  destruct (add_to_descendants_spec rd Hattr _ _ _ _ k _ Hkey Hc)
    as (Hsame & Hout & Hlocal & _ & Hmono & Hin).
  rewrite (Hdesc s2 s' P Hsame) in Hout, Hin.
  split_and!.
  - unfold get_backref, get_object in *. by rewrite Hout, Hoth.
  - by apply (Hmono P ca).
  - exists cl. by rewrite Hlocal.
  - done.
Qed.

Lemma create_innards_propagates_witness :
  ∃ s',
    @_create_innards ref_collaborators (λ s _, Ok s) create_schema "P.m"
      (Some "P") pointers = Ok s' ∧
    get_backref s' "P.m" "source" = Ok (Some "P") ∧
    (∃ c, get_field_value s' "P" "pointers" = Ok c ∧ c !! "m" = Some "P.m") ∧
    (∃ c, get_field_value s' "P" "own_pointers" = Ok c ∧ c !! "m" = Some "P.m") ∧
    (∀ d, d ∈ @get_descendants ref_collaborators s' "P" →
          lacks s' d "own_pointers" "m" →
          ∃ c, get_field_value s' d "pointers" = Ok c ∧ c !! "m" = Some "P.m").
Proof.
  eexists. split; [vm_compute; reflexivity|].
  eapply (@create_innards_propagates ref_collaborators (λ s _, Ok s)
            create_schema "P.m" "P" pointers "m").
  - discriminate.
  - discriminate.
  - intros s1 s2 obj. apply schema_descendants_same_hierarchy.
  - intros sx. reflexivity.
  - discriminate.
  - vm_compute. intros Hin.
    repeat (apply elem_of_cons in Hin as [Hin | Hin]; [discriminate|]).
    by apply elem_of_nil in Hin.
  - vm_compute; reflexivity.
Defined.

(** X23: the creation leaves every overriding object as it is: an object
    other than the owner and the new member that defines the key in its own
    local collection keeps its whole state. *)
Theorem create_innards_keeps_overriding `{Collaborators}
    (super_create_innards : schema → name → outcome schema)
    (s : schema) scls P rd k s0 s' n lc m :
  attr rd ≠ local_attr rd →
  (∀ sx, get_key_for sx scls = k) →
  super_create_innards s scls = Ok s0 →
  _create_innards super_create_innards s scls (Some P) rd = Ok s' →
  n ≠ P → n ≠ scls →
  get_field_value s0 n (local_attr rd) = Ok lc → lc !! k = Some m →
  s' !! n = s0 !! n.
Proof.
  intros Hattr Hkey Hsuper Hc HnP Hns Hlc Hm. unfold _create_innards in Hc.
  rewrite Hsuper, bind_Ok_l in Hc.
  case_decide; [by injection Hc as <-|].
  apply bind_Ok in Hc as (s1 & Hb & Hc).
  apply bind_Ok in Hc as (s2 & Ha & Hc). rewrite Hkey in Hc.
  assert (s1 !! n = s0 !! n) as E1.
  { unfold set_backref in Hb. apply bind_Ok in Hb as (o & _ & [= <-]).
    by rewrite lookup_insert_ne. }
  destruct (Object_add_classref_spec rd Hattr _ _ _ k _ Hkey Ha)
    as (_ & _ & _ & Hoth).
  destruct (add_to_descendants_spec rd Hattr _ _ _ _ k _ Hkey Hc)
    as (_ & _ & _ & Hover & _).
  rewrite (Hover n lc m); [by rewrite Hoth, E1 | | done].
  rewrite <- Hlc. apply get_field_value_other. by rewrite Hoth, E1.
Qed.

Lemma create_innards_keeps_overriding_witness :
  ∃ s',
    @_create_innards ref_collaborators (λ s _, Ok s) create_schema "P.m"
      (Some "P") pointers = Ok s' ∧
    s' !! "O" = create_schema !! "O".
Proof.
  eexists. split; [vm_compute; reflexivity|].
  eapply (@create_innards_keeps_overriding ref_collaborators (λ s _, Ok s)
            create_schema "P.m" "P" pointers "m" create_schema _ "O"
            {["m" := "O.m"]} "O.m").
  - discriminate.
  - intros sx. reflexivity.
  - reflexivity.
  - vm_compute; reflexivity.
  - discriminate.
  - discriminate.
  - vm_compute; reflexivity.
  - vm_compute; reflexivity.
Defined.

(** ** Creation of an inheriting object *)

(** X24: the base list of a new object type: bases that are given are
    returned as they are, each an object of the schema and none a generic
    type; without given bases the type gets the one base [std::Object],
    except for the two root classes, which alone end with no base. *)
Theorem _validate_base_refs_object_type (contains_any : name → bool)
    (s : schema) classname base_refs bs :
  _validate_base_refs ObjectType_class contains_any s classname base_refs
    = ValidBases bs →
  Forall (λ b, is_Some (s !! b) ∧ contains_any b = false) base_refs ∧
  (base_refs ≠ [] → bs = base_refs) ∧
  (base_refs = [] →
   bs = if decide (classname ∈ ["std::BaseObject"; "std::Object"]) then []
        else ["std::Object"]) ∧
  (bs = [] → classname = "std::BaseObject" ∨ classname = "std::Object").
Proof.
  unfold _validate_base_refs. intros Hv.
  destruct (mapR (get_object s) base_refs) as [os|] eqn:Hres; [|done].
  destruct (filter _ base_refs) as [|g gs] eqn:Hgen; [|done].
  assert (Forall (λ b, is_Some (s !! b) ∧ contains_any b = false) base_refs)
    as Hall.
  { apply Forall_forall. intros b Hb. split.
    - apply mapR_Forall2 in Hres. apply list_elem_of_lookup in Hb as [i Hi].
      destruct (Forall2_lookup_l _ _ _ _ _ Hres Hi) as (o & _ & Ho).
      apply get_object_Ok in Ho. by exists o.
    - destruct (contains_any b) eqn:Hc; [|done]. exfalso.
      assert (b ∈ filter (λ base, contains_any base = true) base_refs) as Hin
        by (by apply list_elem_of_filter).
      rewrite Hgen in Hin. by apply elem_of_nil in Hin. }
  split; [done|]. destruct base_refs as [|b0 refs].
  - cbn [root_classes default_base_name ObjectType_class] in Hv.
    split; [done|].
    destruct (decide (classname ∈ ["std::BaseObject"; "std::Object"]))
      as [Hroot | Hroot].
    + injection Hv as <-. split; [done|]. intros _.
      apply elem_of_cons in Hroot as [-> | Hroot]; [by left|].
      apply list_elem_of_singleton in Hroot as ->. by right.
    + destruct (decide (classname = "std::Object")) as [-> | Hne].
      { exfalso. apply Hroot. right. left. }
      destruct (get_object s "std::Object"); [|done]. injection Hv as <-.
      split; [done|]. done.
  - injection Hv as <-. split; [done|]. split; done.
Qed.

Lemma _validate_base_refs_object_type_witness :
  Forall (λ b, is_Some (std_schema !! b) ∧ (λ _ : name, false) b = false)
    (@nil name) ∧
  (@nil name ≠ [] → ["std::Object"] = @nil name) ∧
  (@nil name = [] →
   ["std::Object"]
   = if decide ("default::Post" ∈ ["std::BaseObject"; "std::Object"]) then []
     else ["std::Object"]) ∧
  (["std::Object"] = @nil name →
   "default::Post" = "std::BaseObject" ∨ "default::Post" = "std::Object").
Proof.
  apply (_validate_base_refs_object_type (λ _, false) std_schema
           "default::Post" [] ["std::Object"]).
  vm_compute. reflexivity.
Defined.

(** X25: [_create_begin] caches the ancestors of the object it creates
    exactly when none are cached and the object has bases: then the cached
    value is the linearization without the object, and the command records
    it unless it carries a value already; an object without bases, or with
    cached ancestors, leaves the schema of the framework's step as it is,
    an object without bases staying without cached ancestors. *)
Theorem _create_begin_caches_ancestors
    (super_create_begin : schema → outcome (schema * name))
    fuel attrs (s : schema) s0 scls o s' scls' attrs' :
  super_create_begin s = Ok (s0, scls) →
  s0 !! scls = Some o →
  _create_begin super_create_begin fuel attrs s = Ok (s', scls', attrs') →
  scls' = scls ∧
  (∀ p v, attrs !! p = Some v → attrs' !! p = Some v) ∧
  if decide (ancestors o = None ∧ bases o ≠ [])
  then fresh_ancestors fuel s' scls ∧
       (∀ n, option_Forall2 same_but_ancestors (s0 !! n) (s' !! n)) ∧
       (attrs !! "ancestors" = None →
        Some <$> attrs' !! "ancestors" = ancestors <$> s' !! scls)
  else s' = s0 ∧ attrs' = attrs.
Proof.
  intros Hsuper Ho Hc. unfold _create_begin in Hc. rewrite Hsuper in Hc.
  unfold get_ancestors in Hc.
  rewrite (get_object_Some s0 scls o Ho), !bind_Ok_l in Hc.
  destruct (ancestors o) as [a|] eqn:Ha.
  { injection Hc as <- <- <-. split; [done|]. split; [done|].
    rewrite decide_False by (by intros [? _]). done. }
  destruct (bases o) as [|b0 bs] eqn:Hb.
  { injection Hc as <- <- <-. split; [done|]. split; [done|].
    rewrite decide_False by (by intros [_ ?]). done. }
  apply bind_Ok in Hc as (mro & Hmro & Hc).
  apply bind_Ok in Hc as (s1 & Hset & Hc). injection Hc as <- <- <-.
  split; [done|]. split.
  { intros p v Hp. destruct (attrs !! "ancestors") eqn:Hanc; [done|].
    rewrite lookup_insert_ne; [done|]. intros <-. congruence. }
  rewrite decide_True by done.
  destruct (fresh_ancestors_set fuel s0 scls mro s1 Hmro Hset) as [Hfresh _].
  split; [done|]. split; [intros n; by eapply set_ancestors_frame|].
  intros ->. rewrite lookup_insert_eq.
  destruct (set_ancestors_lookup _ _ _ _ Hset) as [Hanc _].
  unfold get_ancestors in Hanc.
  apply bind_Ok in Hanc as (o1 & Ho1%get_object_Ok & [= Hanc]).
  rewrite Ho1. simpl. by rewrite Hanc.
Qed.

Lemma _create_begin_caches_ancestors_witness :
  fresh_ancestors 3
    (<["default::User" :=
         cached ["std::Object"] ["std::Object"; "std::BaseObject"]]> std_schema)
    "default::User".
Proof.
  pose proof (_create_begin_caches_ancestors (λ s, Ok (s, "default::User")) 3 ∅
                std_schema std_schema "default::User" (plain ["std::Object"])
                (<["default::User" :=
                     cached ["std::Object"] ["std::Object"; "std::BaseObject"]]>
                   std_schema)
                "default::User"
                {["ancestors" := ["std::Object"; "std::BaseObject"]]}
                ltac:(vm_compute; reflexivity) ltac:(vm_compute; reflexivity)
                ltac:(vm_compute; reflexivity)) as (_ & _ & Hif).
  rewrite decide_True in Hif by (split; done). apply Hif.
Defined.

(** ** Inheritance of reference collections *)

Lemma foldl_insert_lookup (l : list (name * name)) (c : refcoll) k :
  NoDup l.*1 →
  foldl (λ c kv, <[kv.1 := kv.2]> c) c l !! k
  = match (list_to_map l : refcoll) !! k with
    | Some v => Some v
    | None => c !! k
    end.
Proof.
  revert c. induction l as [|[k0 v0] l IH]; intros c Hnd; [done|].
  apply NoDup_cons in Hnd as [Hk0 Hnd]. cbn [foldl fst snd].
  rewrite IH by done. cbn [list_to_map foldr fst snd].
  destruct (decide (k = k0)) as [->|Hne].
  - rewrite (not_elem_of_list_to_map_1 _ k0) by done.
    by rewrite !lookup_insert_eq.
  - rewrite !lookup_insert_ne by done. done.
Qed.

Section merge_facts2.
Context `{Collaborators}.

(** Filing the members of a keyed collection whose keys satisfy [keep]
    gives the collection restricted to those keys, over what was there. *)
Lemma coll_update_lookup (s : schema) (keep : name → Prop)
    `{∀ k, Decision (keep k)} (this other : refcoll) k :
  keyed other →
  coll_update s this (coll_values_where keep other) !! k
  = match other !! k with
    | Some v => if decide (keep k) then Some v else this !! k
    | None => this !! k
    end.
Proof.
  intros Hkeyed. unfold coll_update, coll_values_where.
  assert (∀ l : list (name * name),
            (∀ kv, kv ∈ l → other !! kv.1 = Some kv.2) →
            ∀ c : refcoll,
              foldl (λ c v, <[get_key_for s v := v]> c) c l.*2
              = foldl (λ c kv, <[kv.1 := kv.2]> c) c l) as Hfold.
  { induction l as [|[k0 v0] l IH]; intros Hl c; [done|]. cbn.
    rewrite (Hkeyed s k0 v0) by (apply (Hl (k0, v0)); left).
    apply IH. intros kv Hkv. apply Hl. by right. }
  rewrite Hfold.
  2: { intros [k1 v1] Hkv. apply list_elem_of_filter in Hkv as [_ Hkv].
       by apply elem_of_map_to_list in Hkv. }
  rewrite foldl_insert_lookup.
  2: { apply NoDup_fmap_fst.
       - intros k1 v1 v2 H1 H2.
         apply list_elem_of_filter in H1 as [_ H1%elem_of_map_to_list].
         apply list_elem_of_filter in H2 as [_ H2%elem_of_map_to_list].
         congruence.
       - apply NoDup_filter, NoDup_map_to_list. }
  destruct (other !! k) as [v|] eqn:Hk.
  - destruct (decide (keep k)) as [Hkeep | Hkeep].
    + erewrite elem_of_list_to_map_1; [done | |].
      * apply NoDup_fmap_fst.
        -- intros k1 v1 v2 H1 H2.
           apply list_elem_of_filter in H1 as [_ H1%elem_of_map_to_list].
           apply list_elem_of_filter in H2 as [_ H2%elem_of_map_to_list].
           congruence.
        -- apply NoDup_filter, NoDup_map_to_list.
      * apply list_elem_of_filter. split; [done|].
        by apply elem_of_map_to_list.
    + rewrite not_elem_of_list_to_map_1; [done|].
      intros Hin. apply list_elem_of_fmap in Hin as ([k1 v1] & -> & Hin).
      by apply list_elem_of_filter in Hin as [? _].
  - rewrite not_elem_of_list_to_map_1; [done|].
    intros Hin. apply list_elem_of_fmap in Hin as ([k1 v1] & -> & Hin).
    apply list_elem_of_filter in Hin as [_ Hin%elem_of_map_to_list].
    simpl in Hk. congruence.
Qed.

Variable super_merge : schema → name → list name → outcome schema.
Variable non_inheritable_attr : refdict → option name.

Lemma inheritable_same (s s' : schema) obj rd :
  s' !! obj = s !! obj →
  inheritable non_inheritable_attr s' obj rd
  = inheritable non_inheritable_attr s obj rd.
Proof. intros Hs. unfold inheritable. by rewrite Hs. Qed.

(** One base and one collection: what the base passes on goes under what
    the object has. *)
Lemma merge_refdict_spec self obj (s : schema) rd s' :
  obj ≠ self →
  (∀ c, get_field_value s obj (attr rd) = Ok c → keyed c) →
  merge_refdict non_inheritable_attr self obj s rd = Ok s' →
  (∀ n, n ≠ self → s' !! n = s !! n) ∧
  (∀ a, a ≠ attr rd → get_field_value s' self a = get_field_value s self a) ∧
  ∃ this, get_field_value s self (attr rd) = Ok this ∧
          get_field_value s' self (attr rd)
          = Ok (this ∪ inheritable non_inheritable_attr s obj rd).
Proof.
  intros Hne Hkeyed Hm. unfold merge_refdict in Hm.
  apply bind_Ok in Hm as (this & Hthis & Hm).
  apply bind_Ok in Hm as (other & Hother & Hm).
  unfold get_explicit_field_value in Hthis, Hother.
  apply bind_Ok in Hthis as (o & Ho%get_object_Ok & [= <-]).
  apply bind_Ok in Hother as (oo & Hoo%get_object_Ok & [= <-]).
  specialize (Hkeyed _ (get_field_value_Ok s obj oo (attr rd) Hoo)).
  rewrite (get_field_value_Ok s self o (attr rd) Ho).
  unfold inheritable. rewrite Hoo.
  set (non_inh := match non_inheritable_attr rd with
                  | Some nia => default ∅ (refs oo !! nia)
                  | None => ∅
                  end).
  assert (∀ x, s' = s →
               x = filter (λ kv, non_inh !! kv.1 = None)
                     (default ∅ (refs oo !! attr rd)) → x = ∅ →
          (∀ n, n ≠ self → s' !! n = s !! n) ∧
          (∀ a, a ≠ attr rd →
             get_field_value s' self a = get_field_value s self a) ∧
          ∃ this, Ok (default ∅ (refs o !! attr rd)) = Ok this ∧
                  get_field_value s' self (attr rd) = Ok (this ∪ x))
    as Hsame.
  { intros x -> _ ->. split; [done|]. split; [done|]. eexists. split; [done|].
    rewrite (get_field_value_Ok s self o (attr rd) Ho).
    by rewrite (right_id_L ∅ (∪)). }
  destruct (refs oo !! attr rd) as [other|] eqn:Hoth.
  2: { injection Hm as <-. eapply Hsame; [done | done |].
       cbn [default from_option id]. apply map_filter_empty. }
  cbn [default from_option id] in *.
  apply bind_Ok in Hm as (other' & Hother' & Hm).
  assert (other' = filter (λ kv, non_inh !! kv.1 = None) other) as ->.
  { subst non_inh. destruct (non_inheritable_attr rd) as [nia|].
    - apply bind_Ok in Hother' as (ni & Hni & Hother').
      unfold get_explicit_field_value in Hni.
      rewrite (get_object_Some s obj oo Hoo), bind_Ok_l in Hni.
      injection Hni as <-.
      destruct (refs oo !! nia) as [ni|]; cbn [default from_option id].
      + destruct (decide (ni = ∅)) as [->|Hemp].
        * injection Hother' as <-. symmetry.
          apply map_filter_id. intros k v _. apply lookup_empty.
        * injection Hother' as <-. apply map_eq. intros k.
          rewrite (coll_update_lookup s _ ∅ other k Hkeyed).
          rewrite lookup_empty, map_lookup_filter.
          destruct (other !! k) as [v|]; [|done]. cbn [mbind option_bind fst].
          destruct (decide (ni !! k = None)) as [Hk|Hk];
            [by rewrite option_guard_True | by rewrite option_guard_False].
      + injection Hother' as <-. symmetry.
        apply map_filter_id. intros k v _. apply lookup_empty.
    - injection Hother' as <-. symmetry.
      apply map_filter_id. intros k v _. apply lookup_empty. }
  destruct (decide (filter (λ kv, non_inh !! kv.1 = None) other = ∅))
    as [Hemp|Hemp]; [injection Hm as <-; by eapply Hsame|].
  assert (keyed (filter (λ kv, non_inh !! kv.1 = None) other)) as Hkeyed'.
  { intros sx k v Hkv. apply map_lookup_filter_Some in Hkv as [Hkv _].
    by apply Hkeyed. }
  destruct (refs o !! attr rd) as [this|] eqn:Hthis; cbn [default from_option id].
  - destruct (set_field_value_spec _ _ _ _ _ Hm) as (Hnew & Hattr & Hoth' & _).
    split; [done|]. split; [done|]. eexists. split; [done|].
    rewrite Hnew. f_equal. apply map_eq. intros k.
    rewrite (coll_update_lookup s _ this _ k Hkeyed'), lookup_union.
    destruct (filter _ other !! k) as [v|], (this !! k) as [w|] eqn:Hw;
      cbn; done.
  - destruct (set_field_value_spec _ _ _ _ _ Hm) as (Hnew & Hattr & Hoth' & _).
    split; [done|]. split; [done|]. eexists. split; [done|].
    by rewrite Hnew, (left_id_L ∅ (∪)).
Qed.

(** All the collections, for one base. *)
Lemma merge_refdicts_spec self obj rds (s : schema) s' :
  obj ≠ self → NoDup (attr <$> rds) →
  (∀ rd c, rd ∈ rds → get_field_value s obj (attr rd) = Ok c → keyed c) →
  foldR (merge_refdict non_inheritable_attr self obj) rds s
    = Ok s' →
  (∀ n, n ≠ self → s' !! n = s !! n) ∧
  (∀ a, a ∉ attr <$> rds →
        get_field_value s' self a = get_field_value s self a) ∧
  ∀ rd, rd ∈ rds →
    ∃ this, get_field_value s self (attr rd) = Ok this ∧
            get_field_value s' self (attr rd)
            = Ok (this ∪ inheritable non_inheritable_attr s obj rd).
Proof.
  intros Hne. revert s. induction rds as [|rd0 rds IH]; intros s Hnd Hkeyed Hf.
  - injection Hf as <-. split; [done|]. split; [done|].
    by intros rd ?%elem_of_nil.
  - cbn [foldR] in Hf. apply bind_Ok in Hf as (s1 & Hstep & Hf).
    rewrite fmap_cons in Hnd. apply NoDup_cons in Hnd as [Hrd0 Hnd].
    destruct (merge_refdict_spec self obj s rd0 s1 Hne
                ltac:(intros c; apply Hkeyed; left) Hstep)
      as (Hoth1 & Hattr1 & this0 & Hthis0 & Hnew0).
    destruct (IH s1 Hnd) as (Hoth & Hattr & Hrds); [|done|].
    { intros rd c Hrd Hc. apply (Hkeyed rd c); [by right|].
      rewrite <- Hc. symmetry. apply get_field_value_other. by apply Hoth1. }
    split; [|split].
    + intros n Hn. by rewrite Hoth, Hoth1.
    + intros a Ha. rewrite fmap_cons in Ha.
      apply not_elem_of_cons in Ha as [Ha0 Ha]. by rewrite Hattr, Hattr1.
    + intros rd Hrd. apply elem_of_cons in Hrd as [-> | Hrd].
      * exists this0. split; [done|]. by rewrite Hattr.
      * destruct (Hrds rd Hrd) as (this & Hthis & Hnew).
        assert (attr rd ≠ attr rd0) as Hd.
        { intros Heq. apply Hrd0. rewrite <- Heq.
          apply list_elem_of_fmap. by exists rd. }
        exists this. split; [by rewrite <- Hattr1|].
        rewrite Hnew. f_equal. f_equal. apply inheritable_same.
        by apply Hoth1.
Qed.

(** X26: [InheritingObject.merge] gives the object, for every reference
    collection, what it had over what each base passes on, in the order of
    the bases: an entry of the object is kept, and of two bases that have
    an entry under the same key the earlier one wins; what a base passes on
    is its collection without the keys of its non-inheritable collection.
    No other object is written. *)
Theorem InheritingObject_merge_precedence (s : schema) self objs s0 s' :
  self ∉ objs → NoDup (attr <$> get_refdicts) →
  super_merge s self objs = Ok s0 →
  is_Some (s0 !! self) →
  (∀ obj rd c, obj ∈ objs → rd ∈ get_refdicts →
               get_field_value s0 obj (attr rd) = Ok c → keyed c) →
  InheritingObject_merge super_merge non_inheritable_attr s self objs = Ok s' →
  (∀ n, n ≠ self → s' !! n = s0 !! n) ∧
  ∀ rd, rd ∈ get_refdicts →
    ∃ this, get_field_value s0 self (attr rd) = Ok this ∧
            get_field_value s' self (attr rd)
            = Ok (foldl (λ acc obj,
                           acc ∪ inheritable non_inheritable_attr s0 obj rd)
                    this objs).
Proof.
  intros Hself Hnd Hsuper Hexists Hkeyed Hm.
  unfold InheritingObject_merge in Hm.
  rewrite Hsuper, bind_Ok_l in Hm. clear Hsuper.
  revert s0 Hexists Hkeyed Hm.
  induction objs as [|obj objs IH]; intros s0 [o Ho] Hkeyed Hm.
  - injection Hm as <-. split; [done|]. intros rd Hrd. cbn [foldl].
    exists (default ∅ (refs o !! attr rd)).
    by rewrite (get_field_value_Ok s0 self o (attr rd) Ho).
  - cbn [foldR] in Hm. apply bind_Ok in Hm as (s1 & H1 & Hm).
    apply not_elem_of_cons in Hself as [Hne Hself].
    destruct (merge_refdicts_spec self obj get_refdicts s0 s1
                ltac:(by intros ->) Hnd
                ltac:(intros rd c Hrd; apply Hkeyed; [left | done]) H1)
      as (Hoth1 & _ & Hrds1).
    destruct (IH Hself s1) as (Hoth & Hrds); [| |done|].
    { destruct get_refdicts as [|rd0 rds] eqn:Hrds.
      - injection H1 as <-. by exists o.
      - destruct (Hrds1 rd0 ltac:(left)) as (this & _ & Hnew).
        unfold get_field_value in Hnew.
        apply bind_Ok in Hnew as (o1 & Ho1%get_object_Ok & _). by exists o1. }
    { intros obj' rd c Hobj' Hrd Hc. apply (Hkeyed obj' rd c); [by right|done|].
      rewrite <- Hc. symmetry. apply get_field_value_other. apply Hoth1.
      intros ->. done. }
    split; [intros n Hn; by rewrite Hoth, Hoth1|].
    intros rd Hrd. destruct (Hrds1 rd Hrd) as (this & Hthis & Hnew1).
    destruct (Hrds rd Hrd) as (this1 & Hthis1 & Hnew).
    exists this. split; [done|]. rewrite Hnew. cbn [foldl].
    assert (this1 = this ∪ inheritable non_inheritable_attr s0 obj rd) as ->
      by congruence.
    f_equal. clear -Hoth1 Hself.
    generalize (this ∪ inheritable non_inheritable_attr s0 obj rd).
    induction objs as [|b bs IHb]; intros acc; [done|].
    apply not_elem_of_cons in Hself as [Hb Hbs]. cbn [foldl].
    rewrite (inheritable_same s0 s1 b rd) by (apply Hoth1; by intros ->).
    by apply IHb.
Qed.
End merge_facts2.

Lemma InheritingObject_merge_precedence_witness :
  (∀ n, n ≠ "C" →
     <["C" := entity ["A"; "B"]
                {["p" := "C.p"; "m" := "A.m"; "n" := "B.n"]}
                {["p" := "C.p"]}]> merge_schema !! n = merge_schema !! n) ∧
  ∀ rd, rd ∈ @get_refdicts ref_collaborators →
    ∃ this, get_field_value merge_schema "C" (attr rd) = Ok this ∧
            get_field_value
              (<["C" := entity ["A"; "B"]
                          {["p" := "C.p"; "m" := "A.m"; "n" := "B.n"]}
                          {["p" := "C.p"]}]> merge_schema) "C" (attr rd)
            = Ok (foldl (λ acc obj,
                           acc ∪ inheritable (λ _, None) merge_schema obj rd)
                    this ["A"; "B"]).
Proof.
  apply (@InheritingObject_merge_precedence ref_collaborators
           (λ s _ _, Ok s) (λ _, None) merge_schema "C" ["A"; "B"]
           merge_schema).
  - vm_compute. intros Hin.
    repeat (apply elem_of_cons in Hin as [Hin | Hin]; [discriminate|]).
    by apply elem_of_nil in Hin.
  - vm_compute. apply NoDup_singleton.
  - reflexivity.
  - vm_compute. by eexists.
  - intros obj rd c Hobj Hrd Hc sx.
    apply list_elem_of_singleton in Hrd as ->.
    change (map_Forall (λ k v, short_name v = k) c).
    apply elem_of_cons in Hobj as [-> | Hobj];
      [|apply list_elem_of_singleton in Hobj as ->].
    + assert (get_field_value merge_schema "A" (attr pointers)
              = Ok {["m" := "A.m"]}) as Hc' by (vm_compute; reflexivity).
      rewrite Hc' in Hc. injection Hc as <-.
      apply (bool_decide_unpack _). vm_compute. reflexivity.
    + assert (get_field_value merge_schema "B" (attr pointers)
              = Ok {["m" := "B.m"; "n" := "B.n"]}) as Hc'
        by (vm_compute; reflexivity).
      rewrite Hc' in Hc. injection Hc as <-.
      apply (bool_decide_unpack _). vm_compute. reflexivity.
  - vm_compute. reflexivity.
Defined.

(** ** Object types *)

(** Every member of a linearization is an object of the schema. *)
Lemma compute_mro_members_exist fuel (s : schema) obj mro y :
  compute_mro fuel s obj = Ok mro → y ∈ mro → is_Some (s !! y).
Proof.
  intros Hm Hy.
  destruct (compute_mro_member_fuel _ _ _ _ _ Hm Hy) as (f' & my & Hmy & _).
  destruct f' as [|f']; [done|].
  apply compute_mro_S_Ok in Hmy as (bs & _ & Hbs & _).
  unfold get_bases in Hbs. apply bind_Ok in Hbs as (o & Ho%get_object_Ok & _).
  by exists o.
Qed.

Lemma mapR_get_object_all (s : schema) (l : list name) :
  (∀ b, b ∈ l → is_Some (s !! b)) → is_Ok (mapR (get_object s) l).
Proof.
  induction l as [|b l IH]; intros Hall; [by eexists|].
  destruct (Hall b) as [o Ho]; [left|].
  destruct IH as [os Hos]; [intros b' Hb'; apply Hall; by right|].
  exists (o :: os). cbn [mapR].
  by rewrite (get_object_Some s b o Ho), bind_Ok_l, Hos.
Qed.

(** X27: for an object type that is neither a union nor an intersection
    and whose cached ancestors are its linearization without itself, and a
    parent that is neither a union nor an intersection,
    [ObjectType._issubclass], which reads the cache, returns what
    [InheritingObject._issubclass], which linearizes, returns. *)
Theorem ObjectType__issubclass_agrees (shape : name → type_shape)
    (is_object_type : name → bool) fuel n (s : schema) self parent :
  shape self = plain_shape → shape parent = plain_shape →
  fresh_ancestors fuel s self →
  ObjectType__issubclass shape is_object_type (S n) s self parent
  = _issubclass fuel s self parent.
Proof.
  intros Hself Hparent (mro & Hmro & Hanc).
  unfold _issubclass. rewrite Hmro, bind_Ok_l.
  pose proof (compute_mro_head _ _ _ _ Hmro) as Hhead.
  destruct mro as [|x ancs]; [done|]. injection Hhead as ->.
  cbn [ObjectType__issubclass].
  destruct (decide (self = parent)) as [->|Hne].
  { rewrite bool_decide_eq_true_2; [done | left]. }
  rewrite Hself, Hparent.
  cbn [union_of intersection_of is_opaque_union plain_shape].
  change (drop 1 (self :: ancs)) with ancs in Hanc.
  unfold lineage_of. rewrite Hanc, bind_Ok_l.
  destruct (mapR_get_object_all s ancs) as [os ->].
  { intros b Hb. eapply compute_mro_members_exist; [exact Hmro | by right]. }
  rewrite !bind_Ok_l.
  destruct (decide (parent ∈ ancs)) as [Hin | Hnin].
  - rewrite bool_decide_eq_true_2; [done | by right].
  - rewrite bool_decide_eq_false_2; [by destruct (is_object_type parent)|].
    intros Hin. apply elem_of_cons in Hin as [-> | Hin]; done.
Qed.

Lemma ObjectType__issubclass_agrees_witness :
  ObjectType__issubclass (λ _, plain_shape) (λ _, true) 1 family_schema
    "D1" "G"
  = _issubclass 3 family_schema "D1" "G".
Proof.
  apply (ObjectType__issubclass_agrees (λ _, plain_shape) (λ _, true) 3 0
           family_schema "D1" "G"); [reflexivity | reflexivity |].
  eexists. split; vm_compute; reflexivity.
Defined.

Lemma anyR_true {A} (f : A → outcome bool) (l : list A) t :
  t ∈ l → f t = Ok true → (∀ c, c ∈ l → is_Ok (f c)) → anyR f l = Ok true.
Proof.
  intros Ht Hft Hall. induction l as [|c l IH]; [by apply elem_of_nil in Ht|].
  cbn [anyR]. destruct (Hall c) as [b Hb]; [left|]. rewrite Hb, bind_Ok_l.
  destruct b; [done|]. apply IH.
  - apply elem_of_cons in Ht as [-> | Ht]; [congruence | done].
  - intros c' Hc'. apply Hall. by right.
Qed.

(** Between two types that are neither unions nor intersections the test
    returns, with any positive budget, once the lineage is there. *)
Lemma ObjectType__issubclass_plain (shape : name → type_shape)
    (is_object_type : name → bool) n (s : schema) self parent :
  shape self = plain_shape → shape parent = plain_shape →
  is_Ok (lineage_of s self) →
  is_Ok (ObjectType__issubclass shape is_object_type (S n) s self parent).
Proof.
  intros Hself Hparent [lin Hlin]. cbn [ObjectType__issubclass].
  case_decide; [by eexists|]. rewrite Hself, Hparent, Hlin, bind_Ok_l.
  cbn [union_of intersection_of is_opaque_union plain_shape].
  case_decide; [by eexists|]. destruct (is_object_type parent); by eexists.
Qed.

(** X28: unions and intersections of types that are themselves neither:
    every component of a union type is a subclass of the union, and an
    intersection type is a subclass of every one of its components. *)
Theorem ObjectType__issubclass_components (shape : name → type_shape)
    (is_object_type : name → bool) n (s : schema) U comps t :
  (∀ c, c ∈ comps → shape c = plain_shape ∧ is_Ok (lineage_of s c)) →
  t ∈ comps →
  (union_of (shape U) = comps → is_object_type U = true →
   ObjectType__issubclass shape is_object_type (S (S n)) s t U = Ok true) ∧
  (intersection_of (shape U) = comps →
   union_of (shape U) = [] ∨ is_opaque_union (shape U) = true →
   ObjectType__issubclass shape is_object_type (S (S n)) s U t = Ok true).
Proof.
  intros Hcomps Ht. destruct (Hcomps t Ht) as [Hshape [lin Hlin]]. split.
  - intros Hunion HU. remember (S n) as m eqn:Hm.
    cbn [ObjectType__issubclass].
    case_decide; [done|]. rewrite Hshape, Hlin, bind_Ok_l.
    cbn [union_of intersection_of is_opaque_union plain_shape].
    case_decide; [done|]. rewrite HU, Hunion.
    destruct comps as [|c0 cs] eqn:Hc; [by apply elem_of_nil in Ht|].
    rewrite <- Hc in *. destruct (is_opaque_union (shape U)); [done|].
    subst m. apply (anyR_true _ _ t); [done | |].
    + cbn [ObjectType__issubclass]. by rewrite decide_True.
    + intros c Hcin. destruct (Hcomps c Hcin) as [Hcs _].
      apply ObjectType__issubclass_plain; [done | done | by exists lin].
  - intros Hinter Hnounion. remember (S n) as m eqn:Hm.
    cbn [ObjectType__issubclass].
    case_decide; [done|].
    assert (∀ (r1 r2 : outcome bool),
              match union_of (shape U), is_opaque_union (shape U) with
              | _ :: _, false => r1
              | _, _ => r2
              end = r2) as ->.
    { intros r1 r2. destruct Hnounion as [-> | ->]; [done|].
      by destruct (union_of (shape U)). }
    rewrite Hinter.
    destruct comps as [|c0 cs] eqn:Hc; [by apply elem_of_nil in Ht|].
    rewrite <- Hc in *.
    subst m. apply (anyR_true _ _ t); [done | |].
    + cbn [ObjectType__issubclass]. by rewrite decide_True.
    + intros c Hcin. destruct (Hcomps c Hcin) as [Hcs Hcl].
      by apply ObjectType__issubclass_plain.
Qed.

Lemma ObjectType__issubclass_components_witness :
  ObjectType__issubclass union_shape (λ _, true) 2 family_schema "D2" "D1|D2"
  = Ok true.
Proof.
  apply (proj1 (ObjectType__issubclass_components union_shape (λ _, true) 0
                  family_schema "D1|D2" ["D1"; "D2"] "D2"
                  ltac:(intros c Hc;
                        apply elem_of_cons in Hc as [-> | Hc];
                        [|apply list_elem_of_singleton in Hc as ->];
                        (split; [reflexivity
                                | eexists; vm_compute; reflexivity]))
                  ltac:(right; left)));
    reflexivity.
Defined.

(** ** The subclass test on tuples *)

(** X29: [issubclass] masks errors: a parent that is the generic [any]
    type is accepted without linearizing, so also for an entity whose
    linearization fails; and on a tuple the answer is [True] as soon as one
    member is accepted, the members after it not being examined, whatever
    they would raise. *)
Theorem issubclass_short_circuits fuel (is_any : name → bool) (s : schema)
    self :
  (∀ p, is_any p = true → issubclass fuel is_any s self (Parent p) = Ok true) ∧
  (∀ pre p post,
     Forall (λ q, issubclass fuel is_any s self q = Ok false) pre →
     issubclass fuel is_any s self p = Ok true →
     issubclass fuel is_any s self (Parents (pre ++ p :: post)) = Ok true) ∧
  (∀ ps,
     Forall (λ q, issubclass fuel is_any s self q = Ok false) ps →
     issubclass fuel is_any s self (Parents ps) = Ok false).
Proof.
  split; [|split].
  - intros p Hany. cbn [issubclass]. by rewrite Hany.
  - intros pre p post Hpre Hp. cbn [issubclass].
    induction Hpre as [|q pre Hq Hpre IH]; cbn [app anyR].
    + by rewrite Hp.
    + by rewrite Hq.
  - intros ps Hps. cbn [issubclass].
    induction Hps as [|q ps Hq Hps IH]; cbn [anyR]; [done|]. by rewrite Hq.
Qed.

(** ** The empty edit script *)

(** X30: a rebase whose script removes nothing and adds nothing leaves a
    non-empty base list as it is, the list that is just the default base
    included, and gives an empty base list the default base of the class,
    when it has one. *)
Theorem reconstruct_bases_empty_script (s : schema) dflt bases :
  (∀ d, dflt = Some d → is_Some (s !! d)) →
  reconstruct_bases s dflt bases [] []
  = Ok (match bases, dflt with
        | [], Some d => [d]
        | _, _ => bases
        end).
Proof.
  intros Hd.
  assert (∀ l : list name, edit_bases s l [] [] = Ok l) as Hedit.
  { intros l. unfold edit_bases.
    destruct (remove_loop (length l) 0 (list_to_set []) l ∅)
      as [l' ex'] eqn:Hr.
    destruct (remove_loop_keeps _ _ _ _ _ _ _ Hr) as (_ & Hfil & _).
    rewrite !filter_all in Hfil by (intros b _; set_solver).
    by subst l'. }
  unfold reconstruct_bases, drop_default.
  destruct dflt as [d|].
  - destruct (Hd d eq_refl) as [o Ho]. rewrite (get_object_Some s d o Ho).
    rewrite !bind_Ok_l, Hedit, !bind_Ok_l. unfold restore_default.
    case_decide as Hb.
    + subst bases. by rewrite (get_object_Some s d o Ho).
    + destruct bases; [|done]. by rewrite (get_object_Some s d o Ho).
  - rewrite !bind_Ok_l, Hedit, !bind_Ok_l. by destruct bases.
Qed.

Lemma reconstruct_bases_empty_script_witness :
  reconstruct_bases flat_schema (Some "Object") ["Object"] [] []
  = Ok ["Object"].
Proof.
  apply (reconstruct_bases_empty_script flat_schema (Some "Object") ["Object"]).
  intros d [= <-]. vm_compute. by eexists.
Defined.

(** ** The delete operation, through the command of the referrer *)

Lemma holds_entry (s : schema) n a k v :
  holds s n a k v ↔ entry s n a k = Some v.
Proof.
  unfold holds, entry, get_field_value, get_object.
  destruct (s !! n) as [o|]; simpl.
  - split; [by intros (c & [= <-] & ?) | by eexists].
  - split; [by intros (c & ? & _) | done].
Qed.

Lemma lacks_entry (s : schema) n a k : lacks s n a k → entry s n a k = None.
Proof.
  unfold lacks, entry, get_field_value, get_object.
  destruct (s !! n) as [o|]; simpl; [by intros (c & [= <-] & ?) | done].
Qed.

Lemma entry_get_field_value (s s' : schema) n a k :
  get_field_value s' n a = get_field_value s n a →
  entry s' n a k = entry s n a k.
Proof.
  unfold entry, get_field_value, get_object.
  destruct (s' !! n) as [o'|], (s !! n) as [o|]; simpl; try done.
  by intros [= ->].
Qed.

Lemma same_except_refl X (s : schema) : same_except X s s.
Proof. split; [by intros n | done]. Qed.

Lemma same_except_trans X (s1 s2 s3 : schema) :
  same_except X s1 s2 → same_except X s2 s3 → same_except X s1 s3.
Proof.
  intros [Hh1 Hf1] [Hh2 Hf2]. split; [by eapply same_hierarchy_trans|].
  intros a Ha n. by rewrite Hf2, Hf1.
Qed.

Lemma same_except_mono X Y (s1 s2 : schema) :
  (∀ a, a ∈ X → a ∈ Y) → same_except X s1 s2 → same_except Y s1 s2.
Proof. intros HXY [Hh Hf]. split; [done|]. intros a Ha. apply Hf. auto. Qed.

Lemma set_field_value_same_except (s : schema) obj a c s' :
  set_field_value s obj a c = Ok s' → same_except [a] s s'.
Proof.
  intros (Hnew & Hattr & Hoth & Hsame)%set_field_value_spec.
  split; [done|]. intros a' Ha' n.
  destruct (decide (n = obj)) as [->|Hn].
  - apply Hattr. intros ->. apply Ha'. left.
  - apply get_field_value_other. by apply Hoth.
Qed.

Lemma keyed_subseteq `{Collaborators} (c c' : refcoll) :
  c' ⊆ c → keyed c → keyed c'.
Proof.
  intros Hsub Hk sx k v Hkv. apply (Hk sx k v).
  by eapply lookup_weaken.
Qed.

Lemma keyed_insert `{Collaborators} (c : refcoll) k v :
  (∀ sx, get_key_for sx v = k) → keyed c → keyed (<[k := v]> c).
Proof.
  intros Hv Hk sx k' v' Hkv. destruct (decide (k' = k)) as [->|Hne].
  - rewrite lookup_insert_eq in Hkv. injection Hkv as <-. apply Hv.
  - rewrite lookup_insert_ne in Hkv by done. by apply (Hk sx).
Qed.

Lemma find_inherited_entry (s : schema) bs a key init inh :
  (init = Ok None ∨ ∃ e, init = Raise e) →
  find_inherited s bs a key init = Ok (Some inh) →
  ∃ b c, b ∈ bs ∧ get_field_value s b a = Ok c ∧ c !! key = Some inh.
Proof.
  revert init. induction bs as [|b bs IH]; intros init Hinit Hf.
  - simpl in Hf. destruct Hinit as [-> | [e ->]]; discriminate.
  - simpl in Hf. apply bind_Ok in Hf as (c & Hc & Hf).
    destruct (c !! key) as [i|] eqn:Hi.
    + injection Hf as ->. exists b, c. split; [left | done].
    + destruct (IH (Ok None) ltac:(by left) Hf) as (b' & c' & Hb' & Hc').
      exists b', c'. split; [by right | done].
Qed.

Section delete_steps.
Context `{Collaborators}.
Variable rd : refdict.
Variable X : list name.
Variable s0 : schema.
Hypothesis rd_registered : rd ∈ get_refdicts.
Hypothesis local_apart : local_attr rd ∉ attr <$> get_refdicts.
Hypothesis attr_written : attr rd ∈ X.
Hypothesis local_written : local_attr rd ∈ X.

(** A write of a keyed collection keeps the schema within the frame and
    its collections keyed. *)
Lemma set_field_value_inv (s : schema) obj a c s' :
  same_except X s0 s ∧ all_keyed s →
  set_field_value s obj a c = Ok s' →
  a ∈ X → (a ∈ attr <$> get_refdicts → keyed c) →
  same_except X s0 s' ∧ all_keyed s'.
Proof.
  intros [Hfr Hk] Hset Ha Hc. split.
  - eapply same_except_trans; [exact Hfr|].
    eapply same_except_mono; [|by eapply set_field_value_same_except].
    by intros a' ->%list_elem_of_singleton.
  - destruct (set_field_value_spec _ _ _ _ _ Hset) as (Hnew & Hattr & Hoth & _).
    intros n rd' c' Hrd' Hc'.
    destruct (decide (n = obj)) as [->|Hn].
    + destruct (decide (attr rd' = a)) as [Heq|Hne].
      * rewrite Heq, Hnew in Hc'. injection Hc' as <-. apply Hc.
        rewrite <- Heq. apply list_elem_of_fmap. by exists rd'.
      * rewrite Hattr in Hc' by done. by apply (Hk obj rd').
    + apply (Hk n rd' c' Hrd'). rewrite <- Hc'. symmetry.
      apply get_field_value_other. by apply Hoth.
Qed.

Lemma drop_from_descendants_inv (s : schema) ds key s' :
  same_except X s0 s ∧ all_keyed s →
  drop_from_descendants s ds rd key = Ok s' →
  same_except X s0 s' ∧ all_keyed s'.
Proof.
  unfold drop_from_descendants. revert s.
  induction ds as [|d ds IH]; intros s Hinv Hf.
  - by injection Hf as <-.
  - cbn [foldR] in Hf. apply bind_Ok in Hf as (s1 & Hstep & Hf).
    apply (IH s1); [|done].
    apply bind_Ok in Hstep as (lc & Hlc & Hstep).
    destruct (lc !! key); [by injection Hstep as <-|].
    apply bind_Ok in Hstep as (c & Hc & Hstep).
    apply (set_field_value_inv _ _ _ _ _ Hinv Hstep); [done|].
    intros _. eapply keyed_subseteq; [apply delete_subseteq|].
    by eapply (proj2 Hinv).
Qed.

Lemma Object_del_classref_inv (s : schema) self key s' :
  same_except X s0 s ∧ all_keyed s →
  Object_del_classref s self rd key = Ok s' →
  same_except X s0 s' ∧ all_keyed s'.
Proof.
  unfold Object_del_classref. intros Hinv Hd.
  apply bind_Ok in Hd as (lc & Hlc & Hd).
  apply bind_Ok in Hd as (ac & Hac & Hd).
  apply bind_Ok in Hd as (s1 & H1 & Hd).
  assert (same_except X s0 s1 ∧ all_keyed s1) as Hinv1.
  { destruct (lc !! key); [|by injection H1 as <-].
    apply (set_field_value_inv _ _ _ _ _ Hinv H1); [done|].
    by intros ?. }
  destruct (ac !! key); [|by injection Hd as <-].
  apply (set_field_value_inv _ _ _ _ _ Hinv1 Hd); [done|].
  intros _. eapply keyed_subseteq; [apply delete_subseteq|].
  by eapply (proj2 Hinv).
Qed.

Lemma del_classref_inv (s : schema) self key s' :
  (∀ inh sx, (∃ b c, get_field_value s b (attr rd) = Ok c ∧
                     c !! key = Some inh) →
             ∀ sy, get_key_for sx inh = get_key_for sy inh) →
  same_except X s0 s ∧ all_keyed s →
  del_classref s self rd key = Ok s' →
  same_except X s0 s' ∧ all_keyed s'.
Proof.
  unfold del_classref. intros Hkey Hinv Hd.
  apply bind_Ok in Hd as (bs & Hbs & Hd).
  apply bind_Ok in Hd as (inh & Hinh & Hd).
  apply bind_Ok in Hd as (s1 & H1 & Hd).
  apply bind_Ok in Hd as (s2 & H2 & Hd).
  assert (same_except X s0 s1 ∧ all_keyed s1) as Hinv1.
  { destruct inh; [|by injection H1 as <-].
    by eapply drop_from_descendants_inv. }
  pose proof (Object_del_classref_inv _ _ _ _ Hinv1 H2) as Hinv2.
  destruct inh as [inh|]; [|by injection Hd as <-].
  apply bind_Ok in Hd as (c & Hc & Hd).
  apply (set_field_value_inv _ _ _ _ _ Hinv2 Hd); [done|].
  intros _. apply keyed_insert; [|by eapply (proj2 Hinv2)].
  intros sx. apply Hkey.
  apply find_inherited_entry in Hinh as (b & cb & _ & Hcb & Hk);
    [by exists b, cb | right; by eexists].
Qed.
End delete_steps.

Section delete_state.
Context `{Collaborators}.
Variable rd : refdict.
Hypothesis rd_registered : rd ∈ get_refdicts.
Hypothesis local_apart : local_attr rd ∉ attr <$> get_refdicts.
Hypothesis descendants_of_hierarchy :
  ∀ s1 s2 obj, same_hierarchy s1 s2 →
               get_descendants s1 obj = get_descendants s2 obj.

Lemma attrs_apart : attr rd ≠ local_attr rd.
Proof.
  intros Heq. apply local_apart. rewrite <- Heq.
  apply list_elem_of_fmap. by exists rd.
Qed.

(** The state [_delete_innards] leaves: the owner has the inherited
    definition, the descendants that do not define the key have no entry
    for it, and nothing but the two collections of the owner and of its
    descendants was written. *)
Lemma delete_innards_state (s s0 s4 : schema) scls P bs inh :
  all_keyed s0 →
  super_delete_innards s scls = Ok s0 →
  get_bases s0 P = Ok bs →
  find_inherited s0 bs (attr rd) (get_key_for s0 scls)
    (Raise (UnboundLocalError "inherited")) = Ok (Some inh) →
  _delete_innards s scls (Some P) rd = Ok s4 →
  P ∉ get_descendants s0 P →
  same_except [attr rd; local_attr rd] s0 s4 ∧ all_keyed s4 ∧
  entry s4 P (attr rd) (get_key_for s0 scls) = Some inh ∧
  (∀ d, d ∈ get_descendants s0 P →
        lacks s0 d (local_attr rd) (get_key_for s0 scls) →
        entry s4 d (attr rd) (get_key_for s0 scls) = None) ∧
  (∀ n, n ≠ P → n ∉ get_descendants s0 P → s4 !! n = s0 !! n).
Proof.
  intros Hkeyed Hsuper Hbs Hinh Hdel HP.
  set (key := get_key_for s0 scls) in *.
  pose proof attrs_apart as Hapart.
  unfold _delete_innards in Hdel. rewrite Hsuper, bind_Ok_l in Hdel.
  fold key in Hdel.
  apply bind_Ok in Hdel as (s3 & Hdc & Hdrop).
  assert (∀ sx, get_key_for sx inh = key) as Hinhk.
  { intros sx.
    apply find_inherited_entry in Hinh as (b & c & _ & Hc & Hk);
      [|right; by eexists].
    by apply (Hkeyed b rd c rd_registered Hc sx). }
  (* the frame and the keys *)
  assert (same_except [attr rd; local_attr rd] s0 s3 ∧ all_keyed s3) as Hinv3.
  { eapply (del_classref_inv rd [attr rd; local_attr rd] s0);
      [done | done | left | right; left | | | exact Hdc].
    - intros i sx (b & c & Hc & Hk) sy.
      by rewrite !(Hkeyed b rd c rd_registered Hc).
    - split; [apply same_except_refl | done]. }
  pose proof (drop_from_descendants_inv rd [attr rd; local_attr rd] s0
                rd_registered ltac:(left) _ _ _ _ Hinv3 Hdrop) as [Hfr4 Hk4].
  split; [done|]. split; [done|].
  (* the steps of [del_classref] *)
  unfold del_classref in Hdc. rewrite Hbs, bind_Ok_l, Hinh, bind_Ok_l in Hdc.
  apply bind_Ok in Hdc as (s1 & Hdrop1 & Hdc).
  apply bind_Ok in Hdc as (s2 & Hobj & Hdc).
  apply bind_Ok in Hdc as (all_coll & Hall & Hdc).
  destruct (drop_from_descendants_spec rd Hapart _ _ _ _ Hdrop1)
    as (Hsame1 & Hout1 & Hlocal1 & _ & _).
  destruct (Object_del_classref_spec rd Hapart _ _ _ _ Hobj) as (_ & _ & Hout2).
  destruct (set_field_value_spec _ _ _ _ _ Hdc) as (Hnew3 & _ & Hout3 & _).
  destruct (drop_from_descendants_spec rd Hapart _ _ _ _ Hdrop)
    as (Hsame4 & Hout4 & Hlocal4 & _ & Hclean4).
  assert (get_descendants s3 P = get_descendants s0 P) as Hds.
  { symmetry. apply descendants_of_hierarchy. apply Hinv3. }
  rewrite Hds in Hout4, Hclean4.
  split; [|split].
  - rewrite (entry_get_field_value s3 s4 P) by
      (apply get_field_value_other; by apply Hout4).
    apply holds_entry. eexists. split; [exact Hnew3|].
    rewrite Hinhk. apply lookup_insert_eq.
  - intros d Hd Hloc. apply lacks_entry, (Hclean4 d Hd).
    destruct Hloc as (lc & Hlc & Hk). exists lc. split; [|done].
    assert (d ≠ P) as Hne by (by intros ->).
    rewrite Hlocal4.
    rewrite (get_field_value_other s2 s3) by (by apply Hout3).
    rewrite (get_field_value_other s1 s2) by (by apply Hout2).
    by rewrite Hlocal1.
  - intros n Hn Hnd. by rewrite Hout4, Hout3, Hout2, Hout1.
Qed.
End delete_state.

Section acquire_facts.
Context `{Collaborators}.
Variable super_merge : schema → name → list name → outcome schema.
Variable non_inheritable_attr : refdict → option name.
Hypothesis refdicts_distinct : NoDup (attr <$> get_refdicts).
Hypothesis super_merge_frame :
  ∀ s1 n objs s2, super_merge s1 n objs = Ok s2 → same_except [] s1 s2.

Lemma merge_refdict_same_hierarchy self obj (s : schema) rd s' :
  merge_refdict non_inheritable_attr self obj s rd = Ok s' →
  same_hierarchy s s'.
Proof.
  unfold merge_refdict. intros Hm.
  apply bind_Ok in Hm as (this & _ & Hm).
  apply bind_Ok in Hm as (other & _ & Hm).
  destruct other as [other|]; [|by injection Hm as <-].
  destruct (match non_inheritable_attr rd with Some _ => _ | None => _ end)
    as [other'|e]; [|done].
  destruct (decide (other' = ∅)); [by injection Hm as <-|].
  destruct this as [this|];
    by apply set_field_value_spec in Hm as (_ & _ & _ & ?).
Qed.

Lemma merge_refdicts_same_hierarchy self obj rds (s : schema) s' :
  foldR (merge_refdict non_inheritable_attr self obj) rds s = Ok s' →
  same_hierarchy s s'.
Proof.
  revert s. induction rds as [|rd rds IH]; intros s Hf.
  - injection Hf as <-. by intros n.
  - cbn [foldR] in Hf. apply bind_Ok in Hf as (s1 & H1 & Hf).
    eapply same_hierarchy_trans; [by eapply merge_refdict_same_hierarchy|].
    by apply IH.
Qed.

(** The two loops of [merge]: the object ends with what it had over what
    each base passes on, and nothing else is written. *)
Lemma merge_objs_spec self objs (s0 s' : schema) :
  self ∉ objs → is_Some (s0 !! self) →
  (∀ obj rd c, obj ∈ objs → rd ∈ get_refdicts →
               get_field_value s0 obj (attr rd) = Ok c → keyed c) →
  foldR (λ s obj, foldR (merge_refdict non_inheritable_attr self obj)
                    get_refdicts s) objs s0 = Ok s' →
  same_hierarchy s0 s' ∧
  (∀ n, n ≠ self → s' !! n = s0 !! n) ∧
  (∀ a, a ∉ attr <$> get_refdicts →
        get_field_value s' self a = get_field_value s0 self a) ∧
  ∀ rd, rd ∈ get_refdicts →
    ∃ this, get_field_value s0 self (attr rd) = Ok this ∧
            get_field_value s' self (attr rd)
            = Ok (foldl (λ acc obj,
                           acc ∪ inheritable non_inheritable_attr s0 obj rd)
                    this objs).
Proof.
  revert s0. induction objs as [|obj objs IH]; intros s0 Hself [o Ho] Hkeyed Hm.
  - injection Hm as <-. split; [by intros n|]. split; [done|]. split; [done|].
    intros rd Hrd. cbn [foldl]. exists (default ∅ (refs o !! attr rd)).
    by rewrite (get_field_value_Ok s0 self o (attr rd) Ho).
  - cbn [foldR] in Hm. apply bind_Ok in Hm as (s1 & H1 & Hm).
    apply not_elem_of_cons in Hself as [Hne Hself].
    pose proof (merge_refdicts_same_hierarchy _ _ _ _ _ H1) as Hsame1.
    destruct (merge_refdicts_spec non_inheritable_attr self obj get_refdicts
                s0 s1 ltac:(by intros ->) refdicts_distinct
                ltac:(intros rd c Hrd; apply Hkeyed; [left | done]) H1)
      as (Hoth1 & Hattr1 & Hrds1).
    destruct (IH s1 Hself) as (Hsame & Hoth & Hattr & Hrds); [| |done|].
    { specialize (Hsame1 self). rewrite Ho in Hsame1.
      destruct (s1 !! self) as [o1|]; [by eexists | done]. }
    { intros obj' rd c Hobj' Hrd Hc. apply (Hkeyed obj' rd c); [by right|done|].
      rewrite <- Hc. symmetry. apply get_field_value_other. apply Hoth1.
      intros ->. done. }
    split; [by eapply same_hierarchy_trans|].
    split; [intros n Hn; by rewrite Hoth, Hoth1|].
    split; [intros a Ha; by rewrite Hattr, Hattr1|].
    intros rd Hrd. destruct (Hrds1 rd Hrd) as (this & Hthis & Hnew1).
    destruct (Hrds rd Hrd) as (this1 & Hthis1 & Hnew).
    exists this. split; [done|]. rewrite Hnew. cbn [foldl].
    assert (this1 = this ∪ inheritable non_inheritable_attr s0 obj rd) as ->
      by congruence.
    f_equal. clear -Hoth1 Hself.
    generalize (this ∪ inheritable non_inheritable_attr s0 obj rd).
    induction objs as [|b bs IHb]; intros acc; [done|].
    apply not_elem_of_cons in Hself as [Hb Hbs]. cbn [foldl].
    rewrite (inheritable_same non_inheritable_attr s0 s1 b rd)
      by (apply Hoth1; by intros ->).
    by apply IHb.
Qed.

Lemma inheritable_subseteq (s : schema) obj rd c :
  get_field_value s obj (attr rd) = Ok c →
  inheritable non_inheritable_attr s obj rd ⊆ c.
Proof.
  unfold get_field_value, inheritable, get_object.
  destruct (s !! obj) as [o|]; [|done]. intros [= <-].
  apply map_filter_subseteq.
Qed.

Lemma inheritable_keyed (s : schema) obj rd :
  all_keyed s → rd ∈ get_refdicts →
  keyed (inheritable non_inheritable_attr s obj rd).
Proof.
  intros Hk Hrd. destruct (s !! obj) as [o|] eqn:Ho.
  - eapply keyed_subseteq;
      [apply (inheritable_subseteq s obj rd), (get_field_value_Ok s obj o), Ho|].
    eapply (Hk obj rd); [done|]. by apply get_field_value_Ok.
  - unfold inheritable. rewrite Ho. by intros sx k v ?.
Qed.

Lemma keyed_union (c1 c2 : refcoll) : keyed c1 → keyed c2 → keyed (c1 ∪ c2).
Proof.
  intros H1 H2 sx k v [Hkv | [_ Hkv]]%lookup_union_Some_raw;
    [by apply H1 | by apply H2].
Qed.

Lemma keyed_merged (s : schema) rd bs this :
  all_keyed s → rd ∈ get_refdicts → keyed this →
  keyed (foldl (λ acc obj, acc ∪ inheritable non_inheritable_attr s obj rd)
           this bs).
Proof.
  intros Hk Hrd. revert this.
  induction bs as [|b bs IH]; intros this Hthis; [done|]. cbn [foldl].
  apply IH. apply keyed_union; [done | by apply inheritable_keyed].
Qed.

Lemma inheritable_get_field_value (s s' : schema) obj rd :
  (∀ a, get_field_value s' obj a = get_field_value s obj a) →
  inheritable non_inheritable_attr s' obj rd
  = inheritable non_inheritable_attr s obj rd.
Proof.
  intros Hg. unfold inheritable.
  pose proof (Hg (attr rd)) as Ha. unfold get_field_value, get_object in Ha.
  destruct (s' !! obj) as [o'|] eqn:Ho', (s !! obj) as [o|] eqn:Ho;
    simpl in Ha; try done.
  injection Ha as ->.
  destruct (non_inheritable_attr rd) as [nia|]; [|done].
  specialize (Hg nia). unfold get_field_value, get_object in Hg.
  rewrite Ho', Ho in Hg. simpl in Hg. by injection Hg as ->.
Qed.

(** [acquire_ancestor_inheritance] with the bases of the object: the
    object ends with what it had over what its bases pass on. *)
Lemma acquire_ancestor_inheritance_spec (s s' : schema) self :
  all_keyed s →
  (∀ n bs, get_bases s n = Ok bs → n ∉ bs) →
  InheritingObject_acquire_ancestor_inheritance
    super_merge non_inheritable_attr s self None = Ok s' →
  ∃ bs, get_bases s self = Ok bs ∧
    same_except (attr <$> get_refdicts) s s' ∧ all_keyed s' ∧
    (∀ n a, n ≠ self → get_field_value s' n a = get_field_value s n a) ∧
    ∀ rd, rd ∈ get_refdicts →
      ∃ this, get_field_value s self (attr rd) = Ok this ∧
              get_field_value s' self (attr rd)
              = Ok (foldl (λ acc obj,
                             acc ∪ inheritable non_inheritable_attr s obj rd)
                      this bs).
Proof.
  intros Hk Hnself Ha. unfold InheritingObject_acquire_ancestor_inheritance in Ha.
  apply bind_Ok in Ha as (bs & Hbs & Ha). exists bs. split; [done|].
  unfold InheritingObject_merge in Ha.
  apply bind_Ok in Ha as (sm & Hsm & Ha).
  destruct (super_merge_frame _ _ _ _ Hsm) as [Hsame0 Hfr0].
  assert (∀ n a, get_field_value sm n a = get_field_value s n a) as Hfr0'.
  { intros n a. apply Hfr0. by intros ?%elem_of_nil. }
  assert (is_Some (sm !! self)) as Hex.
  { unfold get_bases in Hbs.
    apply bind_Ok in Hbs as (o & Ho%get_object_Ok & _).
    specialize (Hsame0 self). rewrite Ho in Hsame0.
    destruct (sm !! self); [by eexists | done]. }
  destruct (merge_objs_spec self bs sm s' (Hnself _ _ Hbs) Hex) as
    (Hsame & Hoth & Hattr & Hrds); [|done|].
  { intros obj rd c _ Hrd Hc. apply (Hk obj rd c Hrd). by rewrite <- Hfr0'. }
  assert (∀ n a, n ≠ self → get_field_value s' n a = get_field_value s n a)
    as Hothers.
  { intros n a Hn. rewrite <- Hfr0'. apply get_field_value_other. by apply Hoth. }
  assert (∀ rd, rd ∈ get_refdicts →
      ∃ this, get_field_value s self (attr rd) = Ok this ∧
              get_field_value s' self (attr rd)
              = Ok (foldl (λ acc obj,
                             acc ∪ inheritable non_inheritable_attr s obj rd)
                      this bs)) as Hmerged.
  { intros rd Hrd. destruct (Hrds rd Hrd) as (this & Hthis & Hnew).
    exists this. split; [by rewrite <- Hfr0'|]. rewrite Hnew. f_equal.
    generalize this. clear -Hfr0'.
    induction bs as [|b bs IH]; intros acc; [done|].
    cbn [foldl]. rewrite (inheritable_get_field_value s sm b rd) by
      (intros a; apply Hfr0'). apply IH. }
  split; [|split; [|split; [done|done]]].
  - split; [by eapply same_hierarchy_trans|]. intros a Ha' n.
    destruct (decide (n = self)) as [->|Hn]; [|by apply Hothers].
    by rewrite Hattr, Hfr0'.
  - intros n rd c Hrd Hc. destruct (decide (n = self)) as [->|Hn].
    + destruct (Hmerged rd Hrd) as (this & Hthis & Hnew).
      rewrite Hnew in Hc. injection Hc as <-.
      apply keyed_merged; [done | done |]. by apply (Hk self rd).
    + apply (Hk n rd c Hrd). rewrite <- Hc. symmetry. by apply Hothers.
Qed.
End acquire_facts.

(** What a chain of unions holds under one key. *)
Lemma merged_lookup_mono (f : name → refcoll) bs (this : refcoll) k v :
  this !! k = Some v → foldl (λ acc b, acc ∪ f b) this bs !! k = Some v.
Proof.
  revert this. induction bs as [|b bs IH]; intros this Hk; [done|].
  cbn [foldl]. apply IH. by apply lookup_union_Some_l.
Qed.

Lemma merged_lookup_in (f : name → refcoll) bs (this : refcoll) b k v :
  b ∈ bs → f b !! k = Some v →
  is_Some (foldl (λ acc b, acc ∪ f b) this bs !! k).
Proof.
  revert this. induction bs as [|b0 bs IH]; intros this Hb Hk;
    [by apply elem_of_nil in Hb|].
  cbn [foldl]. apply elem_of_cons in Hb as [<- | Hb]; [|by apply IH].
  destruct (this !! k) as [w|] eqn:Hw.
  - exists w. apply merged_lookup_mono. by apply lookup_union_Some_l.
  - exists v. apply merged_lookup_mono. rewrite lookup_union_r; done.
Qed.

Lemma merged_lookup_from (f : name → refcoll) bs (this : refcoll) k v :
  foldl (λ acc b, acc ∪ f b) this bs !! k = Some v →
  this !! k = Some v ∨ ∃ b, b ∈ bs ∧ f b !! k = Some v.
Proof.
  revert this. induction bs as [|b0 bs IH]; intros this Hk; [by left|].
  cbn [foldl] in Hk. destruct (IH _ Hk) as [Hu | (b & Hb & Hf)].
  - apply lookup_union_Some_raw in Hu as [Hu | [_ Hu]]; [by left|].
    right. exists b0. split; [left | done].
  - right. exists b. split; [by right | done].
Qed.

Section update_facts.
Context `{Collaborators}.
Variable super_merge : schema → name → list name → outcome schema.
Variable non_inheritable_attr : refdict → option name.
Variable children : schema → name → list name.
Variable rd : refdict.
Variable key inh : name.
Variable sref : schema.
Variable near : name → Prop.
Hypothesis rd_registered : rd ∈ get_refdicts.
Hypothesis refdicts_distinct : NoDup (attr <$> get_refdicts).
Hypothesis super_merge_frame :
  ∀ s1 n objs s2, super_merge s1 n objs = Ok s2 → same_except [] s1 s2.
Hypothesis children_of_hierarchy :
  ∀ s1 s2 n, same_hierarchy s1 s2 → children s1 n = children s2 n.
Hypothesis no_self_base : ∀ n bs, get_bases sref n = Ok bs → n ∉ bs.
Hypothesis child_has_base :
  ∀ p c, c ∈ children sref p → ∃ bs, get_bases sref c = Ok bs ∧ p ∈ bs.

Lemma inheritable_entry (s : schema) b k v :
  inheritable non_inheritable_attr s b rd !! k = Some v →
  entry s b (attr rd) k = Some v.
Proof.
  unfold inheritable, entry. destruct (s !! b) as [o|]; [|done]. simpl.
  by intros [? _]%map_lookup_filter_Some.
Qed.

Lemma entry_inheritable (s : schema) b k v :
  entry s b (attr rd) k = Some v →
  (∀ nia, non_inheritable_attr rd = Some nia → entry s b nia k = None) →
  inheritable non_inheritable_attr s b rd !! k = Some v.
Proof.
  unfold inheritable, entry. destruct (s !! b) as [o|]; [|done]. simpl.
  intros Hk Hnia. apply map_lookup_filter_Some. split; [done|]. simpl.
  destruct (non_inheritable_attr rd) as [nia|]; [by apply Hnia | done].
Qed.

(** One [acquire_ancestor_inheritance] during the finalization: the
    object keeps its entries, takes the key from a base that passes it on,
    and has no entry that neither it nor a base had. *)
Lemma acquire_step (s s' : schema) c :
  same_except (local_attr rd :: (attr <$> get_refdicts)) sref s →
  all_keyed s →
  InheritingObject_acquire_ancestor_inheritance
    super_merge non_inheritable_attr s c None = Ok s' →
  (same_except (local_attr rd :: (attr <$> get_refdicts)) sref s' ∧
   all_keyed s') ∧
  (∀ n k v, entry s n (attr rd) k = Some v → entry s' n (attr rd) k = Some v) ∧
  (∀ p bs v, get_bases sref c = Ok bs → p ∈ bs →
     entry s p (attr rd) key = Some v →
     (∀ nia, non_inheritable_attr rd = Some nia → entry s p nia key = None) →
     is_Some (entry s' c (attr rd) key)) ∧
  ((∀ n v, near n → entry s n (attr rd) key = Some v → v = inh) →
   (near c → is_Some (entry s c (attr rd) key) ∨
             ∀ bs b, get_bases sref c = Ok bs → b ∈ bs → near b) →
   ∀ n v, near n → entry s' n (attr rd) key = Some v → v = inh).
Proof.
  intros Hfr Hk Ha.
  assert (∀ n, get_bases s n = get_bases sref n) as Hgb.
  { intros n. symmetry. apply same_hierarchy_get_bases, Hfr. }
  destruct (acquire_ancestor_inheritance_spec super_merge non_inheritable_attr
              refdicts_distinct super_merge_frame s s' c Hk) as
    (bs & Hbs & Hfr' & Hk' & Hoth & Hrds); [|done|].
  { intros n bs0 Hbs0. apply (no_self_base n bs0). by rewrite <- Hgb. }
  rewrite Hgb in Hbs.
  destruct (Hrds rd rd_registered) as (this & Hthis & Hnew).
  assert (∀ k, entry s c (attr rd) k = this !! k) as Hethis.
  { intros k. destruct (this !! k) as [v|] eqn:Hv.
    - apply holds_entry. by exists this.
    - apply lacks_entry. by exists this. }
  assert (∀ k, entry s' c (attr rd) k
               = foldl (λ acc obj,
                          acc ∪ inheritable non_inheritable_attr s obj rd)
                   this bs !! k) as Henew.
  { intros k. destruct (foldl _ this bs !! k) as [v|] eqn:Hv.
    - apply holds_entry. eexists. split; [exact Hnew | exact Hv].
    - apply lacks_entry. eexists. split; [exact Hnew | exact Hv]. }
  assert (∀ n a k, n ≠ c → entry s' n a k = entry s n a k) as Heoth.
  { intros n a k Hn. apply entry_get_field_value. by apply Hoth. }
  split; [|split; [|split]].
  - split; [|done]. eapply same_except_trans; [exact Hfr|].
    eapply same_except_mono; [|exact Hfr']. intros a Ha'. by right.
  - intros n k v Hv. destruct (decide (n = c)) as [->|Hn].
    + rewrite Henew. apply merged_lookup_mono. by rewrite <- Hethis.
    + by rewrite Heoth.
  - intros p bs' v Hbs' Hp Hv Hnia.
    assert (bs' = bs) as -> by congruence.
    rewrite Henew.
    eapply (merged_lookup_in
              (λ obj, inheritable non_inheritable_attr s obj rd)); [exact Hp|].
    by apply entry_inheritable.
  - intros HJ Hc n v Hn Hv. destruct (decide (n = c)) as [->|Hne].
    + destruct (Hc Hn) as [[w Hw] | Hc'].
      * assert (entry s' c (attr rd) key = Some w) as Hw'.
        { rewrite Henew. apply merged_lookup_mono. by rewrite <- Hethis. }
        assert (v = w) as -> by congruence. by apply (HJ c w).
      * rewrite Henew in Hv.
        apply (merged_lookup_from
                 (λ obj, inheritable non_inheritable_attr s obj rd)) in Hv
          as [Hv | (b & Hb & Hv)].
        -- apply (HJ c v Hn). by rewrite Hethis.
        -- apply (HJ b v); [by apply (Hc' bs)|]. by apply inheritable_entry.
    + apply (HJ n v Hn). by rewrite <- (Heoth n (attr rd) key).
Qed.

(** [update_descendants] during the finalization: every object reached
    through the children index ends with the key when the start object
    has it and passes it on; and no entry under the key appears that was
    not there among the objects [near]. *)
Lemma update_descendants_spec fuel (s s' : schema) p :
  same_except (local_attr rd :: (attr <$> get_refdicts)) sref s →
  all_keyed s →
  update_descendants super_merge non_inheritable_attr children fuel s p
    = Ok s' →
  (same_except (local_attr rd :: (attr <$> get_refdicts)) sref s' ∧
   all_keyed s') ∧
  (∀ n k v, entry s n (attr rd) k = Some v → entry s' n (attr rd) k = Some v) ∧
  ((∀ nia, non_inheritable_attr rd = Some nia →
      (nia ∉ local_attr rd :: (attr <$> get_refdicts)) ∧
      ∀ n, n = p ∨ descends children sref p n → lacks sref n nia key) →
   is_Some (entry s p (attr rd) key) →
   ∀ d, descends children sref p d → is_Some (entry s' d (attr rd) key)) ∧
  ((∀ n v, near n → entry s n (attr rd) key = Some v → v = inh) →
   (∀ d bs b, descends children sref p d → near d →
              get_bases sref d = Ok bs → b ∈ bs → near b) →
   ∀ n v, near n → entry s' n (attr rd) key = Some v → v = inh).
Proof.
  revert s s' p. induction fuel as [|fuel IHf]; intros s s' p Hfr Hk Hu;
    [done|].
  cbn [update_descendants] in Hu.
  rewrite <- (children_of_hierarchy sref s p (proj1 Hfr)) in Hu.
  assert (∀ cs s s',
    (∀ c, c ∈ cs → c ∈ children sref p) →
    same_except (local_attr rd :: (attr <$> get_refdicts)) sref s →
    all_keyed s →
    foldR (λ s child,
             s ← InheritingObject_acquire_ancestor_inheritance
                   super_merge non_inheritable_attr s child None;
             update_descendants super_merge non_inheritable_attr children
               fuel s child) cs s = Ok s' →
    (same_except (local_attr rd :: (attr <$> get_refdicts)) sref s' ∧
     all_keyed s') ∧
    (∀ n k v, entry s n (attr rd) k = Some v →
              entry s' n (attr rd) k = Some v) ∧
    ((∀ nia, non_inheritable_attr rd = Some nia →
        (nia ∉ local_attr rd :: (attr <$> get_refdicts)) ∧
        ∀ n, n = p ∨ descends children sref p n → lacks sref n nia key) →
     is_Some (entry s p (attr rd) key) →
     ∀ c d, c ∈ cs → d = c ∨ descends children sref c d →
            is_Some (entry s' d (attr rd) key)) ∧
    ((∀ n v, near n → entry s n (attr rd) key = Some v → v = inh) →
     (∀ d bs b, descends children sref p d → near d →
                get_bases sref d = Ok bs → b ∈ bs → near b) →
     ∀ n v, near n → entry s' n (attr rd) key = Some v → v = inh)) as Hloop.
  { clear s s' Hfr Hk Hu.
    induction cs as [|c cs IHc]; intros s s' Hcs Hfr Hk Hf.
    - injection Hf as <-. split; [done|]. split; [done|].
      split; [by intros _ _ c d ?%elem_of_nil | by intros HJ _].
    - cbn [foldR] in Hf. apply bind_Ok in Hf as (s2 & Hstep & Hf).
      apply bind_Ok in Hstep as (s1 & Hacq & Hupd).
      assert (c ∈ children sref p) as Hc by (apply Hcs; left).
      destruct (child_has_base p c Hc) as (bsc & Hbsc & Hp).
      destruct (acquire_step s s1 c Hfr Hk Hacq)
        as ([Hfr1 Hk1] & Hmono1 & Hhas1 & HJ1).
      destruct (IHf s1 s2 c Hfr1 Hk1 Hupd)
        as ([Hfr2 Hk2] & Hmono2 & Hhas2 & HJ2).
      destruct (IHc s2 s' ltac:(intros c' Hc'; apply Hcs; by right)
                  Hfr2 Hk2 Hf) as (Hinv' & Hmono' & Hhas' & HJ').
      split; [done|]. split; [by auto|]. split.
      + intros Hpass [w Hw] c' d Hc' Hd.
        apply elem_of_cons in Hc' as [-> | Hc'].
        2: { refine (Hhas' Hpass _ c' d Hc' Hd). exists w. auto. }
        assert (is_Some (entry s1 c (attr rd) key)) as [w1 Hw1].
        { apply (Hhas1 p bsc w Hbsc Hp Hw). intros nia Hnia.
          destruct (Hpass nia Hnia) as [Hout Hl].
          rewrite (entry_get_field_value sref s p nia key)
            by (by apply (proj2 Hfr)).
          apply lacks_entry, Hl. by left. }
        destruct Hd as [-> | Hd]; [exists w1; auto|].
        destruct (Hhas2 ltac:(
                    intros nia Hnia; destruct (Hpass nia Hnia) as [Hout Hl];
                    split; [done|]; intros n [-> | Hn]; apply Hl; right;
                    [by apply descends_child
                    | by eapply descends_step]) ltac:(by exists w1) d Hd)
          as [w2 Hw2].
        exists w2. auto.
      + intros HJ Hnear. apply HJ'; [|done]. apply HJ2.
        * apply HJ1; [done|]. intros Hnc. right. intros bs b Hbs Hb.
          apply (Hnear c bs b); [by apply descends_child | done | done | done].
        * intros d bs b Hd. apply Hnear. by eapply descends_step. }
  destruct (Hloop _ s s' ltac:(done) Hfr Hk Hu) as (Hinv' & Hmono & Hhas & HJ).
  split; [done|]. split; [done|]. split; [|done].
  intros Hpass Hp d Hd. inversion Hd as [p0 c Hc | p0 c d0 Hc Hcd]; subst.
  - apply (Hhas Hpass Hp d d Hc). by left.
  - apply (Hhas Hpass Hp c d Hc). by right.
Qed.
End update_facts.

Section delete_operation_facts.
Context `{Collaborators}.
Variable super_merge : schema → name → list name → outcome schema.
Variable non_inheritable_attr : refdict → option name.
Variable children : schema → name → list name.
Variable super_alter_finalize : schema → name → outcome schema.

End delete_operation_facts.

(** *** The children index of the examples *)

Lemma get_children_spec (s : schema) p c :
  c ∈ get_children s p ↔ ∃ o, s !! c = Some o ∧ p ∈ bases o.
Proof.
  unfold get_children. rewrite list_elem_of_filter, elem_of_elements, elem_of_dom.
  split.
  - intros [Hp [o Ho]]. exists o. split; [done|]. by rewrite Ho in Hp.
  - intros (o & Ho & Hp). rewrite Ho. split; [done | by eexists].
Qed.

Lemma get_children_same_hierarchy (s1 s2 : schema) n :
  same_hierarchy s1 s2 → get_children s1 n = get_children s2 n.
Proof.
  intros Hs. unfold get_children.
  assert (dom s1 = dom s2) as ->.
  { apply set_eq. intros m. rewrite !elem_of_dom. specialize (Hs m).
    destruct (s1 !! m), (s2 !! m); simpl in Hs; done. }
  apply filter_ext_in. intros m _. by rewrite Hs.
Qed.

(** In a schema whose bases all exist, the bases of an object are read
    off its state. *)
Lemma get_bases_closed (s : schema) c :
  map_Forall (λ _ o, Forall (λ b, is_Some (s !! b)) (bases o)) s →
  ∀ bs, get_bases s c = Ok bs ↔ ∃ o, s !! c = Some o ∧ bs = bases o.
Proof.
  intros Hwf bs. unfold get_bases. split.
  - intros Hb. apply bind_Ok in Hb as (o & Ho%get_object_Ok & Hb).
    apply bind_Ok in Hb as (_ & _ & [= <-]). by exists o.
  - intros (o & Ho & ->). rewrite (get_object_Some s c o Ho), bind_Ok_l.
    destruct (mapR_get_object_all s (bases o)) as [os Hos].
    { intros b Hb. specialize (Hwf c o Ho). simpl in Hwf.
      by apply (proj1 (Forall_forall _ _) Hwf). }
    by rewrite Hos.
Qed.

Lemma get_children_bases (s : schema) p c :
  map_Forall (λ _ o, Forall (λ b, is_Some (s !! b)) (bases o)) s →
  c ∈ get_children s p ↔ ∃ bs, get_bases s c = Ok bs ∧ p ∈ bs.
Proof.
  intros Hwf. rewrite get_children_spec. split.
  - intros (o & Ho & Hp). exists (bases o). split; [|done].
    apply get_bases_closed; [done | by exists o].
  - intros (bs & Hbs & Hp).
    apply get_bases_closed in Hbs as (o & Ho & ->); [by exists o | done].
Qed.

Lemma no_self_base_closed (s : schema) n bs :
  map_Forall (λ n o, n ∉ bases o) s → get_bases s n = Ok bs → n ∉ bs.
Proof.
  intros Hwf Hb. unfold get_bases in Hb.
  apply bind_Ok in Hb as (o & Ho%get_object_Ok & Hb).
  apply bind_Ok in Hb as (_ & _ & [= <-]). by apply (Hwf n o).
Qed.

Lemma all_keyed_pointers (s : schema) :
  map_Forall (λ _ o, map_Forall (λ k v, short_name v = k)
                       (default ∅ (refs o !! "pointers"))) s →
  @all_keyed ref_collaborators s.
Proof.
  intros Hwf n rd c Hrd Hc sx k v Hkv.
  apply list_elem_of_singleton in Hrd as ->.
  unfold get_field_value in Hc.
  apply bind_Ok in Hc as (o & Ho%get_object_Ok & [= <-]).
  by apply (Hwf n o Ho k v).
Qed.

Lemma chain_schema_descends p d :
  descends get_children chain_schema p d →
  (p = "P" → d = "C") ∧ p ≠ "C".
Proof.
  assert (get_children chain_schema "P" = ["C"]) as HP
    by (vm_compute; reflexivity).
  assert (get_children chain_schema "C" = []) as HC
    by (vm_compute; reflexivity).
  induction 1 as [p c Hc | p c d Hc _ [IH1 IH2]].
  - split.
    + intros ->. rewrite HP in Hc. by apply list_elem_of_singleton in Hc.
    + intros ->. rewrite HC in Hc. by apply elem_of_nil in Hc.
  - split.
    + intros ->. rewrite HP in Hc. apply list_elem_of_singleton in Hc as ->.
      exfalso. by apply IH2.
    + intros ->. rewrite HC in Hc. by apply elem_of_nil in Hc.
Qed.


